(** * Johny: knowledge graph, mastery levels, forgetting curve, review scheduler

    A shallow embedding of the core of the [johny] package:
    - [johny/mastery/levels.py]    (module [MasteryLevel])
    - [johny/knowledge/graph.py]   (module [KnowledgeGraph])
    - [johny/review/ebbinghaus.py] (module [Ebbinghaus])
    - [johny/mastery/tracker.py]   (modules [PracticeEvent], [MasteryRecord],
                                    [MasteryTracker])
    - [johny/review/scheduler.py]  (modules [ReviewItem], [ReviewResult],
                                    [ReviewScheduler])
    - [johny/knowledge/topics.py]  (module [Topic])
    - [johny/practice/session.py]  (modules [SessionStatus], [PracticeTask],
                                    [StudySession])

    Modelling conventions.
    - A Python [float] is a real number ([R]): rounding and NaN are not
      modelled. The range of binary64 is modelled where the code calls
      [math.exp]: a result above the largest float is an [OverflowError],
      one below half the smallest positive float is 0.0, and an argument
      above the largest float is [inf].
    - A Python [int] is an integer ([Z]).
    - A Python [set] of strings is a [gset string]; the order in which a
      [for] loop visits it is an arbitrary enumeration, given by the class
      [SetOrder] below, and the theorems hold for every instance of it.
    - A [dict] used as a map is a [gmap]; [d.get(k, set())] is a lookup with
      default, so reading never creates a key. A [for] loop over a dict
      visits its items in the order of insertion, which a [gmap] does not
      record: it is an arbitrary enumeration, given by the class
      [DictOrder] below, and the theorems hold for every instance of it.
      [sorted] and [list.sort] are a stable sort.
    - A time stamp (an ISO-8601 string written by
      [datetime.utcnow().isoformat()] and read back by
      [datetime.fromisoformat]) is the instant it denotes, a real number of
      days; [None] is [None]. The range of [datetime] is not modelled.
    - A raised exception is a value of [exn], returned in [result]. The
      functions that can also raise an exception of the interpreter
      ([ZeroDivisionError], [TypeError], ...) return an [outcome], whose
      exceptions are the values of [error].
    - The documents that [to_dict] builds and [json] stores are values of
      [pyval]; [json.dump] followed by [json.load] gives the document back,
      and the files themselves are outside the model. *)

From Stdlib Require Import Reals Lra Lia ZArith.
From stdpp Require Import gmap strings list fin_maps sorting.

Set Warnings "-clear-no-such-hyp".

(** ** Python helpers *)

(** The exceptions the modelled code raises. The three [ValueError]s of
    [add_prerequisite] and [get_learning_path] are told apart by their
    message; the specification calls them [UnknownTopic] and
    [CycleDetected]. *)
Inductive exn : Type :=
| TopicNotFound (topic_id : string)
| PrerequisiteNotFound (prereq_id : string)
| CycleDetected (prereq_id topic_id : string)
| InvalidTarget
| InvalidLevel (n : Z)
| KeyError (key : string).

Inductive result (A : Type) : Type :=
| Ok (a : A)
| Raise (e : exn).
Arguments Ok {A} a.
Arguments Raise {A} e.

Definition bind {A B : Type} (r : result A) (k : A → result B) : result B :=
  match r with
  | Ok a => k a
  | Raise e => Raise e
  end.

Notation "x ←! r ; k" := (bind r (λ x, k))
  (at level 20, r at level 100, k at level 200, right associativity,
   format "x  ←!  r ;  '/' k").

(** [min(a, b)] returns [a] unless [b < a]; [max(a, b)] returns [a] unless
    [b > a]. *)
Definition py_min (a b : R) : R := if Rlt_dec b a then b else a.
Definition py_max (a b : R) : R := if Rgt_dec b a then b else a.

(** [l[:n]] for a Python [int] [n]: a negative [n] counts from the end. *)
Definition py_take {A : Type} (n : Z) (l : list A) : list A :=
  if decide (0 ≤ n)%Z then take (Z.to_nat n) l
  else take (length l - Z.to_nat (- n)) l.

(** The order in which iterating over a set visits its elements: some
    enumeration without repetition. *)
Class SetOrder := {
  set_iter : gset string → list string;
  set_iter_perm : ∀ X : gset string, set_iter X ≡ₚ elements X
}.

(** The order in which iterating over a dict visits its items: the order
    in which the keys were inserted, so some enumeration of the items. *)
Class DictOrder := {
  dict_iter : ∀ A : Type, gmap string A → list (string * A);
  dict_iter_perm : ∀ (A : Type) (m : gmap string A),
    dict_iter A m ≡ₚ map_to_list m
}.
Arguments dict_iter {DO A} m : rename.

(** [sorted(l, key=...)] and [l.sort(key=..., reverse=...)]: a stable
    sort. [before x y] tells that [x] may stand before [y]: its key is at
    most that of [y], or at least with [reverse=True]. An element is put
    before the first element of the sorted rest that it may stand before,
    so elements with equal keys keep their order. *)
Fixpoint py_insert {A : Type} (before : relation A)
    `{!∀ x y, Decision (before x y)} (x : A) (l : list A) : list A :=
  match l with
  | [] => [x]
  | y :: l' =>
    if decide (before x y) then x :: y :: l'
    else y :: py_insert before x l'
  end.

Definition py_sorted {A : Type} (before : relation A)
    `{!∀ x y, Decision (before x y)} (l : list A) : list A :=
  foldr (py_insert before) [] l.

(** ** Exceptions of the interpreter, rounding, documents *)

(** Every exception of the modelled code: [Lib e] is an exception [e]
    raised by the library itself; the others come from the interpreter:
    the [ZeroDivisionError] of a float division, the [ValueError] of
    [math.log] outside its domain and of an enum constructor on a value
    that is no member, the [OverflowError] of [math.exp], the [TypeError]
    of subscripting or iterating a value that allows neither, and the
    [AttributeError] of calling [.get] or [.items] on a value that is no
    dict. [Untyped] is no exception: it
    marks a document whose field holds a value of another type than the
    dataclass declares, which Python stores unchecked; such documents
    are outside the model. *)
Inductive error : Type :=
| Lib (e : exn)
| ZeroDivisionError
| MathDomainError
| OverflowError
| InvalidEnumValue
| TypeError
| AttributeError
| Untyped.

(** What a call that can raise any of them gives. *)
Inductive outcome (A : Type) : Type :=
| Returned (a : A)
| Thrown (e : error).
Arguments Returned {A} a.
Arguments Thrown {A} e.

Definition obind {A B : Type} (r : outcome A) (k : A → outcome B)
  : outcome B :=
  match r with Returned a => k a | Thrown e => Thrown e end.

Notation "x ←? r ; k" := (obind r (λ x, k))
  (at level 20, r at level 100, k at level 200, right associativity,
   format "'[' x  ←?  r ;  '/' k ']'").

Definition lift {A : Type} (r : result A) : outcome A :=
  match r with Ok a => Returned a | Raise e => Thrown (Lib e) end.

(** [math.log(x)] *)
Definition py_log (x : R) : outcome R :=
  if Rlt_dec 0 x then Returned (ln x) else Thrown MathDomainError.

(** [a / b] on floats *)
Definition py_div (a b : R) : outcome R :=
  if Req_dec_T b 0 then Thrown ZeroDivisionError else Returned (a / b)%R.

(** The range of binary64: the largest float, the smallest positive float
    with a full significand, and half the smallest positive float, below
    which a positive result is rounded to 0.0. *)
Definition DBL_MAX : R := ((2 - / 2 ^ 52) * 2 ^ 1023)%R.
Definition DBL_MIN : R := (/ 2 ^ 1022)%R.
Definition DBL_TINY : R := (/ 2 ^ 1075)%R.
Arguments DBL_MAX : simpl never.
Arguments DBL_MIN : simpl never.
Arguments DBL_TINY : simpl never.

(** What [math.exp] returns: a number, or the float [inf]. *)
Inductive exp_value : Type :=
| Num (x : R)
| PosInf.

(** [math.exp(x)], with [x] the exact value of the argument. An argument
    above the largest float is the float [inf], of which [math.exp] is
    [inf]. Of a finite argument the result is an [OverflowError] when it is
    above the largest float, 0.0 when it is below half the smallest
    positive float (as it is of [-inf]), and the exponential in between. *)
Definition py_exp (x : R) : outcome exp_value :=
  if Rlt_dec DBL_MAX x then Returned PosInf
  else if Rlt_dec DBL_MAX (exp x) then Thrown OverflowError
  else if Rlt_dec (exp x) DBL_TINY then Returned (Num 0%R)
  else Returned (Num (exp x)).

(** [min(a, b)] with [b] a result of [math.exp]: [a] unless [b < a]. *)
Definition py_min_exp (a : R) (b : exp_value) : R :=
  match b with
  | Num b => py_min a b
  | PosInf => a
  end.

(** [math.floor(x)] *)
Definition py_floor (x : R) : Z := (up x - 1)%Z.

(** [round(x)]: the nearest integer, a tie going to the even one. *)
Definition round_half_even (x : R) : Z :=
  let f := py_floor x in
  let frac := (x - IZR f)%R in
  if Rlt_dec frac (1 / 2) then f
  else if Rgt_dec frac (1 / 2) then (f + 1)%Z
  else if Z.even f then f else (f + 1)%Z.

(** [round(x, ndigits)] *)
Definition py_round (x : R) (ndigits : nat) : R :=
  (IZR (round_half_even (x * 10 ^ ndigits)) / 10 ^ ndigits)%R.

(** [int(x)] of a float: truncation towards zero. *)
Definition py_int (x : R) : Z :=
  if Rle_dec 0 x then py_floor x else (- py_floor (- x))%Z.

(** The documents that [to_dict] builds and [json] stores: [VTime t] is
    the ISO string of the instant [t]; a dict is the list of its items
    in insertion order. *)
#[warnings="-register-all"] Inductive pyval : Type :=
| VNone
| VBool (b : bool)
| VInt (n : Z)
| VFloat (x : R)
| VStr (s : string)
| VTime (t : R)
| VList (l : list pyval)
| VDict (d : list (string * pyval)).

Fixpoint dict_get (d : list (string * pyval)) (k : string) : option pyval :=
  match d with
  | [] => None
  | (k', v) :: d' => if decide (k' = k) then Some v else dict_get d' k
  end.

(** [data[k]] *)
Definition subscript (data : pyval) (k : string) : outcome pyval :=
  match data with
  | VDict d =>
    match dict_get d k with
    | Some v => Returned v
    | None => Thrown (Lib (KeyError k))
    end
  | _ => Thrown TypeError
  end.

(** [data.get(k, default)] *)
Definition get (data : pyval) (k : string) (default : pyval)
  : outcome pyval :=
  match data with
  | VDict d =>
    Returned (match dict_get d k with Some v => v | None => default end)
  | _ => Thrown AttributeError
  end.

(** The value of a field, at the type the dataclass declares for it. *)
Definition as_str (v : pyval) : outcome string :=
  match v with VStr s => Returned s | _ => Thrown Untyped end.
Definition as_int (v : pyval) : outcome Z :=
  match v with VInt n => Returned n | _ => Thrown Untyped end.
Definition as_float (v : pyval) : outcome R :=
  match v with
  | VFloat x => Returned x
  | VInt n => Returned (IZR n)
  | _ => Thrown Untyped
  end.
Definition as_time (v : pyval) : outcome R :=
  match v with VTime t => Returned t | _ => Thrown Untyped end.
Definition as_opt_time (v : pyval) : outcome (option R) :=
  match v with
  | VNone => Returned None
  | VTime t => Returned (Some t)
  | _ => Thrown Untyped
  end.
Definition as_opt_str (v : pyval) : outcome (option string) :=
  match v with
  | VNone => Returned None
  | VStr s => Returned (Some s)
  | _ => Thrown Untyped
  end.

Definition of_opt_time (t : option R) : pyval :=
  match t with Some t => VTime t | None => VNone end.
Definition of_opt_str (s : option string) : pyval :=
  match s with Some s => VStr s | None => VNone end.

(** [[f(e) for e in l]]: the first exception ends the comprehension. *)
Fixpoint map_outcome {A B : Type} (f : A → outcome B) (l : list A)
  : outcome (list B) :=
  match l with
  | [] => Returned []
  | a :: l' => b ←? f a; bs ←? map_outcome f l'; Returned (b :: bs)
  end.

(** [v.items()] *)
Definition items_of (v : pyval) : outcome (list (string * pyval)) :=
  match v with VDict d => Returned d | _ => Thrown AttributeError end.

(** The elements [for x in v] visits: those of a list, the keys of a
    dict, the characters of a string. *)
Definition iter_of (v : pyval) : outcome (list pyval) :=
  match v with
  | VList l => Returned l
  | VDict d => Returned (VStr <$> d.*1)
  | VStr s =>
    Returned ((λ c, VStr (String c "")) <$> String.list_ascii_of_string s)
  | VTime _ => Thrown Untyped
  | _ => Thrown TypeError
  end.

Definition as_str_list (v : pyval) : outcome (list string) :=
  match v with
  | VList l => map_outcome as_str l
  | _ => Thrown Untyped
  end.

(** ** [johny/mastery/levels.py] *)

Module MasteryLevel.

Inductive t : Type :=
| UNKNOWN | INTRODUCED | DEVELOPING | PROFICIENT | MASTERED | FLUENT.

#[global] Instance t_eq_dec : EqDecision t.
Proof. solve_decision. Defined.

(** The [IntEnum] value. *)
Definition value (l : t) : Z :=
  match l with
  | UNKNOWN => 0
  | INTRODUCED => 1
  | DEVELOPING => 2
  | PROFICIENT => 3
  | MASTERED => 4
  | FLUENT => 5
  end.

(** [MasteryLevel(n)]: a [ValueError] outside [0..5]. *)
Definition of_value (n : Z) : result t :=
  if decide (n = 0)%Z then Ok UNKNOWN
  else if decide (n = 1)%Z then Ok INTRODUCED
  else if decide (n = 2)%Z then Ok DEVELOPING
  else if decide (n = 3)%Z then Ok PROFICIENT
  else if decide (n = 4)%Z then Ok MASTERED
  else if decide (n = 5)%Z then Ok FLUENT
  else Raise (InvalidLevel n).

(** [self.name.lower()] *)
Definition name_lower (l : t) : string :=
  match l with
  | UNKNOWN => "unknown"
  | INTRODUCED => "introduced"
  | DEVELOPING => "developing"
  | PROFICIENT => "proficient"
  | MASTERED => "mastered"
  | FLUENT => "fluent"
  end.

Definition retention_threshold (l : t) : R :=
  match l with
  | UNKNOWN => 0.0
  | INTRODUCED => 0.1
  | DEVELOPING => 0.4
  | PROFICIENT => 0.6
  | MASTERED => 0.8
  | FLUENT => 0.95
  end.

Definition score_threshold (l : t) : R :=
  match l with
  | UNKNOWN => 0.0
  | INTRODUCED => 0.0
  | DEVELOPING => 0.3
  | PROFICIENT => 0.6
  | MASTERED => 0.8
  | FLUENT => 0.95
  end.

Definition review_interval_multiplier (l : t) : R :=
  match l with
  | UNKNOWN => 0.0
  | INTRODUCED => 0.5
  | DEVELOPING => 1.0
  | PROFICIENT => 2.0
  | MASTERED => 4.0
  | FLUENT => 8.0
  end.

(** [from_score(score, current_level)]. The target rank and the
    arithmetic on ranks are on the integer values, as in the [IntEnum]. *)
Definition from_score (score : R) (current_level : t) : result t :=
  let target : Z :=
    if Rge_dec score 0.95 then value FLUENT
    else if Rge_dec score 0.80 then value MASTERED
    else if Rge_dec score 0.60 then value PROFICIENT
    else if Rge_dec score 0.30 then value DEVELOPING
    else Z.max (value INTRODUCED) (value current_level - 1) in
  if decide (target > value current_level)%Z then
    of_value (Z.min (value current_level + 1) target)
  else if Rlt_dec score 0.3 then
    if decide (value current_level > value INTRODUCED)%Z then
      of_value (value current_level - 1)
    else Ok current_level
  else Ok current_level.

(** [MasteryLevel(v)]: the member whose value equals [v]. *)
Definition of_pyval (v : pyval) : outcome t :=
  match v with
  | VInt n => lift (of_value n)
  | VBool b => lift (of_value (if b then 1 else 0))
  | VFloat x =>
    if Req_dec_T x (IZR (py_floor x)) then
      match of_value (py_floor x) with
      | Ok l => Returned l
      | Raise _ => Thrown InvalidEnumValue
      end
    else Thrown InvalidEnumValue
  | _ => Thrown InvalidEnumValue
  end.

End MasteryLevel.

(** ** [johny/knowledge/topics.py]: the [Topic] dataclass *)

Module Topic.

Record t : Type := mk {
  id : string;
  name : string;
  domain : string;
  description : string;
  difficulty : R;
  estimated_hours : R;
  tags : list string;
  concepts : list string;
  skills : list string;
  created_at : option string;
  updated_at : option string
}.

(** [to_dict()] and [from_dict(data)]. The keyword arguments of [cls(...)]
    are evaluated in order, so the first missing key is the one reported. *)
Definition to_dict (self : t) : pyval :=
  VDict [("id", VStr (id self));
         ("name", VStr (name self));
         ("domain", VStr (domain self));
         ("description", VStr (description self));
         ("difficulty", VFloat (difficulty self));
         ("estimated_hours", VFloat (estimated_hours self));
         ("tags", VList (VStr <$> tags self));
         ("concepts", VList (VStr <$> concepts self));
         ("skills", VList (VStr <$> skills self));
         ("created_at", of_opt_str (created_at self));
         ("updated_at", of_opt_str (updated_at self))].

Definition from_dict (data : pyval) : outcome t :=
  id ←? subscript data "id";
  name ←? subscript data "name";
  domain ←? subscript data "domain";
  description ←? get data "description" (VStr "");
  difficulty ←? get data "difficulty" (VFloat 0.5);
  estimated_hours ←? get data "estimated_hours" (VFloat 1.0);
  tags ←? get data "tags" (VList []);
  concepts ←? get data "concepts" (VList []);
  skills ←? get data "skills" (VList []);
  created_at ←? get data "created_at" VNone;
  updated_at ←? get data "updated_at" VNone;
  id ←? as_str id;
  name ←? as_str name;
  domain ←? as_str domain;
  description ←? as_str description;
  difficulty ←? as_float difficulty;
  estimated_hours ←? as_float estimated_hours;
  tags ←? as_str_list tags;
  concepts ←? as_str_list concepts;
  skills ←? as_str_list skills;
  created_at ←? as_opt_str created_at;
  updated_at ←? as_opt_str updated_at;
  Returned {| id := id;
              name := name;
              domain := domain;
              description := description;
              difficulty := difficulty;
              estimated_hours := estimated_hours;
              tags := tags;
              concepts := concepts;
              skills := skills;
              created_at := created_at;
              updated_at := updated_at |}.

End Topic.

(** ** [johny/knowledge/graph.py] *)

Module KnowledgeGraph.

Record t : Type := mk {
  topics : gmap string Topic.t;
  prerequisites : gmap string (gset string);
  dependents : gmap string (gset string)
}.

(** [KnowledgeGraph()] *)
Definition empty : t :=
  {| topics := ∅; prerequisites := ∅; dependents := ∅ |}.

(** [self.prerequisites.get(k, set())] and [self.dependents.get(k, set())] *)
Definition prereqs_of (g : t) (k : string) : gset string :=
  default ∅ (prerequisites g !! k).
Definition dependents_of (g : t) (k : string) : gset string :=
  default ∅ (dependents g !! k).

(** [d[k].add(x)] on a [defaultdict(set)]: the key is created if absent. *)
Definition adj_add (d : gmap string (gset string)) (k x : string)
  : gmap string (gset string) :=
  <[k := {[x]} ∪ default ∅ (d !! k)]> d.

Definition add_topic (topic : Topic.t) (g : t) : t :=
  {| topics := <[Topic.id topic := topic]> (topics g);
     prerequisites := prerequisites g;
     dependents := dependents g |}.

(** The number of set elements stored under the keys of [adj] that are not
    yet in [visited]: what a traversal can still append to its queue. *)
Definition pending (adj : gmap string (gset string)) (visited : gset string)
  : nat :=
  sum_list_with (λ k, size (default ∅ (adj !! k)))
                (elements (dom adj ∖ visited)).

(** Iterations that suffice for a breadth-first loop over [adj] started
    with [queue] and nothing visited (lemmas [cycle_loop_fuel] and
    [closure_loop_fuel]). *)
Definition bfs_fuel (adj : gmap string (gset string)) (queue : list string)
  : nat :=
  S (length queue + pending adj ∅).

(** Iterations that suffice for the main loop of [_topological_sort]: an
    id is queued only when its in-degree drops from 1 to 0 (lemma
    [topo_loop_fuel]). *)
Definition topo_fuel (in_degree : gmap string Z) (queue : list string)
  : nat :=
  S (length queue + size (filter (λ kv, (0 < kv.2)%Z) in_degree)).

Section WithOrder.
Context {SO : SetOrder}.

(** The [while queue:] loop of [_would_create_cycle]; [None] when the
    iteration budget runs out. *)
Fixpoint cycle_loop (fuel : nat) (g : t) (prereq_id : string)
    (visited : gset string) (queue : list string) : option bool :=
  match fuel with
  | O => None
  | S fuel' =>
    match queue with
    | [] => Some false
    | current :: queue' =>
      if decide (current = prereq_id) then Some true
      else if decide (current ∈ visited) then
        cycle_loop fuel' g prereq_id visited queue'
      else
        cycle_loop fuel' g prereq_id ({[current]} ∪ visited)
                   (queue' ++ set_iter (dependents_of g current))
    end
  end.

(** [_would_create_cycle(topic_id, prereq_id)]. The budget [bfs_fuel] is
    never exhausted, so the last branch is not taken. *)
Definition _would_create_cycle (g : t) (topic_id prereq_id : string)
  : bool :=
  match cycle_loop (bfs_fuel (dependents g) [topic_id]) g prereq_id
                   ∅ [topic_id] with
  | Some b => b
  | None => false
  end.

(** [add_prerequisite(topic_id, prereq_id)]: the graph after the call and
    the outcome. Every [raise] comes before the two updates. *)
Definition add_prerequisite (topic_id prereq_id : string) (g : t)
  : t * result unit :=
  if decide (topic_id ∉ dom (topics g)) then
    (g, Raise (TopicNotFound topic_id))
  else if decide (prereq_id ∉ dom (topics g)) then
    (g, Raise (PrerequisiteNotFound prereq_id))
  else if _would_create_cycle g topic_id prereq_id then
    (g, Raise (CycleDetected prereq_id topic_id))
  else
    ({| topics := topics g;
        prerequisites := adj_add (prerequisites g) topic_id prereq_id;
        dependents := adj_add (dependents g) prereq_id topic_id |},
     Ok ()).

(** The [while queue:] loop of [get_all_prerequisites]. *)
Fixpoint closure_loop (fuel : nat) (g : t) (all_prereqs : gset string)
    (queue : list string) : option (gset string) :=
  match fuel with
  | O => None
  | S fuel' =>
    match queue with
    | [] => Some all_prereqs
    | prereq_id :: queue' =>
      if decide (prereq_id ∈ all_prereqs) then
        closure_loop fuel' g all_prereqs queue'
      else
        closure_loop fuel' g ({[prereq_id]} ∪ all_prereqs)
                     (queue' ++ set_iter (prereqs_of g prereq_id))
    end
  end.

(** The set [all_prereqs] when the loop of [get_all_prerequisites]
    ends. *)
Definition all_prereq_ids (g : t) (topic_id : string) : gset string :=
  let queue := set_iter (prereqs_of g topic_id) in
  match closure_loop (bfs_fuel (prerequisites g) queue) g ∅ queue with
  | Some s => s
  | None => ∅
  end.

(** [get_all_prerequisites(topic_id)]:
    [[self.topics[pid] for pid in all_prereqs if pid in self.topics]] *)
Definition get_all_prerequisites (g : t) (topic_id : string)
  : list Topic.t :=
  omap (λ pid, topics g !! pid) (set_iter (all_prereq_ids g topic_id)).

(** [get_prerequisites] and [get_dependents] *)
Definition get_prerequisites (g : t) (topic_id : string) : list Topic.t :=
  omap (λ pid, topics g !! pid) (set_iter (prereqs_of g topic_id)).
Definition get_dependents (g : t) (topic_id : string) : list Topic.t :=
  omap (λ did, topics g !! did) (set_iter (dependents_of g topic_id)).

(** The in-degree map of [_topological_sort]: every id of the subset
    starts at 0 and gains 1 for each of its prerequisites that is in
    the subset. [in_degree[tid] += 1] is only run on keys of the map. *)
Definition in_degree_of (g : t) (topic_ids : gset string)
  : gmap string Z :=
  foldl (λ in_degree tid,
           foldl (λ in_degree prereq_id,
                    if decide (prereq_id ∈ topic_ids)
                    then alter (λ d, d + 1)%Z tid in_degree
                    else in_degree)
                 in_degree (set_iter (prereqs_of g tid)))
        (gset_to_gmap 0%Z topic_ids) (set_iter topic_ids).

(** The [for dependent_id in ...] loop inside the main loop of
    [_topological_sort], on the pair of the in-degree map and the
    queue. *)
Definition release (in_degree : gmap string Z) (queue : list string)
    (ds : list string) : gmap string Z * list string :=
  foldl (λ st dependent_id,
           match st.1 !! dependent_id with
           | Some d =>
             (<[dependent_id := (d - 1)%Z]> st.1,
              if decide (d - 1 = 0)%Z then st.2 ++ [dependent_id]
              else st.2)
           | None => st
           end)
        (in_degree, queue) ds.

(** The [while queue:] loop of [_topological_sort];
    [self.topics[current]] raises [KeyError] on an unregistered id. *)
Fixpoint topo_loop (fuel : nat) (g : t) (in_degree : gmap string Z)
    (queue : list string) (out : list Topic.t)
  : option (result (list Topic.t)) :=
  match fuel with
  | O => None
  | S fuel' =>
    match queue with
    | [] => Some (Ok out)
    | current :: queue' =>
      match topics g !! current with
      | None => Some (Raise (KeyError current))
      | Some topic =>
        let st := release in_degree queue'
                          (set_iter (dependents_of g current)) in
        topo_loop fuel' g st.1 st.2 (out ++ [topic])
      end
    end
  end.

(** [_topological_sort(topic_ids)]. The dict [in_degree] is iterated in
    the order its keys were inserted, the order of [topic_ids]. The
    budget [topo_fuel] is never exhausted (lemma [topo_loop_fuel]), so
    the last branch is not taken. *)
Definition _topological_sort (g : t) (topic_ids : gset string)
  : result (list Topic.t) :=
  let in_degree := in_degree_of g topic_ids in
  let queue :=
    filter (λ tid, in_degree !! tid = Some 0%Z) (set_iter topic_ids) in
  match topo_loop (topo_fuel in_degree queue) g in_degree queue [] with
  | Some r => r
  | None => Ok []
  end.

(** [get_learning_path(target_id, completed_ids)] *)
Definition get_learning_path (g : t) (target_id : string)
    (completed_ids : option (gset string)) : result (list Topic.t) :=
  if decide (target_id ∉ dom (topics g)) then
    Raise (TopicNotFound target_id)
  else
    let completed := default ∅ completed_ids in
    let needed := get_all_prerequisites g target_id in
    let needed_ids : gset string :=
      list_to_set (Topic.id <$> needed) ∪ {[target_id]} in
    let to_learn := needed_ids ∖ completed in
    _topological_sort g to_learn.

(** One round of the [for depth in range(max_depth)] loop of
    [get_fire_ancestors]: the weights after the first inner loop, and
    the next level after the second. *)
Definition fire_assign (weights : gmap string R) (level : gset string)
    (current_weight : R) : gmap string R :=
  foldl (λ weights prereq_id,
           match weights !! prereq_id with
           | None => <[prereq_id := current_weight]> weights
           | Some _ => weights
           end)
        weights (set_iter level).

Definition fire_next (g : t) (level : gset string) : gset string :=
  foldl (λ next_level prereq_id, next_level ∪ prereqs_of g prereq_id)
        ∅ (set_iter level).

Fixpoint fire_loop (rounds : nat) (g : t) (weights : gmap string R)
    (current_level : gset string) (current_weight : R) : gmap string R :=
  match rounds with
  | O => weights
  | S rounds' =>
    if decide (current_level = ∅) then weights
    else
      fire_loop rounds' g
                (fire_assign weights current_level current_weight)
                (fire_next g current_level)
                (current_weight * 0.5)%R
  end.

(** [get_fire_ancestors(topic_id, max_depth=4)]; [range(max_depth)] is
    empty for a negative [max_depth]. *)
Definition get_fire_ancestors (g : t) (topic_id : string) (max_depth : Z)
  : gmap string R :=
  fire_loop (Z.to_nat max_depth) g ∅ (prereqs_of g topic_id) 0.5%R.

End WithOrder.

(** [x] goes before [y] when sorting by difficulty, lowest first. *)
Definition by_difficulty (x y : Topic.t) : Prop :=
  (Topic.difficulty x <= Topic.difficulty y)%R.

#[global] Instance by_difficulty_dec (x y : Topic.t)
  : Decision (by_difficulty x y) :=
  Rle_dec (Topic.difficulty x) (Topic.difficulty y).

(** [get_available_topics(completed_ids)]; [sorted(available, key=...)]
sorts by increasing difficulty. *)
Definition get_available_topics {DO : DictOrder} (g : KnowledgeGraph.t)
    (completed_ids : gset string) : list Topic.t :=
  let available :=
    foldl (λ available item,
             if decide (item.1 ∈ completed_ids) then available
             else
               let prereqs := KnowledgeGraph.prereqs_of g item.1 in
               if decide (prereqs ⊆ completed_ids)
               then available ++ [item.2]
               else available)
          [] (dict_iter (KnowledgeGraph.topics g)) in
  py_sorted by_difficulty available.

Section Persistence.
Context {SO : SetOrder} {DO : DictOrder}.

(** [to_dict()]: [list(prereqs)] lists a set in its iteration order. *)
Definition to_dict (g : t) : pyval :=
  VDict [("topics",
          VDict ((λ item, (item.1, Topic.to_dict item.2))
                   <$> dict_iter (topics g)));
         ("prerequisites",
          VDict ((λ item, (item.1, VList (VStr <$> set_iter item.2)))
                   <$> dict_iter (prerequisites g)))].

(** The first loop of [from_dict]. *)
Fixpoint load_topics (graph : t) (items : list (string * pyval))
  : outcome t :=
  match items with
  | [] => Returned graph
  | (tid, topic_data) :: items' =>
    topic ←? Topic.from_dict topic_data;
    load_topics (add_topic topic graph) items'
  end.

(** One round of the inner loop of [from_dict]:
    [try: graph.add_prerequisite(tid, prereq_id) except ValueError: pass].
    A list or a dict is not hashable, so looking it up in [topics]
    raises [TypeError], once [tid] has passed the first test. *)
Definition try_add (graph : t) (tid : string) (prereq_id : pyval)
  : outcome t :=
  match prereq_id with
  | VStr prereq_id => Returned (add_prerequisite tid prereq_id graph).1
  | VList _ | VDict _ =>
    if decide (tid ∉ dom (topics graph)) then Returned graph
    else Thrown TypeError
  | VTime _ =>
    if decide (tid ∉ dom (topics graph)) then Returned graph
    else Thrown Untyped
  | _ => Returned graph
  end.

Fixpoint load_prereqs (graph : t) (tid : string) (prereqs : list pyval)
  : outcome t :=
  match prereqs with
  | [] => Returned graph
  | prereq_id :: prereqs' =>
    graph ←? try_add graph tid prereq_id;
    load_prereqs graph tid prereqs'
  end.

(** The second loop of [from_dict]. *)
Fixpoint load_edges (graph : t) (items : list (string * pyval))
  : outcome t :=
  match items with
  | [] => Returned graph
  | (tid, prereqs) :: items' =>
    prereqs ←? iter_of prereqs;
    graph ←? load_prereqs graph tid prereqs;
    load_edges graph items'
  end.

Definition from_dict (data : pyval) : outcome t :=
  topics_data ←? get data "topics" (VDict []);
  items ←? items_of topics_data;
  graph ←? load_topics empty items;
  prerequisites_data ←? get data "prerequisites" (VDict []);
  items ←? items_of prerequisites_data;
  load_edges graph items.

End Persistence.

End KnowledgeGraph.

(** ** [johny/review/ebbinghaus.py] *)

Module Ebbinghaus.
Local Open Scope R_scope.

Definition calculate_retention (days_since_review stability : R)
  : outcome R :=
  if Rle_dec stability 0 then Returned 0.0
  else
    retention ←? py_exp ((- days_since_review) / stability);
    Returned (py_max 0.0 (py_min_exp 1.0 retention)).

Definition optimal_review_interval (target_retention stability : R)
  : result R :=
  if Rle_dec target_retention 0 then Raise InvalidTarget
  else if Rge_dec target_retention 1 then Raise InvalidTarget
  else Ok ((- stability) * ln target_retention).

Definition update_stability
    (current_stability score retention_at_review : R) : R :=
  let base_multiplier :=
    if Rge_dec score 0.9 then 2.5
    else if Rge_dec score 0.7 then 1.8
    else if Rge_dec score 0.5 then 1.3
    else if Rge_dec score 0.3 then 0.9
    else 0.6 in
  let base_multiplier :=
    if Rge_dec score 0.7 then
      if Rlt_dec retention_at_review 0.5 then
        let difficulty_bonus := 1 + (0.5 - retention_at_review) in
        base_multiplier * difficulty_bonus
      else base_multiplier
    else base_multiplier in
  let new_stability := current_stability * base_multiplier in
  py_max 0.5 (py_min 30.0 new_stability).

Definition get_review_priority
    (retention level_importance days_overdue : R) : R :=
  let retention_urgency := (1 - retention) ^ 2 in
  let overdue_penalty := py_min 1.0 (days_overdue / 7) in
  retention_urgency * level_importance * (1 + overdue_penalty).

(** The class [ReviewSchedule]. *)
Record ReviewSchedule : Type := mkSchedule {
  target_retention : R;
  min_interval : R;
  max_interval : R
}.

Definition DEFAULT_TARGET : R := 0.85.
Definition MINIMUM_INTERVAL : R := 0.5.
Definition MAXIMUM_INTERVAL : R := 180.

(** [next_review_date(last_review, stability)]: [timedelta(days=interval)]
    added to an instant counted in days. *)
Definition next_review_date (self : ReviewSchedule)
    (last_review stability : R) : result R :=
  interval ←! optimal_review_interval (target_retention self) stability;
  let interval :=
    py_max (min_interval self) (py_min (max_interval self) interval) in
  Ok (last_review + interval).

Definition days_until_retention_drops_to
    (current_retention target_retention stability : R) : outcome R :=
  if Rle_dec current_retention target_retention then Returned 0.0
  else
    t_c ←? (if Rgt_dec current_retention 0 then
              l ←? py_log current_retention; Returned (- stability * l)
            else Returned 0);
    l ←? py_log target_retention;
    let t_t := - stability * l in
    Returned (py_max 0.0 (t_t - t_c)).

(** [should_review_now(last_review, stability, threshold)], with [now]
    the reading of [datetime.utcnow()]. *)
Definition should_review_now (self : ReviewSchedule) (now : R)
    (last_review : option R) (stability threshold : R) : outcome bool :=
  match last_review with
  | None => Returned false
  | Some last_review =>
    let days_elapsed := now - last_review in
    retention ←? calculate_retention days_elapsed stability;
    Returned (if Rlt_dec retention threshold then true else false)
  end.

End Ebbinghaus.

(** ** [johny/mastery/tracker.py] *)

Module PracticeEvent.

Record t : Type := mk {
  timestamp : R;
  score : R;
  level_before : Z;
  level_after : Z;
  problem_type : string;
  time_spent_seconds : Z
}.

(** [to_dict()] and [from_dict(data)] *)
Definition to_dict (self : t) : pyval :=
  VDict [("timestamp", VTime (timestamp self));
         ("score", VFloat (score self));
         ("level_before", VInt (level_before self));
         ("level_after", VInt (level_after self));
         ("problem_type", VStr (problem_type self));
         ("time_spent_seconds", VInt (time_spent_seconds self))].

Definition from_dict (data : pyval) : outcome t :=
  timestamp ←? subscript data "timestamp";
  score ←? subscript data "score";
  level_before ←? subscript data "level_before";
  level_after ←? subscript data "level_after";
  problem_type ←? get data "problem_type" (VStr "");
  time_spent_seconds ←? get data "time_spent_seconds" (VInt 0);
  timestamp ←? as_time timestamp;
  score ←? as_float score;
  level_before ←? as_int level_before;
  level_after ←? as_int level_after;
  problem_type ←? as_str problem_type;
  time_spent_seconds ←? as_int time_spent_seconds;
  Returned {| timestamp := timestamp;
              score := score;
              level_before := level_before;
              level_after := level_after;
              problem_type := problem_type;
              time_spent_seconds := time_spent_seconds |}.

End PracticeEvent.

Module MasteryRecord.
Local Open Scope R_scope.

Record t : Type := mk {
  topic_id : string;
  level : MasteryLevel.t;
  last_practiced : option R;
  practice_count : Z;
  total_time_seconds : Z;
  average_score : R;
  history : list PracticeEvent.t;
  stability : R;
  last_review : option R
}.

(** [MasteryRecord(topic_id=topic_id)]: the dataclass defaults. *)
Definition fresh (topic_id : string) : t :=
  {| topic_id := topic_id;
     level := MasteryLevel.UNKNOWN;
     last_practiced := None;
     practice_count := 0;
     total_time_seconds := 0;
     average_score := 0.0;
     history := [];
     stability := 1.0;
     last_review := None |}.

(** [self.history = self.history[-50:]] when it is longer than 50. *)
Definition trim_history (h : list PracticeEvent.t) : list PracticeEvent.t :=
  if decide (50 < length h)%nat then drop (length h - 50)%nat h else h.

(** [record_practice(score, problem_type, time_spent_seconds)], with [now]
    the reading of [datetime.utcnow()]: the record after the call and the
    level returned. [from_score] is called before any field is written. *)
Definition record_practice (now : R) (score : R) (problem_type : string)
    (time_spent_seconds : Z) (self : t)
  : result (t * MasteryLevel.t) :=
  let level_before := level self in
  new_level ←! MasteryLevel.from_score score (level self);
  let practice_count' := (practice_count self + 1)%Z in
  let average_score' :=
    (average_score self * IZR (practice_count' - 1) + score)
    / IZR practice_count' in
  let stability' :=
    if Rge_dec score 0.7 then py_min 10.0 (stability self * 1.2)
    else if Rlt_dec score 0.4 then py_max 0.5 (stability self * 0.8)
    else stability self in
  let event :=
    {| PracticeEvent.timestamp := now;
       PracticeEvent.score := score;
       PracticeEvent.level_before := MasteryLevel.value level_before;
       PracticeEvent.level_after := MasteryLevel.value new_level;
       PracticeEvent.problem_type := problem_type;
       PracticeEvent.time_spent_seconds := time_spent_seconds |} in
  Ok ({| topic_id := topic_id self;
         level := new_level;
         last_practiced := Some now;
         practice_count := practice_count';
         total_time_seconds :=
           (total_time_seconds self + time_spent_seconds)%Z;
         average_score := average_score';
         history := trim_history (history self ++ [event]);
         stability := stability';
         last_review := Some now |},
      new_level).

(** [get_retention()], with [now] the reading of [datetime.utcnow()]. *)
Definition get_retention (now : R) (self : t) : outcome R :=
  match last_review self with
  | None => Returned 0.0
  | Some last_review =>
    let days_elapsed := now - last_review in
    x ←? py_div (- days_elapsed) (stability self);
    retention ←? py_exp x;
    Returned (py_max 0.0 (py_min_exp 1.0 retention))
  end.

(** [needs_review(threshold)] *)
Definition needs_review (now : R) (threshold : R) (self : t)
  : outcome bool :=
  if decide (level self = MasteryLevel.UNKNOWN) then Returned false
  else
    retention ←? get_retention now self;
    Returned (if Rlt_dec retention threshold then true else false).

(** [to_dict()] and [from_dict(data)]; [self.level.value] is the integer
    of the level, and [MasteryLevel(...)] is called on what [data] holds, a
    missing level being 0. *)
Definition to_dict (self : t) : pyval :=
  VDict [("topic_id", VStr (topic_id self));
         ("level", VInt (MasteryLevel.value (level self)));
         ("last_practiced", of_opt_time (last_practiced self));
         ("practice_count", VInt (practice_count self));
         ("total_time_seconds", VInt (total_time_seconds self));
         ("average_score", VFloat (average_score self));
         ("stability", VFloat (stability self));
         ("last_review", of_opt_time (last_review self));
         ("history", VList (PracticeEvent.to_dict <$> history self))].

(** [[PracticeEvent.from_dict(e) for e in v]]: a dict is iterated by its
    keys and a string by its characters, on which [from_dict] raises. *)
Definition events_of (v : pyval) : outcome (list PracticeEvent.t) :=
  match v with
  | VList l => map_outcome PracticeEvent.from_dict l
  | VDict [] => Returned []
  | VStr "" => Returned []
  | _ => Thrown TypeError
  end.

Definition from_dict (data : pyval) : outcome t :=
  topic_id ←? subscript data "topic_id";
  level ←? get data "level" (VInt 0);
  level ←? MasteryLevel.of_pyval level;
  last_practiced ←? get data "last_practiced" VNone;
  practice_count ←? get data "practice_count" (VInt 0);
  total_time_seconds ←? get data "total_time_seconds" (VInt 0);
  average_score ←? get data "average_score" (VFloat 0.0);
  stability ←? get data "stability" (VFloat 1.0);
  last_review ←? get data "last_review" VNone;
  history ←? get data "history" (VList []);
  history ←? events_of history;
  topic_id ←? as_str topic_id;
  last_practiced ←? as_opt_time last_practiced;
  practice_count ←? as_int practice_count;
  total_time_seconds ←? as_int total_time_seconds;
  average_score ←? as_float average_score;
  stability ←? as_float stability;
  last_review ←? as_opt_time last_review;
  Returned {| topic_id := topic_id;
              level := level;
              last_practiced := last_practiced;
              practice_count := practice_count;
              total_time_seconds := total_time_seconds;
              average_score := average_score;
              history := history;
              stability := stability;
              last_review := last_review |}.

End MasteryRecord.

Module MasteryTracker.
Local Open Scope R_scope.

(** The tracker's state is its [records] dict; the state file and [save]
    are outside the model. *)
Record t : Type := mk {
  records : gmap string MasteryRecord.t
}.

Definition empty : t := {| records := ∅ |}.

(** [get_record(topic_id)]: the tracker after the call (the record is
    created if absent) and the record. *)
Definition get_record (topic_id : string) (self : t)
  : t * MasteryRecord.t :=
  match records self !! topic_id with
  | Some record => (self, record)
  | None =>
    let record := MasteryRecord.fresh topic_id in
    ({| records := <[topic_id := record]> (records self) |}, record)
  end.

(** [record_practice(topic_id, score, ...)]: the record is the object
    stored in the dict, so its update is an update of the dict. When
    [from_score] raises, the record created by [get_record] stays. *)
Definition record_practice (now : R) (topic_id : string) (score : R)
    (problem_type : string) (time_spent_seconds : Z) (self : t)
  : t * result MasteryLevel.t :=
  let '(self, record) := get_record topic_id self in
  match MasteryRecord.record_practice now score problem_type
                                      time_spent_seconds record with
  | Ok (record', new_level) =>
    ({| records := <[topic_id := record']> (records self) |}, Ok new_level)
  | Raise e => (self, Raise e)
  end.

(** The body of the [for prereq_id, weight in fire_weights.items()] loop
    of [apply_fire_credit]; [now] is the reading of [datetime.utcnow()]
    in that round. *)
Definition fire_credit_step (now : string → R) (base_score : R) (self : t)
    (item : string * R) : t :=
  let '(prereq_id, weight) := item in
  let adjusted_score := base_score * weight in
  if Rge_dec adjusted_score 0.3 then
    let '(self, record) := get_record prereq_id self in
    match MasteryRecord.last_review record with
    | Some _ =>
      let record' :=
        {| MasteryRecord.topic_id := MasteryRecord.topic_id record;
           MasteryRecord.level := MasteryRecord.level record;
           MasteryRecord.last_practiced :=
             MasteryRecord.last_practiced record;
           MasteryRecord.practice_count :=
             MasteryRecord.practice_count record;
           MasteryRecord.total_time_seconds :=
             MasteryRecord.total_time_seconds record;
           MasteryRecord.average_score := MasteryRecord.average_score record;
           MasteryRecord.history := MasteryRecord.history record;
           MasteryRecord.stability :=
             py_min 10.0
                    (MasteryRecord.stability record * (1 + 0.1 * weight));
           MasteryRecord.last_review := Some (now prereq_id) |} in
      {| records := <[prereq_id := record']> (records self) |}
    | None => self
    end
  else self.

(** [apply_fire_credit(topic_id, fire_weights, base_score)]. The dict
    [fire_weights] is the list of its items in insertion order (its keys
    are distinct). *)
Definition apply_fire_credit (now : string → R) (topic_id : string)
    (fire_weights : list (string * R)) (base_score : R) (self : t) : t :=
  foldl (fire_credit_step now base_score) self fire_weights.

(** The loop of [get_topics_due_for_review]; each record goes with its
    key in the dict, and [now k] is the clock reading in its round. *)
Fixpoint due_loop (now : string → R) (threshold : R)
    (records : list (string * MasteryRecord.t))
    (due : list (string * MasteryRecord.t))
  : outcome (list (string * MasteryRecord.t)) :=
  match records with
  | [] => Returned due
  | (k, record) :: records' =>
    b ←? MasteryRecord.needs_review (now k) threshold record;
    due_loop now threshold records'
             (if b : bool then due ++ [(k, record)] else due)
  end.

(** The keys [r.get_retention()] of the sort, computed for the whole list
    before it is sorted; [now k] is the clock reading at the key of the
    record stored under [k]. *)
Fixpoint sort_keys (now : string → R)
    (due : list (string * MasteryRecord.t))
  : outcome (list (R * MasteryRecord.t)) :=
  match due with
  | [] => Returned []
  | (k, record) :: due' =>
    key ←? MasteryRecord.get_retention (now k) record;
    keyed ←? sort_keys now due';
    Returned ((key, record) :: keyed)
  end.

(** [x] goes before [y] when sorting by key, lowest first. *)
Definition by_key (x y : R * MasteryRecord.t) : Prop := x.1 <= y.1.

#[global] Instance by_key_dec (x y : R * MasteryRecord.t)
  : Decision (by_key x y) := Rle_dec x.1 y.1.

(** [get_topics_due_for_review(threshold)]; [now] gives the clock
    readings of the loop and [now_sort] those of the sort keys. *)
Definition get_topics_due_for_review {DO : DictOrder}
    (now now_sort : string → R) (threshold : R) (self : t)
  : outcome (list MasteryRecord.t) :=
  due ←? due_loop now threshold (dict_iter (records self)) [];
  keyed ←? sort_keys now_sort due;
  Returned (snd <$> py_sorted by_key keyed).

(** The document [save] writes. *)
Definition to_doc {DO : DictOrder} (self : t) : pyval :=
  VDict [("records",
          VList (MasteryRecord.to_dict <$> (dict_iter (records self)).*2))].

(** The loop of [_load]; the [except Exception: pass] around it keeps
    what was stored before the first exception. *)
Fixpoint load_loop (self : t) (records_data : list pyval) : t :=
  match records_data with
  | [] => self
  | record_data :: records_data' =>
    match MasteryRecord.from_dict record_data with
    | Returned record =>
      load_loop
        {| records := <[MasteryRecord.topic_id record := record]>
                        (records self) |}
        records_data'
    | Thrown _ => self
    end
  end.

(** [_load()] on a state file that holds the document [data]. Iterating
    a dict or a string hands its keys or characters to [from_dict],
    which raises on the first one. *)
Definition _load (data : pyval) (self : t) : t :=
  match get data "records" (VList []) with
  | Returned (VList records_data) => load_loop self records_data
  | _ => self
  end.

End MasteryTracker.

(** ** [johny/review/scheduler.py] *)

Module ReviewItem.

Record t : Type := mk {
  topic_id : string;
  retention : R;
  priority : R;
  days_since_review : R;
  optimal_review_date : option R;
  mastery_level : string
}.

End ReviewItem.

Module ReviewResult.

(** The dict returned by [complete_review]. *)
Record t : Type := mk {
  topic_id : string;
  score : R;
  new_level : string;
  retention_at_review : R;
  new_stability : R;
  next_review_date : R;
  days_until_review : R
}.

End ReviewResult.

Module ReviewScheduler.
Local Open Scope R_scope.

Record t : Type := mk {
  mastery : MasteryTracker.t;
  schedule : Ebbinghaus.ReviewSchedule
}.

(** [ReviewScheduler(mastery_tracker, target_retention=0.85)] *)
Definition new (mastery_tracker : MasteryTracker.t) (target_retention : R)
  : t :=
  {| mastery := mastery_tracker;
     schedule :=
       {| Ebbinghaus.target_retention := target_retention;
          Ebbinghaus.min_interval := Ebbinghaus.MINIMUM_INTERVAL;
          Ebbinghaus.max_interval := Ebbinghaus.MAXIMUM_INTERVAL |} |}.

(** One round of the [for record in ...] loop of [get_due_reviews]:
    [None] for [continue], otherwise the item appended. [now] is the
    reading of [datetime.utcnow()] in that round. *)
Definition due_item (self : t) (now : R) (threshold : R)
    (record : MasteryRecord.t) : outcome (option ReviewItem.t) :=
  if decide (MasteryRecord.level record = MasteryLevel.UNKNOWN)
  then Returned None
  else
    elapsed ←?
      match MasteryRecord.last_review record with
      | Some last_review =>
        let days_elapsed := now - last_review in
        retention ←? Ebbinghaus.calculate_retention
                       days_elapsed (MasteryRecord.stability record);
        Returned (days_elapsed, retention)
      | None => Returned (0, 0.0)
      end;
    let '(days_elapsed, retention) := elapsed in
    if Rge_dec retention threshold then Returned None
    else
      let level_weight :=
        1 + IZR (MasteryLevel.value (MasteryRecord.level record)) * 0.2 in
      interval ←? lift (Ebbinghaus.optimal_review_interval
                          threshold (MasteryRecord.stability record));
      let priority :=
        Ebbinghaus.get_review_priority
          retention level_weight (py_max 0 (days_elapsed - interval)) in
      optimal_date ←?
        match MasteryRecord.last_review record with
        | Some last_review =>
          d ←? lift (Ebbinghaus.next_review_date
                       (schedule self) last_review
                       (MasteryRecord.stability record));
          Returned (Some d)
        | None => Returned None
        end;
      Returned
           (Some {| ReviewItem.topic_id := MasteryRecord.topic_id record;
                  ReviewItem.retention := retention;
                  ReviewItem.priority := priority;
                  ReviewItem.days_since_review := days_elapsed;
                  ReviewItem.optimal_review_date := optimal_date;
                  ReviewItem.mastery_level :=
                    MasteryLevel.name_lower (MasteryRecord.level record) |}).

(** The whole loop: the list [items] when it ends, or the first
    exception. [now k] is the clock reading in the round of the record
    stored under key [k]. *)
Fixpoint due_items (self : t) (now : string → R) (threshold : R)
    (records : list (string * MasteryRecord.t)) (items : list ReviewItem.t)
  : outcome (list ReviewItem.t) :=
  match records with
  | [] => Returned items
  | (k, record) :: records' =>
    o ←? due_item self (now k) threshold record;
    due_items self now threshold records'
              (match o with Some item => items ++ [item] | None => items end)
  end.

(** [x] goes before [y] when sorting by priority, highest first. *)
Definition by_priority (x y : ReviewItem.t) : Prop :=
  ReviewItem.priority y <= ReviewItem.priority x.

#[global] Instance by_priority_dec (x y : ReviewItem.t)
  : Decision (by_priority x y) :=
  Rle_dec (ReviewItem.priority y) (ReviewItem.priority x).

(** [get_due_reviews(limit, threshold)]; [items.sort(key=...,
    reverse=True)] sorts by decreasing priority. *)
Definition get_due_reviews {DO : DictOrder} (self : t) (now : string → R)
    (limit : Z) (threshold : R) : outcome (list ReviewItem.t) :=
  items ←? due_items self now threshold
             (dict_iter (MasteryTracker.records (mastery self))) [];
  Returned (py_take limit (py_sorted by_priority items)).

(** The readings of [datetime.utcnow()] during one call of
    [complete_review], in the order of the calls. *)
Record Clock : Type := mkClock {
  at_retention : R;
  at_practice : R;
  at_credit : string → R;
  at_schedule : R;
  at_result : R
}.

(** [complete_review(topic_id, score, fire_weights)]: the scheduler after
    the call and its result. [record] is the object stored in the dict,
    so what [apply_fire_credit] does to it is seen when its stability is
    read for the next review date. Nothing is undone when a later step
    raises. *)
Definition complete_review (clock : Clock) (topic_id : string) (score : R)
    (fire_weights : option (list (string * R))) (self : t)
  : t * outcome ReviewResult.t :=
  let '(mastery1, record) :=
    MasteryTracker.get_record topic_id (mastery self) in
  match MasteryRecord.get_retention (at_retention clock) record with
  | Thrown e => ({| mastery := mastery1; schedule := schedule self |}, Thrown e)
  | Returned retention_at_review =>
    match MasteryRecord.record_practice (at_practice clock) score "" 0
                                        record with
    | Raise e =>
      ({| mastery := mastery1; schedule := schedule self |}, Thrown (Lib e))
    | Ok (record', new_level) =>
      let mastery2 :=
        {| MasteryTracker.records :=
             <[topic_id := record']> (MasteryTracker.records mastery1) |} in
      let mastery3 :=
        match fire_weights with
        | Some ((_ :: _) as weights) =>
          if Rge_dec score 0.5 then
            MasteryTracker.apply_fire_credit (at_credit clock) topic_id
                                             weights score mastery2
          else mastery2
        | _ => mastery2
        end in
      let record :=
        default record' (MasteryTracker.records mastery3 !! topic_id) in
      let self' := {| mastery := mastery3; schedule := schedule self |} in
      match Ebbinghaus.next_review_date (schedule self) (at_schedule clock)
                                        (MasteryRecord.stability record) with
      | Raise e => (self', Thrown (Lib e))
      | Ok next_review =>
        (self',
         Returned
           {| ReviewResult.topic_id := topic_id;
              ReviewResult.score := score;
              ReviewResult.new_level := MasteryLevel.name_lower new_level;
              ReviewResult.retention_at_review :=
                py_round retention_at_review 3;
              ReviewResult.new_stability :=
                py_round (MasteryRecord.stability record) 2;
              ReviewResult.next_review_date := next_review;
              ReviewResult.days_until_review :=
                py_round (next_review - at_result clock) 1 |})
      end
    end
  end.

End ReviewScheduler.

(** ** [johny/practice/session.py] *)

Module SessionStatus.

Inductive t : Type := ACTIVE | PAUSED | COMPLETED | ABANDONED.

#[global] Instance t_eq_dec : EqDecision t.
Proof. solve_decision. Defined.

End SessionStatus.

Module PracticeTask.

Record t : Type := mk {
  task_id : string;
  topic_id : string;
  problem_type : string;
  difficulty : string;
  started_at : option R;
  completed_at : option R;
  score : option R;
  skipped : bool;
  hint_used : bool
}.

End PracticeTask.

Module StudySession.
Local Open Scope R_scope.

Record t : Type := mk {
  session_id : string;
  domain : string;
  status : SessionStatus.t;
  planned_minutes : Z;
  started_at : R;
  ended_at : option R;
  paused_at : option R;
  total_paused_seconds : Z;
  tasks : list PracticeTask.t;
  current_task_index : Z;
  tasks_completed : Z;
  tasks_skipped : Z;
  total_score : R
}.

(** [StudySession(session_id, domain, planned_minutes)], created at
    [now]: the dataclass defaults. *)
Definition new (now : R) (session_id domain : string) (planned_minutes : Z)
  : t :=
  {| session_id := session_id;
     domain := domain;
     status := SessionStatus.ACTIVE;
     planned_minutes := planned_minutes;
     started_at := now;
     ended_at := None;
     paused_at := None;
     total_paused_seconds := 0;
     tasks := [];
     current_task_index := 0;
     tasks_completed := 0;
     tasks_skipped := 0;
     total_score := 0.0 |}.

(** [get_elapsed_minutes()]; instants are counted in days, so
    [total_seconds()] of a difference is 86400 times it. *)
Definition get_elapsed_minutes (now : R) (self : t) : R :=
  let start := started_at self in
  let end_ :=
    match ended_at self with
    | Some ended_at => ended_at
    | None =>
      match paused_at self with
      | Some paused_at => paused_at
      | None => now
      end
    end in
  let total_seconds :=
    (end_ - start) * 86400 - IZR (total_paused_seconds self) in
  py_max 0 (total_seconds / 60).

Definition get_remaining_minutes (now : R) (self : t) : R :=
  py_max 0 (IZR (planned_minutes self) - get_elapsed_minutes now self).

Definition is_time_up (now : R) (self : t) : bool :=
  if Rge_dec (get_elapsed_minutes now self) (IZR (planned_minutes self))
  then true else false.

Definition with_status (self : t) (status' : SessionStatus.t)
    (ended_at' paused_at' : option R) (total_paused_seconds' : Z) : t :=
  {| session_id := session_id self;
     domain := domain self;
     status := status';
     planned_minutes := planned_minutes self;
     started_at := started_at self;
     ended_at := ended_at';
     paused_at := paused_at';
     total_paused_seconds := total_paused_seconds';
     tasks := tasks self;
     current_task_index := current_task_index self;
     tasks_completed := tasks_completed self;
     tasks_skipped := tasks_skipped self;
     total_score := total_score self |}.

Definition pause (now : R) (self : t) : t :=
  if decide (status self = SessionStatus.ACTIVE) then
    with_status self SessionStatus.PAUSED (ended_at self) (Some now)
                (total_paused_seconds self)
  else self.

Definition resume (now : R) (self : t) : t :=
  if decide (status self = SessionStatus.PAUSED) then
    match paused_at self with
    | Some paused_at =>
      let paused_duration := (now - paused_at) * 86400 in
      with_status self SessionStatus.ACTIVE (ended_at self) None
                  (total_paused_seconds self + py_int paused_duration)
    | None => self
    end
  else self.

(** [end(status)] *)
Definition end_ (now : R) (status : SessionStatus.t) (self : t) : t :=
  with_status self status (Some now) (paused_at self)
              (total_paused_seconds self).

Definition with_tasks (self : t) (tasks' : list PracticeTask.t)
    (tasks_completed' tasks_skipped' : Z) (total_score' : R) : t :=
  {| session_id := session_id self;
     domain := domain self;
     status := status self;
     planned_minutes := planned_minutes self;
     started_at := started_at self;
     ended_at := ended_at self;
     paused_at := paused_at self;
     total_paused_seconds := total_paused_seconds self;
     tasks := tasks';
     current_task_index := current_task_index self;
     tasks_completed := tasks_completed';
     tasks_skipped := tasks_skipped';
     total_score := total_score' |}.

(** [add_task(topic_id, problem_type, difficulty)]; [hex] is
    [uuid4().hex[:8]]. *)
Definition add_task (hex : string) (topic_id problem_type difficulty : string)
    (self : t) : t * PracticeTask.t :=
  let task :=
    {| PracticeTask.task_id := "task-" +:+ hex;
       PracticeTask.topic_id := topic_id;
       PracticeTask.problem_type := problem_type;
       PracticeTask.difficulty := difficulty;
       PracticeTask.started_at := None;
       PracticeTask.completed_at := None;
       PracticeTask.score := None;
       PracticeTask.skipped := false;
       PracticeTask.hint_used := false |} in
  (with_tasks self (tasks self ++ [task]) (tasks_completed self)
              (tasks_skipped self) (total_score self),
   task).

(** The loop [for task in self.tasks: if task.task_id == task_id: ...
    return task]: the first task with that id is replaced by [f] of it;
    the list after the loop and the task returned. *)
Fixpoint update_first (task_id : string) (f : PracticeTask.t → PracticeTask.t)
    (tasks : list PracticeTask.t)
  : list PracticeTask.t * option PracticeTask.t :=
  match tasks with
  | [] => ([], None)
  | task :: tasks' =>
    if decide (PracticeTask.task_id task = task_id) then
      (f task :: tasks', Some (f task))
    else
      let '(tasks'', found) := update_first task_id f tasks' in
      (task :: tasks'', found)
  end.

Definition start_task (now : R) (task_id : string) (self : t)
  : t * option PracticeTask.t :=
  let '(tasks', found) :=
    update_first task_id
      (λ task,
         {| PracticeTask.task_id := PracticeTask.task_id task;
            PracticeTask.topic_id := PracticeTask.topic_id task;
            PracticeTask.problem_type := PracticeTask.problem_type task;
            PracticeTask.difficulty := PracticeTask.difficulty task;
            PracticeTask.started_at := Some now;
            PracticeTask.completed_at := PracticeTask.completed_at task;
            PracticeTask.score := PracticeTask.score task;
            PracticeTask.skipped := PracticeTask.skipped task;
            PracticeTask.hint_used := PracticeTask.hint_used task |})
      (tasks self) in
  (with_tasks self tasks' (tasks_completed self) (tasks_skipped self)
              (total_score self),
   found).

Definition complete_task (now : R) (task_id : string) (score : R) (self : t)
  : t * option PracticeTask.t :=
  let '(tasks', found) :=
    update_first task_id
      (λ task,
         {| PracticeTask.task_id := PracticeTask.task_id task;
            PracticeTask.topic_id := PracticeTask.topic_id task;
            PracticeTask.problem_type := PracticeTask.problem_type task;
            PracticeTask.difficulty := PracticeTask.difficulty task;
            PracticeTask.started_at := PracticeTask.started_at task;
            PracticeTask.completed_at := Some now;
            PracticeTask.score := Some score;
            PracticeTask.skipped := PracticeTask.skipped task;
            PracticeTask.hint_used := PracticeTask.hint_used task |})
      (tasks self) in
  match found with
  | Some _ =>
    (with_tasks self tasks' (tasks_completed self + 1) (tasks_skipped self)
                (total_score self + score),
     found)
  | None => (self, None)
  end.

Definition skip_task (task_id : string) (self : t)
  : t * option PracticeTask.t :=
  let '(tasks', found) :=
    update_first task_id
      (λ task,
         {| PracticeTask.task_id := PracticeTask.task_id task;
            PracticeTask.topic_id := PracticeTask.topic_id task;
            PracticeTask.problem_type := PracticeTask.problem_type task;
            PracticeTask.difficulty := PracticeTask.difficulty task;
            PracticeTask.started_at := PracticeTask.started_at task;
            PracticeTask.completed_at := PracticeTask.completed_at task;
            PracticeTask.score := PracticeTask.score task;
            PracticeTask.skipped := true;
            PracticeTask.hint_used := PracticeTask.hint_used task |})
      (tasks self) in
  match found with
  | Some _ =>
    (with_tasks self tasks' (tasks_completed self) (tasks_skipped self + 1)
                (total_score self),
     found)
  | None => (self, None)
  end.

Definition get_average_score (self : t) : R :=
  if decide (tasks_completed self = 0%Z) then 0.0
  else total_score self / IZR (tasks_completed self).

End StudySession.

(** * Vocabulary of the statements *)

(** ** Graphs *)

(** The two edge relations of a graph: [y] is a direct prerequisite of [x],
and [y] directly depends on [x]. *)
Definition prereq_edge (g : KnowledgeGraph.t) (x y : string) : Prop :=
  y ∈ KnowledgeGraph.prereqs_of g x.
Definition dep_edge (g : KnowledgeGraph.t) (x y : string) : Prop :=
  y ∈ KnowledgeGraph.dependents_of g x.

(** What [add_topic] and [add_prerequisite] maintain: a topic is stored
under its own id, both ends of an edge are registered, and [dependents] is
the inverse of [prerequisites]. *)
Record well_formed (g : KnowledgeGraph.t) : Prop := {
  wf_ids : ∀ k t, KnowledgeGraph.topics g !! k = Some t → Topic.id t = k;
  wf_registered : ∀ x y,
    prereq_edge g x y →
    x ∈ dom (KnowledgeGraph.topics g) ∧ y ∈ dom (KnowledgeGraph.topics g);
  wf_mirror : ∀ x y, prereq_edge g x y ↔ dep_edge g y x
}.

(** The DAG invariant: no topic is a transitive prerequisite of itself. *)
Definition acyclic (g : KnowledgeGraph.t) : Prop :=
  ∀ x, ¬ tc (prereq_edge g) x x.

(** The graphs the code can build: from the empty graph by [add_topic] and
[add_prerequisite] (whether the latter succeeds or raises). *)
Inductive built {SO : SetOrder} : KnowledgeGraph.t → Prop :=
| built_empty : built KnowledgeGraph.empty
| built_add_topic topic g :
    built g → built (KnowledgeGraph.add_topic topic g)
| built_add_prerequisite topic_id prereq_id g :
    built g → built (KnowledgeGraph.add_prerequisite topic_id prereq_id g).1.

(** [x] reaches [p] along dependents through ids outside [V] (the end point
[p] itself may be in [V]). *)
Inductive reach_avoid (g : KnowledgeGraph.t) (p : string) (V : gset string)
  : string → Prop :=
| reach_here : reach_avoid g p V p
| reach_step x y :
    x ∉ V → dep_edge g x y → reach_avoid g p V y → reach_avoid g p V x.

(** The ids met at depth [k] below a set of ids: depth 0 is the set itself,
each further depth the union of the direct prerequisites of the previous
one. *)
Fixpoint layer (g : KnowledgeGraph.t) (level : gset string) (k : nat)
  : gset string :=
  match k with
  | O => level
  | S k' => layer g (set_bind (KnowledgeGraph.prereqs_of g) level) k'
  end.

(** The weight given at depth [k]: 0.5 halved [k] times. *)
Definition fire_weight (k : nat) : R := (0.5 * 0.5 ^ k)%R.

(** How many prerequisites of [x] are in the subset [S] and not yet among
the emitted ids. *)
Definition remaining (g : KnowledgeGraph.t) (S : gset string)
    (emitted : list string) (x : string) : nat :=
  length (filter (λ p, p ∈ S ∧ p ∉ emitted)
                 (elements (KnowledgeGraph.prereqs_of g x))).

(** The number of ids whose in-degree is positive. *)
Definition positives (in_degree : gmap string Z) : nat :=
  size (filter (λ kv : string * Z, (0 < kv.2)%Z) in_degree).

(** The invariant of the main loop of [_topological_sort] on the subset
[S]; [ids] are the ids emitted so far. *)
Record topo_inv (g : KnowledgeGraph.t) (S : gset string)
    (deg : gmap string Z) (queue ids : list string) : Prop := {
  ti_deg : ∀ x,
    deg !! x = if decide (x ∈ S)
               then Some (Z.of_nat (remaining g S ids x)) else None;
  ti_nodup : NoDup (ids ++ queue);
  ti_sub : ∀ x, x ∈ ids ++ queue → x ∈ S;
  ti_zero : ∀ x, x ∈ ids ++ queue → remaining g S ids x = 0;
  ti_order : ∀ i x p,
    ids !! i = Some x → p ∈ KnowledgeGraph.prereqs_of g x → p ∈ S →
    ∃ j, j < i ∧ ids !! j = Some p
}.

(** ** Mastery records *)

(** The record [get_record] returns for a key: the stored one, or a fresh
one. *)
Definition record_at (tr : MasteryTracker.t) (k : string) : MasteryRecord.t :=
  default (MasteryRecord.fresh k) (MasteryTracker.records tr !! k).

(** What one round of [apply_fire_credit] with weight [w], read at time [t],
does to the record [r] of its key. *)
Definition credit (base_score w t : R) (r : MasteryRecord.t)
  : MasteryRecord.t :=
  if Rge_dec (base_score * w) 0.3 then
    match MasteryRecord.last_review r with
    | Some _ =>
      {| MasteryRecord.topic_id := MasteryRecord.topic_id r;
         MasteryRecord.level := MasteryRecord.level r;
         MasteryRecord.last_practiced := MasteryRecord.last_practiced r;
         MasteryRecord.practice_count := MasteryRecord.practice_count r;
         MasteryRecord.total_time_seconds :=
           MasteryRecord.total_time_seconds r;
         MasteryRecord.average_score := MasteryRecord.average_score r;
         MasteryRecord.history := MasteryRecord.history r;
         MasteryRecord.stability :=
           py_min 10.0 (MasteryRecord.stability r * (1 + 0.1 * w));
         MasteryRecord.last_review := Some t |}
    | None => r
    end
  else r.

(** A call on a tracker, and a sequence of calls run in order. *)
Inductive op : Type :=
| Practice (now : R) (topic_id : string) (score : R) (problem_type : string)
           (time_spent_seconds : Z)
| FireCredit (now : string → R) (topic_id : string)
             (fire_weights : list (string * R)) (base_score : R).

Definition step (tr : MasteryTracker.t) (o : op) : MasteryTracker.t :=
  match o with
  | Practice now k s pt ts =>
    (MasteryTracker.record_practice now k s pt ts tr).1
  | FireCredit now k ws b => MasteryTracker.apply_fire_credit now k ws b tr
  end.

Definition run (ops : list op) (tr : MasteryTracker.t) : MasteryTracker.t :=
  foldl step tr ops.

(** Every weight handed to [apply_fire_credit] is non-negative. *)
Definition nonneg_weights (o : op) : Prop :=
  match o with
  | Practice _ _ _ _ _ => True
  | FireCredit _ _ ws _ => Forall (λ kw, 0 <= kw.2)%R ws
  end.

Definition in_range (r : MasteryRecord.t) : Prop :=
  (0.5 <= MasteryRecord.stability r <= 10)%R.

(** The item [get_due_reviews] builds for a record that was never
reviewed. *)
Definition unreviewed_item (record : MasteryRecord.t) : ReviewItem.t :=
  {| ReviewItem.topic_id := MasteryRecord.topic_id record;
     ReviewItem.retention := 0.0;
     ReviewItem.priority :=
       Ebbinghaus.get_review_priority
         0.0
         (1 + IZR (MasteryLevel.value (MasteryRecord.level record)) * 0.2)
         0;
     ReviewItem.days_since_review := 0;
     ReviewItem.optimal_review_date := None;
     ReviewItem.mastery_level :=
       MasteryLevel.name_lower (MasteryRecord.level record) |}.

(** ** Practice sequences *)

(** The practices of topic [k] among [ops], oldest first: the score and
the time spent of each. *)
Definition practices (k : string) (ops : list op) : list (R * Z) :=
  omap (λ o, match o with
             | Practice _ k' s _ ts =>
               if decide (k' = k) then Some (s, ts) else None
             | FireCredit _ _ _ _ => None
             end) ops.

(** The level after a practice with score [s] at level [L]. *)
Definition next_level (L : MasteryLevel.t) (s : R) : MasteryLevel.t :=
  match MasteryLevel.from_score s L with Ok L' => L' | Raise _ => L end.

Definition sum_R (l : list R) : R := foldr Rplus 0%R l.
Definition sum_Z (l : list Z) : Z := foldr Z.add 0%Z l.
Arguments sum_R : simpl never.
Arguments sum_Z : simpl never.

(** What the record of a topic holds after the practices [ps]. *)
Record tracked (k : string) (ps : list (R * Z)) (r : MasteryRecord.t)
  : Prop := {
  tk_id : MasteryRecord.topic_id r = k;
  tk_count : MasteryRecord.practice_count r = Z.of_nat (length ps);
  tk_time : MasteryRecord.total_time_seconds r = sum_Z ps.*2;
  tk_mean : (MasteryRecord.average_score r * INR (length ps)
             = sum_R ps.*1)%R;
  tk_history :
    PracticeEvent.score <$> MasteryRecord.history r
    = drop (length ps - 50) ps.*1;
  tk_level :
    MasteryRecord.level r = foldl next_level MasteryLevel.UNKNOWN ps.*1;
  tk_fresh : ps = [] → r = MasteryRecord.fresh k;
  tk_reviewed :
    ps ≠ [] → is_Some (MasteryRecord.last_review r)
              ∧ is_Some (MasteryRecord.last_practiced r)
}.

(** The retention [get_due_reviews] computes for a record. *)
Definition scheduler_retention (now : R) (record : MasteryRecord.t)
  : outcome R :=
  match MasteryRecord.last_review record with
  | Some last_review =>
    Ebbinghaus.calculate_retention (now - last_review)
                                   (MasteryRecord.stability record)
  | None => Returned 0.0%R
  end.

(** What a real number that is not negative is as a float when it is below
half the smallest positive float: 0.0. *)
Definition flush (x : R) : R := if Rlt_dec x DBL_TINY then 0%R else x.

(** At the clock reading [now], [math.exp] overflows in the retention of
[record]: its stability is positive and its last review lies so far ahead
of the clock that the exponential of [-days_elapsed / stability], itself
a float, is above the largest float. *)
Definition overflows (now : R) (record : MasteryRecord.t) : Prop :=
  ∃ last_review,
    MasteryRecord.last_review record = Some last_review
    ∧ (0 < MasteryRecord.stability record)%R
    ∧ (- (now - last_review) / MasteryRecord.stability record <= DBL_MAX)%R
    ∧ (DBL_MAX
       < exp (- (now - last_review) / MasteryRecord.stability record))%R.

(** At the clock readings [now], [math.exp] overflows for no learned
record of the tracker. *)
Definition no_overflow (now : string → R) (tr : MasteryTracker.t) : Prop :=
  ∀ k r,
    MasteryTracker.records tr !! k = Some r →
    MasteryRecord.level r ≠ MasteryLevel.UNKNOWN →
    ¬ overflows (now k) r.

(** One iteration order of a dict: that of [map_to_list]. *)
Definition map_order : DictOrder :=
  {| dict_iter := λ A, map_to_list;
     dict_iter_perm := λ A m, reflexivity (map_to_list m) |}.

(** The calls on the tracker that a [complete_review] amounts to. *)
Definition review_ops (clock : ReviewScheduler.Clock) (topic_id : string)
    (score : R) (fire_weights : option (list (string * R))) : list op :=
  Practice (ReviewScheduler.at_practice clock) topic_id score "" 0
  :: match fire_weights with
     | Some ((_ :: _) as weights) =>
       if Rge_dec score 0.5 then
         [FireCredit (ReviewScheduler.at_credit clock) topic_id weights score]
       else []
     | _ => []
     end.

(** ** Study sessions *)

(** A call on a session, and a sequence of calls run in order. *)
Inductive session_op : Type :=
| AddTask (hex topic_id problem_type difficulty : string)
| StartTask (now : R) (task_id : string)
| CompleteTask (now : R) (task_id : string) (score : R)
| SkipTask (task_id : string)
| Pause (now : R)
| Resume (now : R).

Definition session_step (s : StudySession.t) (o : session_op)
  : StudySession.t :=
  match o with
  | AddTask hex topic_id problem_type difficulty =>
    (StudySession.add_task hex topic_id problem_type difficulty s).1
  | StartTask now task_id => (StudySession.start_task now task_id s).1
  | CompleteTask now task_id score =>
    (StudySession.complete_task now task_id score s).1
  | SkipTask task_id => (StudySession.skip_task task_id s).1
  | Pause now => StudySession.pause now s
  | Resume now => StudySession.resume now s
  end.

Definition session_run (ops : list session_op) (s : StudySession.t)
  : StudySession.t :=
  foldl session_step s ops.

(** The scores of the [complete_task] calls among [ops] that find their
    task, [ids] being the ids of the tasks that exist before [ops]. *)
Fixpoint completions (ids : list string) (ops : list session_op) : list R :=
  match ops with
  | [] => []
  | AddTask hex _ _ _ :: ops' => completions (ids ++ ["task-" +:+ hex]) ops'
  | CompleteTask _ task_id score :: ops' =>
    if decide (task_id ∈ ids) then score :: completions ids ops'
    else completions ids ops'
  | _ :: ops' => completions ids ops'
  end.

(** The tasks that have a score. *)
Definition scored (tasks : list PracticeTask.t) : list PracticeTask.t :=
  filter (λ task, is_Some (PracticeTask.score task)) tasks.

(** ** Stored graphs *)

(** No key of an adjacency dict holds the empty set: [add_prerequisite]
creates a key only to put an id under it. *)
Definition compact (adj : gmap string (gset string)) : Prop :=
  ∀ k s, adj !! k = Some s → s ≠ ∅.

(** ** Concrete inputs *)

(** One enumeration order: that of [elements]. *)
Definition elements_order : SetOrder :=
  {| set_iter := elements; set_iter_perm := λ X, reflexivity (elements X) |}.

Definition topic (id : string) : Topic.t :=
  Topic.mk id id "math" "" 0.5 1.0 [] [] [] None None.

Definition add_topics (ids : list string) (g : KnowledgeGraph.t)
  : KnowledgeGraph.t :=
  foldl (λ g id, KnowledgeGraph.add_topic (topic id) g) g ids.

(** [edges] are pairs (topic, prerequisite), added in order. *)
Definition add_edges (edges : list (string * string)) (g : KnowledgeGraph.t)
  : KnowledgeGraph.t :=
  foldl (λ g e,
           (KnowledgeGraph.add_prerequisite (SO := elements_order)
                                            e.1 e.2 g).1)
        g edges.

(** Topics A, B, C without edges. *)
Definition abc_topics : KnowledgeGraph.t :=
  add_topics ["A"; "B"; "C"] KnowledgeGraph.empty.

(** A is a prerequisite of B, and B of C. *)
Definition abc_chain : KnowledgeGraph.t :=
  add_edges [("B", "A"); ("C", "B")] abc_topics.

(** The chain T <- P1 <- P2 <- P3 <- P4 <- P5. *)
Definition fire_chain : KnowledgeGraph.t :=
  add_edges [("T", "P1"); ("P1", "P2"); ("P2", "P3"); ("P3", "P4");
             ("P4", "P5")]
            (add_topics ["T"; "P1"; "P2"; "P3"; "P4"; "P5"]
                        KnowledgeGraph.empty).

(** A record at level Introduced that was never reviewed, alone in a
tracker, and a scheduler with the default target retention. *)
Definition unreviewed_record : MasteryRecord.t :=
  MasteryRecord.mk "p" MasteryLevel.INTRODUCED None 0 0 0 [] 1 None.

Definition unreviewed_scheduler : ReviewScheduler.t :=
  ReviewScheduler.new (MasteryTracker.mk {[ "p" := unreviewed_record ]}) 0.85.

(** * Properties *)

(** ** Python helpers *)

Section Helpers.
Local Open Scope R_scope.

Lemma py_min_Rmin a b : py_min a b = Rmin a b.
Proof. unfold py_min, Rmin. destruct (Rlt_dec b a), (Rle_dec a b); lra. Qed.

Lemma py_max_Rmax a b : py_max a b = Rmax a b.
Proof. unfold py_max, Rmax. destruct (Rgt_dec b a), (Rle_dec a b); lra. Qed.

End Helpers.

Lemma py_take_all {A} (n : Z) (l : list A) :
  (Z.of_nat (length l) ≤ n)%Z → py_take n l = l.
Proof.
  intros H. unfold py_take. case_decide; [|lia].
  apply firstn_all2. lia.
Qed.

Lemma filter_ext_in {A} (P1 P2 : A → Prop)
    `{!∀ a, Decision (P1 a), !∀ a, Decision (P2 a)} (l : list A) :
  (∀ a, a ∈ l → P1 a ↔ P2 a) → filter P1 l = filter P2 l.
Proof.
  induction l as [|a l IH]; intros Hl; [done|].
  rewrite !filter_cons, IH by (intros; apply Hl; by right).
  apply decide_ext, Hl. left.
Qed.

(** Removing one element [c] from a duplicate-free list lowers the count of
the elements satisfying [P] by one exactly when [c] is in the list and
satisfies [P]. *)
Lemma count_remove {A} `{EqDecision A} (P : A → Prop)
    `{!∀ a, Decision (P a)} (c : A) (l : list A) :
  NoDup l →
  length (filter (λ a, P a ∧ a ≠ c) l)
  + (if decide (c ∈ l ∧ P c) then 1 else 0)
  = length (filter P l).
Proof.
  induction l as [|a l IH]; intros Hnd.
  { rewrite decide_False; [done|]. intros [?%elem_of_nil _]. done. }
  apply NoDup_cons in Hnd as [Ha Hnd]. specialize (IH Hnd).
  rewrite !filter_cons.
  destruct (decide (a = c)) as [->|Hne].
  - rewrite (decide_False (P := P c ∧ c ≠ c)) by naive_solver.
    rewrite (decide_False (P := c ∈ l ∧ P c)) in IH by naive_solver.
    destruct (decide (P c)).
    + rewrite decide_True by (split; [left|done]). simpl. lia.
    + rewrite decide_False by naive_solver. lia.
  - assert (c ∈ a :: l ∧ P c ↔ c ∈ l ∧ P c) as Hiff.
    { rewrite elem_of_cons. naive_solver. }
    rewrite (decide_ext _ _ _ _ Hiff).
    destruct (decide (P a)).
    + rewrite decide_True by done. simpl. lia.
    + rewrite decide_False by naive_solver. lia.
Qed.

(** ** Sorting and dict iteration *)

Section Sorting.
Context {A : Type} (before : relation A) `{!∀ x y, Decision (before x y)}.

Lemma py_insert_Permutation (x : A) (l : list A) :
  py_insert before x l ≡ₚ x :: l.
Proof.
  induction l as [|y l IH]; [done|]. cbn [py_insert].
  case_decide; [done|]. rewrite IH. apply Permutation_swap.
Qed.

Lemma py_sorted_Permutation (l : list A) : py_sorted before l ≡ₚ l.
Proof.
  unfold py_sorted. induction l as [|x l IH]; [done|].
  cbn [foldr]. by rewrite py_insert_Permutation, IH.
Qed.

Lemma py_sorted_length (l : list A) :
  length (py_sorted before l) = length l.
Proof. by rewrite py_sorted_Permutation. Qed.

Lemma StronglySorted_py_insert `{!Transitive before, !Total before}
    (x : A) (l : list A) :
  StronglySorted before l → StronglySorted before (py_insert before x l).
Proof.
  induction 1 as [|y l Hl IH Hy]; cbn [py_insert].
  { repeat constructor. }
  case_decide as Hxy.
  - constructor; [by constructor|]. constructor; [done|].
    eapply Forall_impl; [done|]. intros z Hz. by trans y.
  - constructor; [done|].
    rewrite py_insert_Permutation. constructor; [|done].
    by destruct (total before x y).
Qed.

Lemma StronglySorted_py_sorted `{!Transitive before, !Total before}
    (l : list A) :
  StronglySorted before (py_sorted before l).
Proof.
  unfold py_sorted. induction l as [|x l IH]; [constructor|].
  cbn [foldr]. by apply StronglySorted_py_insert.
Qed.

End Sorting.

Section DictIteration.
Context {DO : DictOrder} {A : Type}.

Lemma elem_of_dict_iter (m : gmap string A) (k : string) (v : A) :
  (k, v) ∈ dict_iter m ↔ m !! k = Some v.
Proof. by rewrite dict_iter_perm, elem_of_map_to_list. Qed.

Lemma NoDup_fst_dict_iter (m : gmap string A) : NoDup (dict_iter m).*1.
Proof. rewrite dict_iter_perm. apply NoDup_fst_map_to_list. Qed.

Lemma length_dict_iter (m : gmap string A) : length (dict_iter m) = size m.
Proof. by rewrite dict_iter_perm, length_map_to_list. Qed.

Lemma dict_iter_empty : dict_iter (∅ : gmap string A) = [].
Proof.
  apply Permutation_nil_r. by rewrite dict_iter_perm, map_to_list_empty.
Qed.

Lemma dict_iter_singleton (k : string) (v : A) :
  dict_iter ({[k := v]} : gmap string A) = [(k, v)].
Proof.
  apply Permutation_singleton_r.
  by rewrite dict_iter_perm, map_to_list_singleton.
Qed.

End DictIteration.

(** ** The range of floats and [math.exp] *)

Section FloatRange.
Local Open Scope R_scope.

Lemma DBL_MAX_ge_1 : 1 <= DBL_MAX.
Proof.
  unfold DBL_MAX.
  assert (1 <= 2 ^ 1023) by (apply pow_R1_Rle; lra).
  assert (0 < / 2 ^ 52 <= / 2).
  { split; [apply Rinv_0_lt_compat, pow_lt; lra|].
    apply Rinv_le_contravar; [lra|].
    change 52%nat with (1 + 51)%nat. rewrite pow_add.
    assert (1 <= 2 ^ 51) by (apply pow_R1_Rle; lra). nra. }
  nra.
Qed.

Lemma DBL_MAX_lt_pow : DBL_MAX < 2 ^ 1024.
Proof.
  unfold DBL_MAX. change 1024%nat with (1 + 1023)%nat. rewrite pow_add.
  assert (0 < 2 ^ 1023) by (apply pow_lt; lra).
  assert (0 < / 2 ^ 52) by (apply Rinv_0_lt_compat, pow_lt; lra).
  nra.
Qed.

Lemma DBL_TINY_pos : 0 < DBL_TINY.
Proof. unfold DBL_TINY. apply Rinv_0_lt_compat, pow_lt. lra. Qed.

Lemma DBL_TINY_lt_1 : DBL_TINY < 1.
Proof.
  unfold DBL_TINY. rewrite <- Rinv_1.
  apply Rinv_lt_contravar; [|apply Rlt_pow_R1; [lra|lia]].
  rewrite Rmult_1_l. apply pow_lt. lra.
Qed.

Lemma DBL_TINY_lt_MIN : DBL_TINY < DBL_MIN.
Proof.
  unfold DBL_TINY, DBL_MIN. apply Rinv_lt_contravar.
  - apply Rmult_lt_0_compat; apply pow_lt; lra.
  - apply Rlt_pow; [lra|]. apply Nat.ltb_lt. reflexivity.
Qed.

Lemma exp_le_1 x : x <= 0 → exp x <= 1.
Proof.
  intros [Hx| ->]; [|rewrite exp_0; lra].
  left. rewrite <- exp_0. by apply exp_increasing.
Qed.

Lemma exp_ge_1 x : 0 <= x → 1 <= exp x.
Proof.
  intros [Hx| <-]; [|rewrite exp_0; lra].
  left. rewrite <- exp_0. by apply exp_increasing.
Qed.

Lemma exp_nat (n : nat) (x : R) : exp (INR n * x) = exp x ^ n.
Proof.
  induction n as [|n IH].
  - simpl. rewrite Rmult_0_l. apply exp_0.
  - rewrite S_INR, Rmult_plus_distr_r, Rmult_1_l, exp_plus, IH. simpl. ring.
Qed.

Lemma pow_2_le_exp (n : nat) : 2 ^ n <= exp (INR n).
Proof.
  rewrite <- (Rmult_1_r (INR n)), exp_nat.
  assert (2 < exp 1) by (pose proof (exp_ineq1 1); lra).
  apply pow_incr. lra.
Qed.

(** [math.exp] of an argument that is not positive returns the
exponential, or 0.0 once that is below the range. *)
Lemma py_exp_nonpos x :
  x <= 0 → py_exp x = Returned (Num (if Rlt_dec (exp x) DBL_TINY then 0 else exp x)).
Proof.
  intros Hx. unfold py_exp.
  pose proof DBL_MAX_ge_1. pose proof (exp_le_1 x Hx).
  destruct (Rlt_dec DBL_MAX x); [lra|].
  destruct (Rlt_dec DBL_MAX (exp x)); [lra|].
  by destruct (Rlt_dec (exp x) DBL_TINY).
Qed.

(** What the clamp makes of a result of [math.exp]. *)
Lemma clamp_num x :
  0 <= x → py_max 0.0 (py_min_exp 1.0 (Num x)) = Rmin 1 x.
Proof.
  intros Hx. unfold py_max, py_min_exp, py_min, Rmin.
  destruct (Rlt_dec x 1.0), (Rle_dec 1 x); try lra;
    destruct (Rgt_dec _ 0.0); lra.
Qed.

Lemma clamp_inf : py_max 0.0 (py_min_exp 1.0 PosInf) = 1.
Proof. unfold py_max, py_min_exp. destruct (Rgt_dec 1.0 0.0); lra. Qed.

End FloatRange.

(** ** Mastery levels *)

Section Levels.
Local Open Scope R_scope.

Lemma of_value_value l : MasteryLevel.of_value (MasteryLevel.value l) = Ok l.
Proof. by destruct l. Qed.

(** [from_score] never raises: the integer it hands to [MasteryLevel] is
always one of the six values. *)
Lemma from_score_total (s : R) (L : MasteryLevel.t) :
  ∃ L', MasteryLevel.from_score s L = Ok L'.
Proof.
  unfold MasteryLevel.from_score.
  repeat destruct (Rge_dec _ _); destruct (Rlt_dec s 0.3);
    destruct L; simpl; eauto.
Qed.

(** From Unknown, any score at or above 0.30 promotes to Introduced only. *)
Lemma from_score_unknown (s : R) :
  s >= 0.30 →
  MasteryLevel.from_score s MasteryLevel.UNKNOWN = Ok MasteryLevel.INTRODUCED.
Proof.
  intros Hs. unfold MasteryLevel.from_score.
  destruct (Rge_dec s 0.95), (Rge_dec s 0.80), (Rge_dec s 0.60),
    (Rge_dec s 0.30); try lra; reflexivity.
Qed.

(** C3. For every score [s] and every level [L], [from_score s L] returns a
level (it never raises) whose rank differs from that of [L] by at most
one. *)
Theorem from_score_one_rank (s : R) (L : MasteryLevel.t) :
  ∃ L', MasteryLevel.from_score s L = Ok L' ∧
        (Z.abs (MasteryLevel.value L' - MasteryLevel.value L) ≤ 1)%Z.
Proof.
  unfold MasteryLevel.from_score.
  destruct (Rge_dec s 0.95), (Rge_dec s 0.80), (Rge_dec s 0.60),
    (Rge_dec s 0.30), (Rlt_dec s 0.3); try lra;
  destruct L; simpl; eexists; (split; [reflexivity | simpl; lia]).
Qed.

End Levels.

(** ** The knowledge graph: breadth-first traversals *)

Section Graph.
Context {SO : SetOrder}.
Import KnowledgeGraph.
Implicit Types (g : KnowledgeGraph.t) (x y : string) (V : gset string).

Lemma elem_of_set_iter (X : gset string) x : x ∈ set_iter X ↔ x ∈ X.
Proof. rewrite set_iter_perm. apply elem_of_elements. Qed.

Lemma NoDup_set_iter (X : gset string) : NoDup (set_iter X).
Proof. rewrite set_iter_perm. apply NoDup_elements. Qed.

Lemma length_set_iter (X : gset string) : length (set_iter X) = size X.
Proof. by rewrite set_iter_perm. Qed.

Lemma set_iter_singleton x : set_iter {[x]} = [x].
Proof.
  apply Permutation_singleton_r. rewrite set_iter_perm.
  by rewrite elements_singleton.
Qed.

(** *** The iteration budget of the breadth-first loops *)

Lemma pending_visit (adj : gmap string (gset string)) V x :
  x ∉ V →
  pending adj ({[x]} ∪ V) + size (default ∅ (adj !! x)) = pending adj V.
Proof.
  intros Hx. unfold pending.
  destruct (adj !! x) as [s|] eqn:E; cbn [default].
  - assert (dom adj ∖ V = {[x]} ∪ dom adj ∖ ({[x]} ∪ V)) as ->.
    { apply set_eq. intros y. rewrite !elem_of_union, !elem_of_difference,
        elem_of_union, elem_of_singleton.
      split.
      - intros [Hy HV]. destruct (decide (y = x)); [by left|right]. tauto.
      - intros [->|[Hy HV]]; [|tauto].
        split; [|done]. apply elem_of_dom. eauto. }
    rewrite (elements_union_singleton (dom adj ∖ ({[x]} ∪ V)) x)
      by set_solver.
    simpl. rewrite E. simpl. lia.
  - assert (dom adj ∖ ({[x]} ∪ V) = dom adj ∖ V) as ->.
    2: { change (size (∅ : gset string)) with 0. lia. }
    apply not_elem_of_dom in E. set_solver.
Qed.

Lemma cycle_loop_fuel fuel g prereq_id V queue :
  length queue + pending (dependents g) V < fuel →
  is_Some (cycle_loop fuel g prereq_id V queue).
Proof.
  revert V queue. induction fuel as [|fuel IH]; intros V queue Hm; [lia|].
  destruct queue as [|x queue]; simpl; [eauto|].
  case_decide; [eauto|]. case_decide.
  - apply IH. simpl in Hm. lia.
  - apply IH. rewrite length_app, length_set_iter.
    pose proof (pending_visit (dependents g) V x ltac:(done)) as Hp.
    unfold dependents_of. simpl in Hm. lia.
Qed.

Lemma closure_loop_fuel fuel g V queue :
  length queue + pending (prerequisites g) V < fuel →
  is_Some (closure_loop fuel g V queue).
Proof.
  revert V queue. induction fuel as [|fuel IH]; intros V queue Hm; [lia|].
  destruct queue as [|x queue]; simpl; [eauto|].
  case_decide.
  - apply IH. simpl in Hm. lia.
  - apply IH. rewrite length_app, length_set_iter.
    pose proof (pending_visit (prerequisites g) V x ltac:(done)) as Hp.
    unfold prereqs_of. simpl in Hm. lia.
Qed.

(** *** [_would_create_cycle] decides reachability along dependents *)

Lemma rtc_reach_avoid g x p : rtc (dep_edge g) x p → reach_avoid g p ∅ x.
Proof.
  induction 1 as [|x y z Hxy _ IH]; [constructor|].
  eapply reach_step; [set_solver|exact Hxy|exact IH].
Qed.

Lemma reach_avoid_visit g p V c x :
  c ≠ p → reach_avoid g p V x →
  reach_avoid g p ({[c]} ∪ V) x
  ∨ ∃ y, dep_edge g c y ∧ reach_avoid g p ({[c]} ∪ V) y.
Proof.
  intros Hc. induction 1 as [|x y Hx Hxy Hy IH]; [left; constructor|].
  destruct IH as [IH|IH]; [|by right].
  destruct (decide (x = c)) as [->|Hne].
  - right. eauto.
  - left. eapply reach_step; [set_solver|exact Hxy|exact IH].
Qed.

Lemma cycle_loop_complete fuel g p V queue :
  (∃ x, x ∈ queue ∧ reach_avoid g p V x) →
  length queue + pending (dependents g) V < fuel →
  cycle_loop fuel g p V queue = Some true.
Proof.
  revert V queue. induction fuel as [|fuel IH]; intros V queue Hw Hm; [lia|].
  destruct Hw as (x & Hx & Hr).
  destruct queue as [|c queue]; [by apply elem_of_nil in Hx|]. simpl.
  case_decide as Hcp; [done|]. case_decide as HcV.
  - apply IH; [|simpl in Hm; lia].
    exists x. split; [|done].
    apply elem_of_cons in Hx as [->|Hx]; [|done].
    inversion Hr; subst; done.
  - pose proof (pending_visit (dependents g) V c HcV) as Hp.
    apply IH.
    + destruct (reach_avoid_visit g p V c x Hcp Hr) as [Hr'|(y & Hcy & Hr')].
      * exists x. split; [|done].
        apply elem_of_cons in Hx as [->|Hx]; [|apply elem_of_app; by left].
        inversion Hr'; subst; [done|set_solver].
      * exists y. split; [|done].
        apply elem_of_app. right. by apply elem_of_set_iter.
    + rewrite length_app, length_set_iter.
      unfold dependents_of. simpl in Hm. lia.
Qed.

Lemma cycle_loop_sound fuel g p V queue :
  cycle_loop fuel g p V queue = Some true →
  ∃ x, x ∈ queue ∧ rtc (dep_edge g) x p.
Proof.
  revert V queue. induction fuel as [|fuel IH]; intros V queue; [done|].
  destruct queue as [|c queue]; simpl; [done|].
  case_decide as Hcp.
  - intros _. exists c. subst. split; [left|done].
  - case_decide.
    + intros (x & Hx & Hr)%IH. exists x. split; [by right|done].
    + intros (x & Hx & Hr)%IH.
      apply elem_of_app in Hx as [Hx|Hx].
      * exists x. split; [by right|done].
      * exists c. split; [left|].
        eapply rtc_l; [|exact Hr]. by apply elem_of_set_iter in Hx.
Qed.

Lemma would_create_cycle_spec g topic_id prereq_id :
  _would_create_cycle g topic_id prereq_id = true
  ↔ rtc (dep_edge g) topic_id prereq_id.
Proof.
  unfold _would_create_cycle. split.
  - destruct (cycle_loop _ _ _ _ _) as [[]|] eqn:E; try done.
    intros _. apply cycle_loop_sound in E as (x & Hx & Hr).
    by apply list_elem_of_singleton in Hx as ->.
  - intros Hr. rewrite (cycle_loop_complete _ g prereq_id ∅ [topic_id]).
    + done.
    + exists topic_id. split; [left|]. by apply rtc_reach_avoid.
    + unfold bfs_fuel. lia.
Qed.

(** *** [add_prerequisite] *)

Lemma adj_add_lookup (d : gmap string (gset string)) k x k' y :
  y ∈ default ∅ (adj_add d k x !! k')
  ↔ (k' = k ∧ y = x) ∨ y ∈ default ∅ (d !! k').
Proof.
  unfold adj_add. destruct (decide (k' = k)) as [->|Hne].
  - rewrite lookup_insert_eq. simpl. set_solver.
  - rewrite lookup_insert_ne by done. naive_solver.
Qed.

Lemma add_prerequisite_Ok topic_id prereq_id g g' :
  add_prerequisite topic_id prereq_id g = (g', Ok ()) →
  topic_id ∈ dom (topics g) ∧ prereq_id ∈ dom (topics g)
  ∧ ¬ rtc (dep_edge g) topic_id prereq_id
  ∧ topics g' = topics g
  ∧ prerequisites g' = adj_add (prerequisites g) topic_id prereq_id
  ∧ dependents g' = adj_add (dependents g) prereq_id topic_id.
Proof.
  unfold add_prerequisite.
  case_decide as Ht; [done|]. case_decide as Hp; [done|].
  destruct (_would_create_cycle g topic_id prereq_id) eqn:E; [done|].
  intros [= <-]. simpl.
  split; [done|]. split; [done|].
  split; [|done]. rewrite <- would_create_cycle_spec. congruence.
Qed.

(** C1. For topics A, B, C registered in the graph: when
[add_prerequisite B A] and then [add_prerequisite C B] succeed, a following
[add_prerequisite A C] raises [CycleDetected], and the graph after the
rejected call is the graph before it, so its [prerequisites] and
[dependents] maps are the same. *)
Theorem add_prerequisite_rejects_cycle (g g1 g2 : KnowledgeGraph.t)
    (A B C : string) :
  A ∈ dom (topics g) → B ∈ dom (topics g) → C ∈ dom (topics g) →
  add_prerequisite B A g = (g1, Ok ()) →
  add_prerequisite C B g1 = (g2, Ok ()) →
  ∃ g3,
    add_prerequisite A C g2 = (g3, Raise (CycleDetected C A))
    ∧ prerequisites g3 = prerequisites g2
    ∧ dependents g3 = dependents g2
    ∧ g3 = g2.
Proof.
  intros HA HB HC H1 H2.
  apply add_prerequisite_Ok in H1 as (_ & _ & _ & Ht1 & _ & Hd1).
  apply add_prerequisite_Ok in H2 as (_ & _ & _ & Ht2 & _ & Hd2).
  exists g2. split; [|done].
  unfold add_prerequisite. rewrite Ht2, Ht1.
  case_decide as HA'; [done|]. case_decide as HC'; [done|].
  assert (_would_create_cycle g2 A C = true) as ->; [|done].
  apply would_create_cycle_spec.
  apply rtc_l with B; [|apply rtc_once].
  - unfold dep_edge, dependents_of. rewrite Hd2.
    apply adj_add_lookup. right. rewrite Hd1.
    apply adj_add_lookup. by left.
  - unfold dep_edge, dependents_of. rewrite Hd2.
    apply adj_add_lookup. by left.
Qed.

End Graph.

(** ** [get_all_prerequisites] is the transitive closure *)

Section Closure.
Context {SO : SetOrder}.
Import KnowledgeGraph.
Implicit Types (g : KnowledgeGraph.t) (x y : string) (V : gset string).

Lemma closure_loop_spec fuel g V queue (R : gset string) :
  closure_loop fuel g V queue = Some R →
  V ⊆ R
  ∧ (∀ x, x ∈ queue → x ∈ R)
  ∧ (∀ x, x ∈ R → x ∈ V ∨ ∃ q, q ∈ queue ∧ rtc (prereq_edge g) q x)
  ∧ (∀ x y, x ∈ R → x ∉ V → prereq_edge g x y → y ∈ R).
Proof.
  revert V queue. induction fuel as [|fuel IH]; intros V queue; [done|].
  destruct queue as [|c queue]; simpl.
  - intros [= <-]. split; [done|]. split; [by intros x ?%elem_of_nil|].
    split; [by left|]. done.
  - case_decide as Hc.
    + intros (HV & HQ & Hs & Hcl)%IH. split; [done|]. split; [|split].
      * intros x [->|Hx]%elem_of_cons; [by apply HV|by apply HQ].
      * intros x Hx. destruct (Hs x Hx) as [?|(q & Hq & Hr)]; [by left|].
        right. exists q. split; [by right|done].
      * done.
    + intros (HV & HQ & Hs & Hcl)%IH. split; [set_solver|]. split; [|split].
      * intros x [->|Hx]%elem_of_cons; [set_solver|].
        apply HQ, elem_of_app. by left.
      * intros x Hx. destruct (Hs x Hx) as [Hx'|(q & Hq & Hr)].
        -- apply elem_of_union in Hx' as [->%elem_of_singleton|?];
             [|by left].
           right. exists c. split; [left|done].
        -- right. apply elem_of_app in Hq as [Hq|Hq].
           ++ exists q. split; [by right|done].
           ++ exists c. split; [left|].
              eapply rtc_l; [|exact Hr]. by apply elem_of_set_iter in Hq.
      * intros x y Hx HxV Hxy. destruct (decide (x = c)) as [->|Hne].
        -- apply HQ, elem_of_app. right. by apply elem_of_set_iter.
        -- apply (Hcl x y); [done|set_solver|done].
Qed.

Lemma all_prereq_ids_spec g topic_id x :
  x ∈ all_prereq_ids g topic_id ↔ tc (prereq_edge g) topic_id x.
Proof.
  unfold all_prereq_ids.
  destruct (closure_loop_fuel
              (bfs_fuel (prerequisites g) (set_iter (prereqs_of g topic_id)))
              g ∅ (set_iter (prereqs_of g topic_id)))
    as [R HR]; [unfold bfs_fuel; lia|].
  rewrite HR. apply closure_loop_spec in HR as (_ & HQ & Hs & Hcl).
  split.
  - intros Hx. destruct (Hs x Hx) as [?|(q & Hq & Hr)]; [set_solver|].
    apply elem_of_set_iter in Hq.
    eapply tc_rtc_r; [|exact Hr]. by apply tc_once.
  - intros Ht.
    assert (∃ q, prereq_edge g topic_id q ∧ rtc (prereq_edge g) q x)
      as (q & Hq & Hr).
    { destruct Ht as [? ? Hxy|? y ? Hxy Hyz]; [by eauto using rtc_refl|].
      exists y. split; [done|]. by apply tc_rtc. }
    assert (q ∈ R) as HqR by (by apply HQ, elem_of_set_iter).
    clear Hq Ht. induction Hr as [|a b c Hab _ IH]; [done|].
    apply IH. apply (Hcl a b); [done|set_solver|done].
Qed.

Lemma ids_get_all_prerequisites g topic_id :
  well_formed g →
  ∀ x, x ∈ Topic.id <$> get_all_prerequisites g topic_id
       ↔ x ∈ all_prereq_ids g topic_id.
Proof.
  intros Hwf x. unfold get_all_prerequisites.
  rewrite list_elem_of_fmap. split.
  - intros (t & -> & (pid & Hpid & Ht)%list_elem_of_omap).
    apply elem_of_set_iter in Hpid. by rewrite (wf_ids g Hwf pid t Ht).
  - intros Hx.
    assert (x ∈ dom (topics g)) as [t Ht]%elem_of_dom.
    { apply all_prereq_ids_spec in Hx.
      apply tc_rtc_r with (z := x) in Hx; [|done].
      clear -Hx Hwf. induction Hx as [a b Hab|a b c Hab _ IH]; [|done].
      by apply (wf_registered g Hwf a b). }
    exists t. split; [by rewrite (wf_ids g Hwf x t Ht)|].
    apply list_elem_of_omap. exists x. split; [|done].
    by apply elem_of_set_iter.
Qed.

(** C4. In a well-formed acyclic graph, the ids of the topics returned by
[get_all_prerequisites T] are exactly the ids related to [T] by the
transitive closure of the direct-prerequisite relation (the least relation
that contains it and is transitive), and [T] is not among them. *)
Theorem get_all_prerequisites_closure (g : KnowledgeGraph.t)
    (T : string) :
  well_formed g → acyclic g →
  (∀ x, x ∈ Topic.id <$> get_all_prerequisites g T
        ↔ tc (prereq_edge g) T x)
  ∧ T ∉ Topic.id <$> get_all_prerequisites g T.
Proof.
  intros Hwf Hac.
  assert (∀ x, x ∈ Topic.id <$> get_all_prerequisites g T
               ↔ tc (prereq_edge g) T x) as Hspec.
  { intros x. rewrite ids_get_all_prerequisites by done.
    apply all_prereq_ids_spec. }
  split; [done|]. rewrite Hspec. apply Hac.
Qed.

End Closure.

(** ** The graphs the code builds are well-formed and acyclic *)

Section Built.
Context {SO : SetOrder}.
Import KnowledgeGraph.
Implicit Types (g : KnowledgeGraph.t) (x y : string).

Lemma well_formed_empty : well_formed KnowledgeGraph.empty.
Proof.
  split.
  - intros k t Hk. simpl in Hk. by rewrite lookup_empty in Hk.
  - intros x y Hxy. unfold prereq_edge, prereqs_of in Hxy. simpl in Hxy.
    rewrite lookup_empty in Hxy. by apply not_elem_of_empty in Hxy.
  - intros x y. unfold prereq_edge, dep_edge, prereqs_of, dependents_of.
    simpl. rewrite !lookup_empty. simpl. set_solver.
Qed.

Lemma acyclic_empty : acyclic KnowledgeGraph.empty.
Proof.
  intros x Hx. apply tc_rtc_r with (z := x) in Hx; [|done].
  destruct Hx as [a b Hab|a b c Hab _];
    unfold prereq_edge, prereqs_of in Hab; simpl in Hab;
    rewrite lookup_empty in Hab; by apply not_elem_of_empty in Hab.
Qed.

Lemma well_formed_add_topic topic g :
  well_formed g → well_formed (add_topic topic g).
Proof.
  intros [Hids Hreg Hmir]. split.
  - intros k t. simpl. destruct (decide (Topic.id topic = k)) as [<-|Hne].
    + rewrite lookup_insert_eq. by intros [= <-].
    + rewrite lookup_insert_ne by done. apply Hids.
  - intros x y Hxy. simpl. rewrite dom_insert.
    destruct (Hreg x y Hxy). set_solver.
  - exact Hmir.
Qed.

Lemma acyclic_add_topic topic g : acyclic g → acyclic (add_topic topic g).
Proof. intros Hac x. exact (Hac x). Qed.

Lemma rtc_mirror g x y :
  well_formed g → rtc (prereq_edge g) x y → rtc (dep_edge g) y x.
Proof.
  intros Hwf. induction 1 as [|a b c Hab _ IH]; [done|].
  eapply rtc_r; [exact IH|]. by apply (wf_mirror g Hwf).
Qed.

(** A path that may use one extra edge [t -> p] either avoids it, or
    reaches [t] before it and leaves [p] after it. *)
Lemma tc_extra_edge (R R' : relation string) t p x y :
  (∀ a b, R' a b → R a b ∨ (a = t ∧ b = p)) →
  tc R' x y → tc R x y ∨ (rtc R x t ∧ rtc R p y).
Proof.
  intros Hext. induction 1 as [a b Hab|a b c Hab _ IH].
  - destruct (Hext a b Hab) as [?|[-> ->]]; [left; by apply tc_once|by right].
  - destruct (Hext a b Hab) as [HR|[-> ->]].
    + destruct IH as [IH|[IH1 IH2]].
      * left. by eapply tc_l.
      * right. split; [by eapply rtc_l|done].
    + right. split; [done|]. destruct IH as [IH|[_ IH]]; [by apply tc_rtc|done].
Qed.

Lemma add_prerequisite_preserves topic_id prereq_id g :
  well_formed g → acyclic g →
  well_formed (add_prerequisite topic_id prereq_id g).1
  ∧ acyclic (add_prerequisite topic_id prereq_id g).1.
Proof.
  intros Hwf Hac.
  destruct (add_prerequisite topic_id prereq_id g) as [g' r] eqn:E.
  assert (g' = g ∨ r = Ok ()) as [-> | ->].
  { revert E. unfold add_prerequisite. repeat case_decide;
      try destruct (_would_create_cycle _ _ _); intros [= <- <-]; eauto. }
  { done. }
  apply add_prerequisite_Ok in E as (Ht & Hp & Hno & Htop & Hpre & Hdep).
  simpl.
  assert (∀ x y, prereq_edge g' x y
                 ↔ (x = topic_id ∧ y = prereq_id) ∨ prereq_edge g x y) as Hpe.
  { intros x y. unfold prereq_edge, prereqs_of. rewrite Hpre.
    apply adj_add_lookup. }
  assert (∀ x y, dep_edge g' x y
                 ↔ (x = prereq_id ∧ y = topic_id) ∨ dep_edge g x y) as Hde.
  { intros x y. unfold dep_edge, dependents_of. rewrite Hdep.
    apply adj_add_lookup. }
  split.
  - destruct Hwf as [Hids Hreg Hmir]. split.
    + intros k t. rewrite Htop. apply Hids.
    + intros x y [[-> ->]|Hxy]%Hpe; rewrite Htop; [done|by apply Hreg].
    + intros x y. rewrite Hpe, Hde, Hmir. naive_solver.
  - intros x Hx.
    destruct (tc_extra_edge (prereq_edge g) (prereq_edge g')
                            topic_id prereq_id x x) as [Hc|[Hxt Hpx]].
    + intros a b [?|?]%Hpe; [by right|by left].
    + done.
    + by apply (Hac x).
    + apply Hno. apply rtc_mirror; [done|]. by etrans.
Qed.

Lemma built_well_formed g : built g → well_formed g ∧ acyclic g.
Proof.
  induction 1 as [|topic g _ [Hwf Hac]|t p g _ [Hwf Hac]].
  - split; [apply well_formed_empty|apply acyclic_empty].
  - split; [by apply well_formed_add_topic|by apply acyclic_add_topic].
  - by apply add_prerequisite_preserves.
Qed.

End Built.

(** ** FIRe weights *)

Section Fire.
Context {SO : SetOrder}.
Import KnowledgeGraph.
Implicit Types (g : KnowledgeGraph.t) (x y : string) (V : gset string).
Local Open Scope R_scope.

Lemma fire_assign_lookup (weights : gmap string R) level w x :
  fire_assign weights level w !! x
  = match weights !! x with
    | Some v => Some v
    | None => if decide (x ∈ level) then Some w else None
    end.
Proof.
  unfold fire_assign.
  assert (∀ l (m : gmap string R),
    foldl (λ weights prereq_id,
             match weights !! prereq_id with
             | None => <[prereq_id := w]> weights
             | Some _ => weights
             end) m l !! x
    = match m !! x with
      | Some v => Some v
      | None => if decide (x ∈ l) then Some w else None
      end) as Hl.
  { induction l as [|a l IH]; intros m; cbn [foldl].
    - destruct (m !! x); [done|]. by rewrite decide_False by apply not_elem_of_nil.
    - rewrite IH. destruct (m !! a) eqn:Ea.
      + destruct (m !! x) eqn:Ex; [done|].
        assert (x ≠ a) by congruence.
        apply decide_ext. rewrite elem_of_cons. naive_solver.
      + destruct (decide (x = a)) as [->|Hne].
        * rewrite lookup_insert_eq, Ea.
          by rewrite decide_True by left.
        * rewrite lookup_insert_ne by done.
          destruct (m !! x); [done|].
          apply decide_ext. rewrite elem_of_cons. naive_solver. }
  rewrite Hl. destruct (weights !! x); [done|].
  apply decide_ext. apply elem_of_set_iter.
Qed.

Lemma fire_next_set_bind g level :
  fire_next g level = set_bind (prereqs_of g) level.
Proof.
  unfold fire_next.
  assert (∀ l (X : gset string) y,
    y ∈ foldl (λ next_level prereq_id, next_level ∪ prereqs_of g prereq_id)
              X l
    ↔ y ∈ X ∨ ∃ x, x ∈ l ∧ y ∈ prereqs_of g x) as Hl.
  { induction l as [|a l IH]; intros X y; simpl.
    - split; [by left|]. intros [?|(? & ?%elem_of_nil & _)]; done.
    - rewrite IH, elem_of_union. split.
      + intros [[?|?]|(x & ? & ?)]; [by left|right..].
        * exists a. split; [left|done].
        * exists x. split; [by right|done].
      + intros [?|(x & [->|?]%elem_of_cons & ?)]; [by left; left|by left; right|].
        right. by exists x. }
  apply set_eq. intros y. rewrite Hl, elem_of_set_bind.
  split.
  - intros [?%not_elem_of_empty|(x & ?%elem_of_set_iter & ?)]; [done|eauto].
  - intros (x & ? & ?). right. exists x. by rewrite elem_of_set_iter.
Qed.

Lemma layer_empty g k : layer g ∅ k = ∅.
Proof.
  induction k as [|k IH]; [done|]. simpl.
  assert (set_bind (prereqs_of g) (∅ : gset string) = (∅ : gset string)) as ->;
    [|done].
  apply set_eq. intros y. rewrite elem_of_set_bind. set_solver.
Qed.

(** The loop keeps the weights it has and gives every other id the weight
    of the first depth at which it is met. *)
Lemma fire_loop_lookup rounds g (weights : gmap string R) level w x v :
  fire_loop rounds g weights level w !! x = Some v
  ↔ weights !! x = Some v
    ∨ (weights !! x = None
       ∧ ∃ k, (k < rounds)%nat ∧ x ∈ layer g level k
              ∧ (∀ j, (j < k)%nat → x ∉ layer g level j)
              ∧ v = w * 0.5 ^ k).
Proof.
  revert weights level w. induction rounds as [|rounds IH];
    intros weights level w; simpl.
  { split; [by left|]. intros [?|(_ & k & ? & _)]; [done|lia]. }
  case_decide as Hempty.
  { subst level. split; [by left|].
    intros [?|(_ & k & _ & Hk & _)]; [done|].
    rewrite layer_empty in Hk. by apply not_elem_of_empty in Hk. }
  rewrite IH, fire_assign_lookup, fire_next_set_bind.
  destruct (weights !! x) as [v0|] eqn:Ex.
  { split; (intros [?|[? _]]; [by left|done]). }
  case_decide as Hx.
  - split.
    + intros [[= <-]|[? _]]; [|done]. right. split; [done|].
      exists 0%nat. split; [lia|]. split; [done|]. split; [lia|].
      simpl. lra.
    + intros [?|(_ & k & Hk & Hin & Hfirst & ->)]; [done|]. left.
      destruct k as [|k]; [f_equal; simpl; lra|].
      exfalso. apply (Hfirst 0%nat); [lia|done].
  - split.
    + intros [?|(_ & k & Hk & Hin & Hfirst & ->)]; [done|]. right.
      split; [done|]. exists (S k). split; [lia|]. split; [done|]. split.
      * intros [|j] Hj; [done|]. apply Hfirst. lia.
      * simpl. lra.
    + intros [?|(_ & k & Hk & Hin & Hfirst & ->)]; [done|]. right.
      split; [done|]. destruct k as [|k]; [done|].
      exists k. split; [lia|]. split; [done|]. split.
      * intros j Hj. apply (Hfirst (S j)). lia.
      * simpl. lra.
Qed.

Lemma get_fire_ancestors_first g topic_id max_depth x v :
  get_fire_ancestors g topic_id max_depth !! x = Some v
  ↔ ∃ k, (k < Z.to_nat max_depth)%nat
         ∧ x ∈ layer g (prereqs_of g topic_id) k
         ∧ (∀ j, (j < k)%nat → x ∉ layer g (prereqs_of g topic_id) j)
         ∧ v = fire_weight k.
Proof.
  unfold get_fire_ancestors, fire_weight. rewrite fire_loop_lookup.
  rewrite lookup_empty. naive_solver.
Qed.

Lemma fire_assign_singleton (weights : gmap string R) x w :
  weights !! x = None →
  fire_assign weights {[x]} w = <[x := w]> weights.
Proof.
  intros Hx. unfold fire_assign. rewrite set_iter_singleton. simpl.
  by rewrite Hx.
Qed.

Lemma fire_next_singleton g x : fire_next g {[x]} = prereqs_of g x.
Proof.
  unfold fire_next. rewrite set_iter_singleton. simpl. set_solver.
Qed.

Lemma fire_round_singleton rounds g (weights : gmap string R) x w :
  weights !! x = None →
  fire_loop (S rounds) g weights {[x]} w
  = fire_loop rounds g (<[x := w]> weights) (prereqs_of g x) (w * 0.5).
Proof.
  intros Hx. simpl. rewrite decide_False by set_solver.
  by rewrite fire_assign_singleton, fire_next_singleton.
Qed.

(** C6. For a chain T <- P1 <- P2 <- P3 <- P4 <- P5 of distinct topics and
[max_depth = 4], [get_fire_ancestors T] is the map P1: 0.5, P2: 0.25,
P3: 0.125, P4: 0.0625, and P5 has no entry. In general (any graph, topic
and depth) an id has the entry [v] exactly when [v] is the weight of the
first depth, below [max_depth], at which the id is met. *)
Theorem get_fire_ancestors_chain (g : KnowledgeGraph.t)
    (T P1 P2 P3 P4 P5 : string) :
  NoDup [P1; P2; P3; P4; P5] →
  prereqs_of g T = {[P1]} → prereqs_of g P1 = {[P2]} →
  prereqs_of g P2 = {[P3]} → prereqs_of g P3 = {[P4]} →
  prereqs_of g P4 = {[P5]} →
  get_fire_ancestors g T 4
  = <[P4 := 0.0625]> (<[P3 := 0.125]> (<[P2 := 0.25]> (<[P1 := 0.5]> ∅)))
  ∧ get_fire_ancestors g T 4 !! P5 = None
  ∧ (∀ (g' : KnowledgeGraph.t) (T' : string) (max_depth : Z)
       (x : string) (v : R),
       get_fire_ancestors g' T' max_depth !! x = Some v
       ↔ ∃ k, (k < Z.to_nat max_depth)%nat
              ∧ x ∈ layer g' (prereqs_of g' T') k
              ∧ (∀ j, (j < k)%nat → x ∉ layer g' (prereqs_of g' T') j)
              ∧ v = fire_weight k).
Proof.
  intros Hnd HT H1 H2 H3 H4.
  assert (P1 ≠ P2 ∧ P1 ≠ P3 ∧ P1 ≠ P4 ∧ P1 ≠ P5 ∧ P2 ≠ P3 ∧ P2 ≠ P4
          ∧ P2 ≠ P5 ∧ P3 ≠ P4 ∧ P3 ≠ P5 ∧ P4 ≠ P5)
    as (? & ? & ? & ? & ? & ? & ? & ? & ? & ?).
  { repeat match goal with
           | H : NoDup (_ :: _) |- _ => apply NoDup_cons in H as [? ?]
           end.
    set_solver. }
  assert (get_fire_ancestors g T 4
          = <[P4 := 0.0625]>
              (<[P3 := 0.125]> (<[P2 := 0.25]> (<[P1 := 0.5]> ∅)))) as Heq.
  { unfold get_fire_ancestors.
    change (Z.to_nat 4) with 4%nat. rewrite HT.
    rewrite fire_round_singleton, H1 by done.
    rewrite fire_round_singleton, H2 by by simplify_map_eq.
    rewrite fire_round_singleton, H3 by by simplify_map_eq.
    rewrite fire_round_singleton, H4 by by simplify_map_eq.
    simpl.
    replace (0.5 * 0.5) with 0.25 by lra.
    replace (0.25 * 0.5) with 0.125 by lra.
    by replace (0.125 * 0.5) with 0.0625 by lra. }
  split; [done|]. split; [|intros; apply get_fire_ancestors_first].
  rewrite Heq. by simplify_map_eq.
Qed.

End Fire.

(** ** [_topological_sort] and [get_learning_path] *)

Section Topo.
Context {SO : SetOrder}.
Import KnowledgeGraph.
Implicit Types (g : KnowledgeGraph.t) (x y : string) (S : gset string).
Implicit Types (deg : gmap string Z) (queue ds ids : list string).

(** *** The inner loop *)

Lemma release_nil deg queue : release deg queue [] = (deg, queue).
Proof. done. Qed.

Lemma release_cons deg queue d ds :
  release deg queue (d :: ds)
  = match deg !! d with
    | Some n =>
      release (<[d := (n - 1)%Z]> deg)
              (if decide (n - 1 = 0)%Z then queue ++ [d] else queue) ds
    | None => release deg queue ds
    end.
Proof. unfold release. simpl. by destruct (deg !! d). Qed.

Lemma release_lookup deg queue ds x :
  NoDup ds →
  (release deg queue ds).1 !! x
  = if decide (x ∈ ds) then (λ n, n - 1)%Z <$> deg !! x else deg !! x.
Proof.
  revert deg queue. induction ds as [|d ds IH]; intros deg queue Hnd.
  { rewrite release_nil. cbn [fst].
    by rewrite decide_False by apply not_elem_of_nil. }
  apply NoDup_cons in Hnd as [Hd Hnd]. rewrite release_cons.
  destruct (deg !! d) as [n|] eqn:Ed.
  - rewrite IH by done. destruct (decide (x = d)) as [->|Hne].
    + rewrite decide_False by done. rewrite decide_True by left.
      by rewrite lookup_insert_eq, Ed.
    + rewrite lookup_insert_ne by done.
      apply decide_ext. rewrite elem_of_cons. naive_solver.
  - rewrite IH by done. destruct (decide (x = d)) as [->|Hne].
    + rewrite decide_False by done. rewrite decide_True by left.
      by rewrite Ed.
    + apply decide_ext. rewrite elem_of_cons. naive_solver.
Qed.

Lemma release_queue deg queue ds :
  NoDup ds →
  (release deg queue ds).2
  = queue ++ filter (λ d, deg !! d = Some 1%Z) ds.
Proof.
  revert deg queue. induction ds as [|d ds IH]; intros deg queue Hnd.
  { rewrite release_nil. simpl. by rewrite app_nil_r. }
  apply NoDup_cons in Hnd as [Hd Hnd]. rewrite release_cons.
  assert (∀ n, filter (λ d0, <[d := n]> deg !! d0 = Some 1%Z) ds
               = filter (λ d0, deg !! d0 = Some 1%Z) ds) as Hf.
  { intros n. apply filter_ext_in. intros y Hy.
    rewrite lookup_insert_ne; [done|]. intros ->. done. }
  destruct (deg !! d) as [n|] eqn:Ed.
  - rewrite IH, Hf by done. case_decide as Hn.
    + rewrite filter_cons_True by (rewrite Ed; f_equal; lia).
      by rewrite <- app_assoc.
    + rewrite filter_cons_False; [done|].
      rewrite Ed. intros [= ->]. lia.
  - rewrite IH by done. rewrite filter_cons_False; [done|]. by rewrite Ed.
Qed.

(** *** The iteration budget of [_topological_sort] *)

Lemma positives_insert deg d n v :
  deg !! d = Some n →
  positives (<[d := v]> deg) + (if decide (0 < n)%Z then 1 else 0)
  = positives deg + (if decide (0 < v)%Z then 1 else 0).
Proof.
  intros Hd. unfold positives.
  rewrite map_filter_insert. cbn [snd].
  destruct (decide (0 < v)%Z) as [Hv|Hv].
  - rewrite map_size_insert.
    destruct (filter _ deg !! d) as [n'|] eqn:Ef.
    + apply map_lookup_filter_Some in Ef as [Hd' Hn']. simpl in Hn'.
      assert (n' = n) as -> by congruence.
      rewrite decide_True by done. simpl. lia.
    + rewrite decide_False; [simpl; lia|]. intros Hn.
      assert (filter (λ kv : string * Z, (0 < kv.2)%Z) deg !! d = Some n)
        as Hs by (by apply map_lookup_filter_Some).
      congruence.
  - rewrite map_filter_delete, map_size_delete.
    destruct (filter _ deg !! d) as [n'|] eqn:Ef.
    + apply map_lookup_filter_Some in Ef as [Hd' Hn']. simpl in Hn'.
      assert (n' = n) as -> by congruence.
      rewrite decide_True by done. simpl.
      assert (size (filter (λ kv : string * Z, (0 < kv.2)%Z) deg) ≠ 0).
      { apply map_size_ne_0_lookup. exists d.
        exists n. by apply map_lookup_filter_Some. }
      lia.
    + rewrite decide_False; [simpl; lia|]. intros Hn.
      assert (filter (λ kv : string * Z, (0 < kv.2)%Z) deg !! d = Some n)
        as Hs by (by apply map_lookup_filter_Some).
      congruence.
Qed.

Lemma release_measure deg queue ds :
  length (release deg queue ds).2 + positives (release deg queue ds).1
  = length queue + positives deg.
Proof.
  revert deg queue. induction ds as [|d ds IH]; intros deg queue; [done|].
  rewrite release_cons. destruct (deg !! d) as [n|] eqn:Ed; [|apply IH].
  rewrite IH. pose proof (positives_insert deg d n (n - 1) Ed) as Hp.
  destruct (decide (n - 1 = 0)%Z); [rewrite length_app; simpl|];
    repeat case_decide; lia.
Qed.

Lemma topo_loop_fuel fuel g deg queue out :
  length queue + positives deg < fuel →
  is_Some (topo_loop fuel g deg queue out).
Proof.
  revert deg queue out.
  induction fuel as [|fuel IH]; intros deg queue out Hm; [lia|].
  destruct queue as [|c queue]; simpl; [eauto|].
  destruct (topics g !! c); [|eauto].
  apply IH. rewrite release_measure. simpl in Hm. lia.
Qed.

(** *** Counting prerequisites *)

Lemma remaining_emit g S emitted c x :
  c ∈ S → c ∉ emitted →
  remaining g S (emitted ++ [c]) x
  + (if decide (c ∈ prereqs_of g x) then 1 else 0)
  = remaining g S emitted x.
Proof.
  intros HcS Hc. unfold remaining.
  rewrite <- (count_remove (λ p, p ∈ S ∧ p ∉ emitted) c)
    by apply NoDup_elements.
  f_equal.
  - f_equal. apply list_filter_iff. intros p.
    rewrite not_elem_of_app, list_elem_of_singleton. naive_solver.
  - apply decide_ext. rewrite elem_of_elements. naive_solver.
Qed.

Lemma remaining_zero g S emitted x p :
  remaining g S emitted x = 0 →
  p ∈ prereqs_of g x → p ∈ S → p ∈ emitted.
Proof.
  unfold remaining. intros Hz%nil_length_inv Hp HpS.
  destruct (decide (p ∈ emitted)) as [|Hne]; [done|]. exfalso.
  eapply (filter_nil_not_elem_of _ _ p Hz); [done|].
  by apply elem_of_elements.
Qed.

(** *** The in-degree map *)

Lemma in_degree_inner S tid (l : list string) (m : gmap string Z) x :
  foldl (λ in_degree prereq_id,
           if decide (prereq_id ∈ S)
           then alter (λ d, d + 1)%Z tid in_degree
           else in_degree) m l !! x
  = if decide (x = tid)
    then (λ d, d + Z.of_nat (length (filter (.∈ S) l)))%Z <$> m !! x
    else m !! x.
Proof.
  revert m. induction l as [|p l IH]; intros m; cbn [foldl].
  { case_decide; [|done]. rewrite filter_nil. simpl.
    destruct (m !! x); simpl; [f_equal; lia|done]. }
  rewrite IH, filter_cons. case_decide as Hx; [subst x|].
  - destruct (decide (p ∈ S)).
    + rewrite lookup_alter_eq. destruct (m !! tid); simpl; [|done].
      f_equal. lia.
    + done.
  - destruct (decide (p ∈ S)); [|done]. by rewrite lookup_alter_ne.
Qed.

Lemma in_degree_of_lookup g S x :
  in_degree_of g S !! x
  = if decide (x ∈ S) then Some (Z.of_nat (remaining g S [] x)) else None.
Proof.
  unfold in_degree_of.
  assert (∀ (l : list string) (m : gmap string Z), NoDup l →
    foldl (λ in_degree tid,
             foldl (λ in_degree prereq_id,
                      if decide (prereq_id ∈ S)
                      then alter (λ d, d + 1)%Z tid in_degree
                      else in_degree)
                   in_degree (set_iter (prereqs_of g tid))) m l !! x
    = if decide (x ∈ l)
      then (λ d, d + Z.of_nat (remaining g S [] x))%Z <$> m !! x
      else m !! x) as Hl.
  { induction l as [|tid l IH]; intros m Hnd; cbn [foldl].
    { by rewrite decide_False by apply not_elem_of_nil. }
    apply NoDup_cons in Hnd as [Htid Hnd].
    rewrite IH, in_degree_inner by done.
    destruct (decide (x = tid)) as [->|Hne].
    - rewrite decide_False by done. rewrite decide_True by left.
      destruct (m !! tid); simpl; [|done]. do 3 f_equal.
      unfold remaining. rewrite (set_iter_perm (prereqs_of g tid)).
      f_equal. apply list_filter_iff. intros p.
      pose proof (not_elem_of_nil p). naive_solver.
    - apply decide_ext. rewrite elem_of_cons. naive_solver. }
  rewrite Hl by apply NoDup_set_iter.
  rewrite (decide_ext _ _ _ _ (elem_of_set_iter S x)).
  rewrite lookup_gset_to_gmap.
  destruct (decide (x ∈ S)).
  - rewrite option_guard_True by done. simpl. f_equal; lia.
  - by rewrite option_guard_False.
Qed.

(** *** The main loop *)

Lemma topo_inv_init g S :
  topo_inv g S (in_degree_of g S)
           (filter (λ tid, in_degree_of g S !! tid = Some 0%Z) (set_iter S))
           [].
Proof.
  split.
  - apply in_degree_of_lookup.
  - simpl. apply NoDup_filter, NoDup_set_iter.
  - simpl. intros x [_ Hx]%list_elem_of_filter. by apply elem_of_set_iter.
  - simpl. intros x [Hz Hx%elem_of_set_iter]%list_elem_of_filter.
    rewrite in_degree_of_lookup, decide_True in Hz by done.
    injection Hz. lia.
  - intros i x p Hi. by rewrite lookup_nil in Hi.
Qed.

Lemma topo_inv_step g S deg c queue ids :
  well_formed g →
  topo_inv g S deg (c :: queue) ids →
  topo_inv g S
           (release deg queue (set_iter (dependents_of g c))).1
           (release deg queue (set_iter (dependents_of g c))).2
           (ids ++ [c]).
Proof.
  intros Hwf [Hdeg Hnd Hsub Hzero Horder].
  assert (c ∈ S) as HcS.
  { apply Hsub, elem_of_app. right. left. }
  assert (c ∉ ids) as Hcids.
  { apply NoDup_app in Hnd as (_ & Hdisj & _). intros Hc.
    apply (Hdisj c Hc). left. }
  assert (∀ x, x ∈ set_iter (dependents_of g c) ↔ c ∈ prereqs_of g x)
    as Hds.
  { intros x. rewrite elem_of_set_iter. symmetry. apply (wf_mirror g Hwf). }
  assert (∀ x, x ∈ filter (λ d, deg !! d = Some 1%Z)
                         (set_iter (dependents_of g c)) →
               x ∈ S ∧ remaining g S ids x = 1 ∧ c ∈ prereqs_of g x)
    as Hnew.
  { intros x [Hx Hin]%list_elem_of_filter. rewrite Hdeg in Hx.
    case_decide; [|done]. split; [done|]. split; [|by apply Hds].
    injection Hx. lia. }
  rewrite release_queue by apply NoDup_set_iter.
  assert ((ids ++ [c]) ++ queue = ids ++ c :: queue) as Happ.
  { by rewrite <- app_assoc. }
  split.
  - intros x. rewrite release_lookup by apply NoDup_set_iter.
    rewrite Hdeg.
    pose proof (remaining_emit g S ids c x HcS Hcids) as Hrem.
    rewrite (decide_ext _ _ _ _ (Hds x)).
    destruct (decide (x ∈ S)); [|by case_decide].
    destruct (decide (c ∈ prereqs_of g x)); simpl; f_equal; lia.
  - rewrite app_assoc, Happ. apply NoDup_app. split; [done|]. split.
    + intros x Hx Hx'. apply Hnew in Hx' as (_ & Hone & _).
      rewrite (Hzero x Hx) in Hone. lia.
    + apply NoDup_filter, NoDup_set_iter.
  - rewrite app_assoc, Happ. intros x [Hx|Hx]%elem_of_app.
    + by apply Hsub.
    + by apply Hnew in Hx as (? & _).
  - rewrite app_assoc, Happ. intros x [Hx|Hx]%elem_of_app.
    + pose proof (remaining_emit g S ids c x HcS Hcids) as Hrem.
      rewrite (Hzero x Hx) in Hrem. lia.
    + apply Hnew in Hx as (_ & Hone & Hc).
      pose proof (remaining_emit g S ids c x HcS Hcids) as Hrem.
      rewrite decide_True in Hrem by done. lia.
  - intros i x p Hi Hp HpS.
    apply lookup_app_Some in Hi as [Hi|[Hlen Hi]].
    + destruct (Horder i x p Hi Hp HpS) as (j & Hj & Hjp).
      exists j. split; [done|]. by apply lookup_app_l_Some.
    + apply list_lookup_singleton_Some in Hi as [Hi ->].
      assert (p ∈ ids) as [j Hj]%list_elem_of_lookup.
      { apply (remaining_zero g S ids x p); [|done..].
        apply Hzero, elem_of_app. right. left. }
      exists j. split; [|by apply lookup_app_l_Some].
      apply lookup_lt_Some in Hj. lia.
Qed.

Lemma topo_loop_inv fuel g S deg queue out r :
  well_formed g → S ⊆ dom (topics g) →
  topo_inv g S deg queue (Topic.id <$> out) →
  topo_loop fuel g deg queue out = Some r →
  ∃ out' deg', r = Ok out' ∧ topo_inv g S deg' [] (Topic.id <$> out').
Proof.
  intros Hwf HS. revert deg queue out.
  induction fuel as [|fuel IH]; intros deg queue out Hinv; [done|].
  destruct queue as [|c queue]; simpl.
  { intros [= <-]. eauto. }
  assert (c ∈ dom (topics g)) as [t Ht]%elem_of_dom.
  { apply HS, (ti_sub _ _ _ _ _ Hinv), elem_of_app. right. left. }
  rewrite Ht. apply IH.
  rewrite fmap_app. simpl. rewrite (wf_ids g Hwf c t Ht).
  by apply topo_inv_step.
Qed.

Lemma topological_sort_spec g S :
  well_formed g → S ⊆ dom (topics g) →
  ∃ out,
    _topological_sort g S = Ok out
    ∧ NoDup (Topic.id <$> out)
    ∧ (∀ x, x ∈ Topic.id <$> out → x ∈ S)
    ∧ (∀ i x p, (Topic.id <$> out) !! i = Some x →
                p ∈ prereqs_of g x → p ∈ S →
                ∃ j, j < i ∧ (Topic.id <$> out) !! j = Some p).
Proof.
  intros Hwf HS. unfold _topological_sort. cbv zeta.
  set (deg := in_degree_of g S).
  set (queue := filter (λ tid, deg !! tid = Some 0%Z) (set_iter S)).
  destruct (topo_loop_fuel (topo_fuel deg queue) g deg queue [])
    as [r Hr]; [unfold topo_fuel, positives; lia|].
  rewrite Hr.
  destruct (topo_loop_inv _ g S deg queue [] r Hwf HS (topo_inv_init g S) Hr)
    as (out & deg' & -> & [_ Hnd Hsub _ Horder]).
  exists out. split; [done|]. rewrite app_nil_r in Hnd, Hsub. done.
Qed.

(** C5. In a well-formed graph, for every registered target and every set
of completed ids, [get_learning_path] returns a list of topics in which no
id is completed, and in which every prerequisite of a listed topic that is
itself listed stands earlier in the list. More: every prerequisite of a
listed topic that is not completed stands earlier in the list, and no id is
listed twice. *)
Theorem get_learning_path_topological (g : KnowledgeGraph.t)
    (target_id : string) (completed_ids : option (gset string)) :
  well_formed g → target_id ∈ dom (topics g) →
  ∃ path,
    get_learning_path g target_id completed_ids = Ok path
    ∧ (∀ x, x ∈ Topic.id <$> path → x ∉ default ∅ completed_ids)
    ∧ (∀ i x p, (Topic.id <$> path) !! i = Some x →
                p ∈ prereqs_of g x → p ∈ Topic.id <$> path →
                ∃ j, j < i ∧ (Topic.id <$> path) !! j = Some p)
    ∧ (∀ i x p, (Topic.id <$> path) !! i = Some x →
                p ∈ prereqs_of g x → p ∉ default ∅ completed_ids →
                ∃ j, j < i ∧ (Topic.id <$> path) !! j = Some p)
    ∧ NoDup (Topic.id <$> path).
Proof.
  intros Hwf Ht. unfold get_learning_path.
  rewrite decide_False by (by intros ?). cbv zeta.
  set (needed_ids := list_to_set (Topic.id <$> get_all_prerequisites g target_id)
                     ∪ {[target_id]} : gset string).
  assert (∀ x, x ∈ needed_ids
               ↔ tc (prereq_edge g) target_id x ∨ x = target_id) as Hneeded.
  { intros x. unfold needed_ids.
    rewrite elem_of_union, elem_of_list_to_set, elem_of_singleton.
    by rewrite ids_get_all_prerequisites, all_prereq_ids_spec. }
  destruct (topological_sort_spec g (needed_ids ∖ default ∅ completed_ids) Hwf)
    as (path & Heq & Hnd & Hsub & Horder).
  { intros x [[Hx| ->]%Hneeded _]%elem_of_difference; [|done].
    apply tc_rtc_r with (z := x) in Hx; [|done].
    clear -Hx Hwf. induction Hx as [a b Hab|a b c Hab _ IH]; [|done].
    by apply (wf_registered g Hwf a b). }
  assert (∀ i x p, (Topic.id <$> path) !! i = Some x →
                   p ∈ prereqs_of g x → p ∉ default ∅ completed_ids →
                   ∃ j, j < i ∧ (Topic.id <$> path) !! j = Some p) as Hstrong.
  { intros i x p Hi Hp Hpc. apply (Horder i x p Hi Hp).
    apply elem_of_difference. split; [|done]. apply Hneeded. left.
    assert (x ∈ needed_ids) as [Hx| ->]%Hneeded.
    { assert (x ∈ needed_ids ∖ default ∅ completed_ids)
        as [? _]%elem_of_difference; [|done].
      apply Hsub. by eapply list_elem_of_lookup_2. }
    - by eapply tc_r.
    - by apply tc_once. }
  exists path. split; [done|]. split; [|split; [|split; [done|done]]].
  - intros x Hx. by apply Hsub, elem_of_difference in Hx as [_ ?].
  - intros i x p Hi Hp Hpin. apply (Hstrong i x p Hi Hp).
    by apply Hsub, elem_of_difference in Hpin as [_ ?].
Qed.

End Topo.

(** ** The forgetting curve *)

Section Decay.
Local Open Scope R_scope.

Lemma calculate_retention_nonpos t S :
  S <= 0 → Ebbinghaus.calculate_retention t S = Returned 0.
Proof.
  intros HS. unfold Ebbinghaus.calculate_retention.
  destruct (Rle_dec S 0); [|lra]. f_equal. lra.
Qed.

(** The four cases of [calculate_retention] for a positive stability. *)
Lemma calculate_retention_cases t S :
  0 < S →
  Ebbinghaus.calculate_retention t S
  = if Rlt_dec DBL_MAX (- t / S) then Returned 1
    else if Rlt_dec DBL_MAX (exp (- t / S)) then Thrown OverflowError
    else if Rlt_dec (exp (- t / S)) DBL_TINY then Returned 0
    else Returned (Rmin 1 (exp (- t / S))).
Proof.
  intros HS. unfold Ebbinghaus.calculate_retention, py_exp.
  destruct (Rle_dec S 0); [lra|].
  destruct (Rlt_dec DBL_MAX (- t / S)).
  { cbn [obind]. by rewrite clamp_inf. }
  destruct (Rlt_dec DBL_MAX (exp (- t / S))); [done|].
  destruct (Rlt_dec (exp (- t / S)) DBL_TINY); cbn [obind].
  - rewrite clamp_num by lra. rewrite Rmin_right by lra. done.
  - rewrite clamp_num; [done|]. left. apply exp_pos.
Qed.

(** From the review on, [math.exp] cannot overflow. *)
Lemma calculate_retention_elapsed t S :
  0 < S → 0 <= t →
  Ebbinghaus.calculate_retention t S = Returned (flush (exp (- t / S))).
Proof.
  intros HS Ht. rewrite calculate_retention_cases by done.
  assert (- t / S <= 0) as Hx.
  { assert (0 <= t * / S).
    { apply Rmult_le_pos; [done|]. left. by apply Rinv_0_lt_compat. }
    unfold Rdiv. lra. }
  pose proof DBL_MAX_ge_1. pose proof (exp_le_1 _ Hx).
  destruct (Rlt_dec DBL_MAX (- t / S)); [lra|].
  destruct (Rlt_dec DBL_MAX (exp (- t / S))); [lra|].
  unfold flush. destruct (Rlt_dec (exp (- t / S)) DBL_TINY); [done|].
  by rewrite Rmin_right.
Qed.

Lemma calculate_retention_range t S v :
  Ebbinghaus.calculate_retention t S = Returned v → 0 <= v <= 1.
Proof.
  destruct (Rle_dec S 0) as [HS|HS].
  { rewrite calculate_retention_nonpos by done. intros [= <-]. lra. }
  rewrite calculate_retention_cases by lra.
  pose proof (exp_pos (- t / S)).
  destruct (Rlt_dec DBL_MAX (- t / S)); [intros [= <-]; lra|].
  destruct (Rlt_dec DBL_MAX (exp (- t / S))); [done|].
  destruct (Rlt_dec (exp (- t / S)) DBL_TINY); intros [= <-]; [lra|].
  split; [apply Rmin_glb; lra|apply Rmin_l].
Qed.

Lemma flush_range x : 0 <= x → 0 <= flush x <= x.
Proof. intros Hx. unfold flush. destruct (Rlt_dec x DBL_TINY); lra. Qed.

Lemma flush_mono x y : 0 <= x → x <= y → flush x <= flush y.
Proof.
  intros Hx Hy. unfold flush.
  destruct (Rlt_dec x DBL_TINY), (Rlt_dec y DBL_TINY); lra.
Qed.

Lemma exp_1000 : 2 ^ 1075 < exp 1000.
Proof.
  assert (2 ^ 9 <= exp 8) as H8.
  { replace 8 with (INR 16 * (1 / 2))
      by (rewrite INR_IZR_INZ; change (Z.of_nat 16) with 16%Z; lra).
    rewrite exp_nat.
    assert (3 / 2 < exp (1 / 2)) by (pose proof (exp_ineq1 (1 / 2)); lra).
    trans ((3 / 2) ^ 16); [simpl; lra|apply pow_incr; lra]. }
  replace 1000 with (INR 125 * 8)
    by (rewrite INR_IZR_INZ; change (Z.of_nat 125) with 125%Z; lra).
  rewrite exp_nat.
  apply Rlt_le_trans with ((2 ^ 9) ^ 125).
  - rewrite <- pow_mult. apply Rlt_pow; [lra|]. apply Nat.ltb_lt. reflexivity.
  - apply pow_incr. split; [apply pow_le; lra|done].
Qed.

Lemma DBL_MAX_ge_1000 : 1000 <= DBL_MAX.
Proof.
  unfold DBL_MAX.
  assert (2 ^ 10 <= 2 ^ 1023).
  { apply Rle_pow; [lra|]. apply Nat.leb_le. reflexivity. }
  assert (2 ^ 10 = 1024) by (simpl; lra).
  assert (0 < / 2 ^ 52 <= / 2).
  { split; [apply Rinv_0_lt_compat, pow_lt; lra|].
    apply Rinv_le_contravar; [lra|].
    change 52%nat with (1 + 51)%nat. rewrite pow_add.
    assert (1 <= 2 ^ 51) by (apply pow_R1_Rle; lra). nra. }
  nra.
Qed.

Lemma exp_1000_overflow : DBL_MAX < exp 1000.
Proof.
  pose proof DBL_MAX_lt_pow. pose proof exp_1000.
  assert (2 ^ 1024 < 2 ^ 1075).
  { apply Rlt_pow; [lra|]. apply Nat.ltb_lt. reflexivity. }
  lra.
Qed.

Lemma exp_1000_underflow t : 1000 <= t → exp (- t) < DBL_TINY.
Proof.
  intros Ht. rewrite exp_Ropp. unfold DBL_TINY.
  apply Rinv_lt_contravar.
  - apply Rmult_lt_0_compat; [apply pow_lt; lra|apply exp_pos].
  - apply Rlt_le_trans with (exp 1000); [apply exp_1000|].
    destruct Ht as [Ht| <-]; [left; by apply exp_increasing|lra].
Qed.



End Decay.

(** ** Mastery records and the tracker *)

Section Tracker.
Local Open Scope R_scope.

(** C2, as amended. [record_practice] with score 0.5 on a fresh record (level
Unknown, stability 1.0) returns Introduced and leaves the record at level
Introduced, one rank above Unknown; its stability stays 1.0. *)
Theorem record_practice_half_fresh (now : R) (topic_id problem_type : string)
    (time_spent_seconds : Z) :
  ∃ r, MasteryRecord.record_practice now 0.5 problem_type time_spent_seconds
         (MasteryRecord.fresh topic_id) = Ok (r, MasteryLevel.INTRODUCED)
       ∧ MasteryRecord.level r = MasteryLevel.INTRODUCED
       ∧ MasteryRecord.stability r
         = MasteryRecord.stability (MasteryRecord.fresh topic_id)
       ∧ MasteryRecord.stability r = 1.
Proof.
  unfold MasteryRecord.record_practice. simpl.
  rewrite from_score_unknown by lra. simpl.
  destruct (Rge_dec 0.5 0.7); [lra|].
  destruct (Rlt_dec 0.5 0.4); [lra|].
  eexists. split; [reflexivity|]. simpl. repeat split; lra.
Qed.

(** C2 as stated fails: [record_practice] with score 0.5 on a fresh record
returns, and leaves the record at, a level that is not Developing. *)
Lemma record_practice_half_not_developing :
  ∃ r l, MasteryRecord.record_practice 0 0.5 "" 0 (MasteryRecord.fresh "t")
           = Ok (r, l)
         ∧ MasteryRecord.level r ≠ MasteryLevel.DEVELOPING
         ∧ l ≠ MasteryLevel.DEVELOPING.
Proof.
  unfold MasteryRecord.record_practice. simpl.
  rewrite from_score_unknown by lra. simpl.
  eexists _, _. split; [reflexivity|]. simpl. done.
Qed.

Lemma get_record_snd k tr : (MasteryTracker.get_record k tr).2 = record_at tr k.
Proof.
  unfold MasteryTracker.get_record, record_at.
  by destruct (MasteryTracker.records tr !! k).
Qed.

Lemma get_record_fst k tr k' :
  record_at (MasteryTracker.get_record k tr).1 k' = record_at tr k'.
Proof.
  unfold MasteryTracker.get_record, record_at.
  destruct (MasteryTracker.records tr !! k) eqn:E; [done|]. simpl.
  destruct (decide (k = k')) as [<-|Hne].
  - by rewrite lookup_insert_eq, E.
  - by rewrite lookup_insert_ne.
Qed.

Lemma fire_credit_step_same now base tr p w :
  record_at (MasteryTracker.fire_credit_step now base tr (p, w)) p
  = credit base w (now p) (record_at tr p).
Proof.
  unfold MasteryTracker.fire_credit_step, credit.
  destruct (Rge_dec (base * w) 0.3); [|done].
  pose proof (get_record_snd p tr) as Hs.
  pose proof (get_record_fst p tr p) as Hf.
  destruct (MasteryTracker.get_record p tr) as [tr1 r1]. simpl in *. subst r1.
  destruct (MasteryRecord.last_review (record_at tr p)); [|done].
  unfold record_at at 1. simpl. by rewrite lookup_insert_eq.
Qed.

Lemma fire_credit_step_other now base tr p w k :
  k ≠ p →
  record_at (MasteryTracker.fire_credit_step now base tr (p, w)) k
  = record_at tr k.
Proof.
  intros Hne. unfold MasteryTracker.fire_credit_step.
  destruct (Rge_dec (base * w) 0.3); [|done].
  pose proof (get_record_fst p tr k) as Hf.
  destruct (MasteryTracker.get_record p tr) as [tr1 r1]. simpl in *.
  destruct (MasteryRecord.last_review r1); [|done].
  unfold record_at at 1. simpl. by rewrite lookup_insert_ne.
Qed.

Lemma apply_fire_credit_absent now topic_id ws base tr k :
  k ∉ ws.*1 →
  record_at (MasteryTracker.apply_fire_credit now topic_id ws base tr) k
  = record_at tr k.
Proof.
  unfold MasteryTracker.apply_fire_credit.
  revert tr. induction ws as [|[p w] ws IH]; intros tr Hk; [done|].
  cbn [foldl fmap list_fmap fst] in *.
  apply not_elem_of_cons in Hk as [Hne Hk].
  rewrite IH by done. by apply fire_credit_step_other.
Qed.

Lemma apply_fire_credit_present now topic_id ws base tr k w :
  NoDup ws.*1 → (k, w) ∈ ws →
  record_at (MasteryTracker.apply_fire_credit now topic_id ws base tr) k
  = credit base w (now k) (record_at tr k).
Proof.
  unfold MasteryTracker.apply_fire_credit.
  revert tr. induction ws as [|[p w'] ws IH]; intros tr Hnd Hin.
  { by apply elem_of_nil in Hin. }
  cbn [foldl fmap list_fmap fst] in *. apply NoDup_cons in Hnd as [Hp Hnd].
  apply elem_of_cons in Hin as [Heq|Hin].
  - injection Heq as -> ->.
    pose proof (apply_fire_credit_absent now topic_id ws base
                  (MasteryTracker.fire_credit_step now base tr (p, w')) p Hp)
      as H.
    unfold MasteryTracker.apply_fire_credit in H. rewrite H.
    apply fire_credit_step_same.
  - rewrite IH by done. f_equal. apply fire_credit_step_other.
    intros ->. apply Hp. apply list_elem_of_fmap. by exists (p, w).
Qed.

(** C8. For a weights dict with distinct keys and any base score, after
[apply_fire_credit] the record of every key [k] has its level, history,
practice count and average score unchanged; when [k] has a weight [w] with
[base_score * w >= 0.3] and its record already had a last review, its
stability is [min 10 (stability * (1 + 0.1 * w))] and its last review is
the clock reading of its round; for every other key, stability and last
review are unchanged. The record of a key is the stored one, or the fresh
one [get_record] would create. *)
Theorem apply_fire_credit_frame (now : string → R) (topic_id : string)
    (fire_weights : list (string * R)) (base_score : R)
    (tr : MasteryTracker.t) (k : string) :
  NoDup fire_weights.*1 →
  let tr' :=
    MasteryTracker.apply_fire_credit now topic_id fire_weights base_score tr in
  let r := record_at tr k in
  let r' := record_at tr' k in
  (MasteryRecord.level r' = MasteryRecord.level r
   ∧ MasteryRecord.history r' = MasteryRecord.history r
   ∧ MasteryRecord.practice_count r' = MasteryRecord.practice_count r
   ∧ MasteryRecord.average_score r' = MasteryRecord.average_score r)
  ∧ (∀ w, (k, w) ∈ fire_weights → base_score * w >= 0.3 →
          is_Some (MasteryRecord.last_review r) →
          MasteryRecord.stability r'
          = Rmin 10 (MasteryRecord.stability r * (1 + 0.1 * w))
          ∧ MasteryRecord.last_review r' = Some (now k))
  ∧ ((¬ ∃ w, (k, w) ∈ fire_weights ∧ base_score * w >= 0.3
             ∧ is_Some (MasteryRecord.last_review r)) →
     MasteryRecord.stability r' = MasteryRecord.stability r
     ∧ MasteryRecord.last_review r' = MasteryRecord.last_review r).
Proof.
  intros Hnd tr' r r'. subst tr' r r'.
  destruct (decide (k ∈ fire_weights.*1)) as [Hin|Hout].
  - apply list_elem_of_fmap in Hin as ([k' w] & -> & Hin). simpl.
    rewrite (apply_fire_credit_present _ _ _ _ _ _ w Hnd Hin).
    assert (Huniq : ∀ w', (k', w') ∈ fire_weights → w' = w).
    { intros w' Hin'.
      apply list_elem_of_lookup in Hin as [i Hi].
      apply list_elem_of_lookup in Hin' as [j Hj].
      assert (i = j) as ->.
      { eapply NoDup_lookup; [exact Hnd| |];
          rewrite list_lookup_fmap; [by rewrite Hi|by rewrite Hj]. }
      congruence. }
    unfold credit.
    destruct (Rge_dec (base_score * w) 0.3) as [Hge|Hlt].
    + destruct (MasteryRecord.last_review (record_at tr k')) eqn:Hlr; simpl.
      * split; [done|]. split.
        -- intros w' Hin' _ _. apply Huniq in Hin' as ->.
           rewrite py_min_Rmin. split; [|done]. f_equal. lra.
        -- intros Hno. exfalso. apply Hno. exists w. eauto.
      * split; [done|]. split.
        -- intros w' _ _ [x Hx]. congruence.
        -- done.
    + split; [done|]. split.
      * intros w' Hin' Hge _. apply Huniq in Hin' as ->. done.
      * done.
  - rewrite apply_fire_credit_absent by done.
    split; [done|]. split; [|done].
    intros w Hin. exfalso. apply Hout. apply list_elem_of_fmap. by exists (k, w).
Qed.

Lemma record_at_lookup tr k r :
  MasteryTracker.records tr !! k = Some r → record_at tr k = r.
Proof. unfold record_at. by intros ->. Qed.

Lemma record_practice_in_range now s pt ts r r' l :
  in_range r →
  MasteryRecord.record_practice now s pt ts r = Ok (r', l) →
  in_range r'.
Proof.
  unfold MasteryRecord.record_practice, in_range. intros Hr.
  destruct (MasteryLevel.from_score s (MasteryRecord.level r)); [|done].
  simpl. intros [= <- <-]. simpl.
  rewrite py_min_Rmin, py_max_Rmax.
  destruct (Rge_dec s 0.7); [|destruct (Rlt_dec s 0.4)].
  - unfold Rmin. destruct (Rle_dec _ _); lra.
  - unfold Rmax. destruct (Rle_dec _ _); lra.
  - lra.
Qed.

Lemma record_practice_ok now s pt ts r :
  ∃ r' l, MasteryRecord.record_practice now s pt ts r = Ok (r', l).
Proof.
  unfold MasteryRecord.record_practice.
  destruct (from_score_total s (MasteryRecord.level r)) as (L' & ->).
  simpl. eauto.
Qed.

Lemma tracker_record_practice_at now k s pt ts tr k' :
  ∃ r' l,
    MasteryRecord.record_practice now s pt ts (record_at tr k) = Ok (r', l)
    ∧ (MasteryTracker.record_practice now k s pt ts tr).2 = Ok l
    ∧ record_at (MasteryTracker.record_practice now k s pt ts tr).1 k'
      = if decide (k' = k) then r' else record_at tr k'.
Proof.
  unfold MasteryTracker.record_practice.
  pose proof (get_record_snd k tr) as Hs.
  pose proof (get_record_fst k tr k') as Hf.
  destruct (MasteryTracker.get_record k tr) as [tr1 r1]. simpl in *. subst r1.
  destruct (record_practice_ok now s pt ts (record_at tr k)) as (r' & l & ->).
  exists r', l. split; [reflexivity|]. split; [reflexivity|].
  unfold record_at at 1. simpl.
  destruct (decide (k' = k)) as [->|Hne].
  - by rewrite lookup_insert_eq.
  - rewrite lookup_insert_ne by done. exact Hf.
Qed.

Lemma credit_in_range base w t r :
  0 <= w → in_range r → in_range (credit base w t r).
Proof.
  unfold credit, in_range. intros Hw Hr.
  destruct (Rge_dec _ _); [|done].
  destruct (MasteryRecord.last_review r); [|done]. simpl.
  rewrite py_min_Rmin. unfold Rmin. destruct (Rle_dec _ _); nra.
Qed.

Lemma fire_credit_step_in_range now base tr kw :
  0 <= kw.2 →
  (∀ k, in_range (record_at tr k)) →
  ∀ k, in_range (record_at (MasteryTracker.fire_credit_step now base tr kw) k).
Proof.
  destruct kw as [p w]. cbn [snd]. intros Hw Htr k.
  destruct (decide (k = p)) as [->|Hne].
  - rewrite fire_credit_step_same. by apply credit_in_range.
  - by rewrite fire_credit_step_other.
Qed.

Lemma step_in_range tr o :
  nonneg_weights o →
  (∀ k, in_range (record_at tr k)) →
  ∀ k, in_range (record_at (step tr o) k).
Proof.
  destruct o as [now k s pt ts|now k ws b]; simpl.
  - intros _ Htr k'.
    destruct (tracker_record_practice_at now k s pt ts tr k')
      as (r' & l & Hr & _ & ->).
    case_decide; [|done]. eapply record_practice_in_range; [|exact Hr]. done.
  - unfold MasteryTracker.apply_fire_credit. revert tr.
    induction ws as [|kw ws IH]; intros tr Hws Htr; [done|].
    apply Forall_cons in Hws as [Hw Hws]. cbn [foldl].
    apply IH; [done|]. by apply fire_credit_step_in_range.
Qed.

Lemma run_in_range ops tr :
  Forall nonneg_weights ops →
  (∀ k, in_range (record_at tr k)) →
  ∀ k, in_range (record_at (run ops tr) k).
Proof.
  unfold run. revert tr. induction ops as [|o ops IH]; intros tr Hops Htr; [done|].
  apply Forall_cons in Hops as [Ho Hops]. cbn [foldl].
  apply IH; [done|]. by apply step_in_range.
Qed.

Lemma update_stability_range cs s ret :
  0.5 <= Ebbinghaus.update_stability cs s ret <= 30.
Proof.
  unfold Ebbinghaus.update_stability. cbv zeta.
  rewrite py_max_Rmax, py_min_Rmin.
  replace 30.0 with 30 by lra.
  split; [apply Rmax_l|].
  apply Rmax_lub; [lra|apply Rmin_l].
Qed.

Lemma update_stability_above_ten : Ebbinghaus.update_stability 20 1 1 = 30.
Proof.
  unfold Ebbinghaus.update_stability. cbv zeta.
  destruct (Rge_dec 1 0.9); [|lra].
  destruct (Rge_dec 1 0.7); [|lra].
  destruct (Rlt_dec 1 0.5); [lra|].
  rewrite py_max_Rmax, py_min_Rmin.
  rewrite Rmin_left by lra. rewrite Rmax_right by lra. lra.
Qed.

(** C9, as amended. Starting from an empty tracker (every record is created
fresh), after any sequence of [record_practice] and [apply_fire_credit]
calls with arbitrary scores and with non-negative weights, every stored
record has its stability in [0.5, 10]. [update_stability] always returns a
value in [0.5, 30], and returns values above 10. *)
Theorem stability_bounds (ops : list op) :
  Forall nonneg_weights ops →
  (∀ k r, MasteryTracker.records (run ops MasteryTracker.empty) !! k = Some r →
          0.5 <= MasteryRecord.stability r <= 10)
  ∧ (∀ cs s ret, 0.5 <= Ebbinghaus.update_stability cs s ret <= 30)
  ∧ (∃ cs s ret, Ebbinghaus.update_stability cs s ret > 10).
Proof.
  intros Hops. split; [|split].
  - intros k r Hk. apply record_at_lookup in Hk as <-.
    apply run_in_range; [done|].
    intros k'. unfold record_at, in_range. simpl. rewrite lookup_empty. simpl. lra.
  - apply update_stability_range.
  - exists 20, 1, 1. rewrite update_stability_above_ten. lra.
Qed.

(** C9 as stated fails for a negative weight: a practice with score 1 and
then a credit with weight -30 and base score -1 leave the stability at
-2.4. *)
Lemma stability_negative_weight :
  let ops :=
    [Practice 0 "p" 1 "" 0; FireCredit (λ _, 1) "t" [("p", -30)] (-1)] in
  ∃ r, MasteryTracker.records (run ops MasteryTracker.empty) !! "p" = Some r
       ∧ MasteryRecord.stability r < 0.5.
Proof.
  intros ops. unfold ops, run. cbn [foldl step].
  unfold MasteryTracker.record_practice, MasteryTracker.get_record.
  cbn [MasteryTracker.records MasteryTracker.empty].
  rewrite lookup_empty.
  unfold MasteryRecord.record_practice.
  cbn [MasteryRecord.level MasteryRecord.fresh].
  rewrite from_score_unknown by lra. cbn [bind fst].
  unfold MasteryTracker.apply_fire_credit. cbn [foldl].
  unfold MasteryTracker.fire_credit_step, MasteryTracker.get_record.
  destruct (Rge_dec (-1 * -30) 0.3); [|lra].
  cbn [MasteryTracker.records]. rewrite lookup_insert_eq. cbn.
  rewrite lookup_insert_eq. eexists. split; [reflexivity|]. cbn.
  destruct (Rge_dec 1 0.7); [|lra].
  rewrite !py_min_Rmin. unfold Rmin.
  repeat destruct (Rle_dec _ _); lra.
Qed.

End Tracker.

(** ** The review scheduler *)

Section Scheduler.
Local Open Scope R_scope.

Lemma optimal_review_interval_ok target S :
  0 < target < 1 →
  Ebbinghaus.optimal_review_interval target S = Ok (- S * ln target).
Proof.
  intros H. unfold Ebbinghaus.optimal_review_interval.
  destruct (Rle_dec target 0); [lra|]. destruct (Rge_dec target 1); [lra|done].
Qed.

Lemma optimal_review_interval_invalid target S :
  1 <= target →
  Ebbinghaus.optimal_review_interval target S = Raise InvalidTarget.
Proof.
  intros H. unfold Ebbinghaus.optimal_review_interval.
  destruct (Rle_dec target 0); [done|]. destruct (Rge_dec target 1); [done|lra].
Qed.

Lemma optimal_review_interval_raise target S e :
  Ebbinghaus.optimal_review_interval target S = Raise e →
  e = InvalidTarget ∧ ¬ (0 < target < 1).
Proof.
  unfold Ebbinghaus.optimal_review_interval.
  destruct (Rle_dec target 0); [intros [= <-]; split; [done|lra]|].
  destruct (Rge_dec target 1); [intros [= <-]; split; [done|lra]|done].
Qed.

Lemma get_review_priority_nonneg r imp d :
  0 <= imp → 0 <= d → 0 <= Ebbinghaus.get_review_priority r imp d.
Proof.
  intros Himp Hd. unfold Ebbinghaus.get_review_priority. cbv zeta.
  rewrite py_min_Rmin.
  assert (0 <= (1 - r) ^ 2) by apply pow2_ge_0.
  assert (0 <= Rmin 1.0 (d / 7)) by (apply Rmin_glb; lra).
  apply Rmult_le_pos; [apply Rmult_le_pos; lra|lra].
Qed.

(** *** The retention the scheduler computes, and when it raises *)

Lemma scheduler_retention_range now r v :
  scheduler_retention now r = Returned v → 0 <= v <= 1.
Proof.
  unfold scheduler_retention.
  destruct (MasteryRecord.last_review r);
    [apply calculate_retention_range|intros [= <-]; lra].
Qed.

Lemma calculate_retention_thrown t S e :
  Ebbinghaus.calculate_retention t S = Thrown e →
  e = OverflowError ∧ 0 < S ∧ - t / S <= DBL_MAX < exp (- t / S).
Proof.
  destruct (Rle_dec S 0) as [HS|HS].
  { by rewrite calculate_retention_nonpos. }
  rewrite calculate_retention_cases by lra.
  destruct (Rlt_dec DBL_MAX (- t / S)); [done|].
  destruct (Rlt_dec DBL_MAX (exp (- t / S))).
  - intros [= <-]. split; [done|]. lra.
  - by destruct (Rlt_dec (exp (- t / S)) DBL_TINY).
Qed.

Lemma calculate_retention_overflow t S :
  0 < S → - t / S <= DBL_MAX < exp (- t / S) →
  Ebbinghaus.calculate_retention t S = Thrown OverflowError.
Proof.
  intros HS Hx. rewrite calculate_retention_cases by done.
  destruct (Rlt_dec DBL_MAX (- t / S)); [lra|].
  destruct (Rlt_dec DBL_MAX (exp (- t / S))); [done|lra].
Qed.

Lemma scheduler_retention_thrown now r e :
  scheduler_retention now r = Thrown e ↔ e = OverflowError ∧ overflows now r.
Proof.
  unfold scheduler_retention, overflows. split.
  - destruct (MasteryRecord.last_review r) as [lr|]; [|done].
    intros (-> & HS & Hx)%calculate_retention_thrown.
    split; [done|]. exists lr. split; [done|]. split; [done|]. lra.
  - intros (-> & lr & -> & HS & Hx1 & Hx2).
    apply calculate_retention_overflow; [done|]. lra.
Qed.

Lemma scheduler_retention_returns now r :
  ¬ overflows now r → ∃ v, scheduler_retention now r = Returned v.
Proof.
  intros Hno. destruct (scheduler_retention now r) as [v|e] eqn:Heq; [eauto|].
  apply scheduler_retention_thrown in Heq as [_ ?]. done.
Qed.

(** [math.exp] overflows only for a last review that lies ahead of the
clock. *)
Lemma overflows_ahead now r :
  overflows now r →
  ∃ lr, MasteryRecord.last_review r = Some lr ∧ now < lr.
Proof.
  intros (lr & Hlr & HS & _ & Hx). exists lr. split; [done|].
  destruct (Rle_dec lr now) as [Hle|]; [|lra].
  assert (- (now - lr) / MasteryRecord.stability r <= 0) as H0.
  { assert (0 <= (now - lr) * / MasteryRecord.stability r).
    { apply Rmult_le_pos; [lra|]. left. by apply Rinv_0_lt_compat. }
    unfold Rdiv. lra. }
  pose proof (exp_le_1 _ H0). pose proof DBL_MAX_ge_1. lra.
Qed.

Lemma not_overflows_unreviewed now r :
  MasteryRecord.last_review r = None → ¬ overflows now r.
Proof. intros Hr (lr & Hlr & _). congruence. Qed.

Lemma not_overflows_past now r lr :
  MasteryRecord.last_review r = Some lr → lr <= now → ¬ overflows now r.
Proof.
  intros Hr Hle (lr' & Hlr & Hlt)%overflows_ahead.
  rewrite Hr in Hlr. injection Hlr as <-. lra.
Qed.

(** *** One round of the loop of [get_due_reviews] *)

Lemma due_item_unknown self now threshold r :
  MasteryRecord.level r = MasteryLevel.UNKNOWN →
  ReviewScheduler.due_item self now threshold r = Returned None.
Proof. intros Hl. unfold ReviewScheduler.due_item. by rewrite decide_True. Qed.

(** What a round yields, whenever it yields an item. *)
Lemma due_item_some self now threshold r it :
  ReviewScheduler.due_item self now threshold r = Returned (Some it) →
  MasteryRecord.level r ≠ MasteryLevel.UNKNOWN
  ∧ ReviewItem.topic_id it = MasteryRecord.topic_id r
  ∧ scheduler_retention now r = Returned (ReviewItem.retention it)
  ∧ ReviewItem.retention it < threshold
  ∧ 0 <= ReviewItem.priority it
  ∧ ReviewItem.mastery_level it
    = MasteryLevel.name_lower (MasteryRecord.level r).
Proof.
  unfold ReviewScheduler.due_item, scheduler_retention.
  case_decide as Hl; [done|].
  assert (0 <= 1 + IZR (MasteryLevel.value (MasteryRecord.level r)) * 0.2)
    as Hw.
  { destruct (MasteryRecord.level r); simpl; lra. }
  destruct (MasteryRecord.last_review r) as [lr|].
  - destruct (Ebbinghaus.calculate_retention _ _) as [v|]; [|done].
    cbn [obind]. destruct (Rge_dec _ _) as [|Hlt]; [done|].
    destruct (Ebbinghaus.optimal_review_interval _ _); [|done].
    cbn [lift obind].
    destruct (Ebbinghaus.next_review_date _ _ _); [|done]. cbn [lift obind].
    intros [= <-]. cbn. repeat split; try done; try lra.
    apply get_review_priority_nonneg; [done|].
    rewrite py_max_Rmax. apply Rmax_l.
  - cbn [obind]. destruct (Rge_dec _ _) as [|Hlt]; [done|].
    destruct (Ebbinghaus.optimal_review_interval _ _); [|done].
    cbn [lift obind].
    intros [= <-]. cbn. repeat split; try done; try lra.
    apply get_review_priority_nonneg; [done|].
    rewrite py_max_Rmax. apply Rmax_l.
Qed.

(** A round yields an item for a learned record whose retention is below
the threshold. *)
Lemma due_item_due self now threshold r v :
  0 < threshold < 1 →
  0 < Ebbinghaus.target_retention (ReviewScheduler.schedule self) < 1 →
  MasteryRecord.level r ≠ MasteryLevel.UNKNOWN →
  scheduler_retention now r = Returned v →
  v < threshold →
  ∃ it, ReviewScheduler.due_item self now threshold r = Returned (Some it).
Proof.
  intros Ht Hs Hl Hr Hv.
  unfold ReviewScheduler.due_item, scheduler_retention in *.
  case_decide; [done|].
  destruct (MasteryRecord.last_review r) as [lr|].
  - rewrite Hr. cbn [obind]. destruct (Rge_dec _ _); [lra|].
    rewrite optimal_review_interval_ok by done. cbn [lift obind].
    unfold Ebbinghaus.next_review_date.
    rewrite optimal_review_interval_ok by done. cbn [bind lift obind]. eauto.
  - injection Hr as <-. cbn [obind]. destruct (Rge_dec _ _); [lra|].
    rewrite optimal_review_interval_ok by done. cbn [lift obind]. eauto.
Qed.

(** A round yields nothing for a record whose retention is not below the
threshold. *)
Lemma due_item_kept self now threshold r v :
  scheduler_retention now r = Returned v →
  threshold <= v →
  ReviewScheduler.due_item self now threshold r = Returned None.
Proof.
  intros Hr Hv. unfold ReviewScheduler.due_item, scheduler_retention in *.
  case_decide; [done|].
  destruct (MasteryRecord.last_review r) as [lr|].
  - rewrite Hr. cbn [obind]. destruct (Rge_dec _ _); [done|lra].
  - injection Hr as <-. cbn [obind]. destruct (Rge_dec _ _); [done|lra].
Qed.

(** A round raises the invalid-target error for a learned record whose
retention is below a threshold of 1 or more. *)
Lemma due_item_invalid self now threshold r v :
  1 <= threshold →
  MasteryRecord.level r ≠ MasteryLevel.UNKNOWN →
  scheduler_retention now r = Returned v →
  v < threshold →
  ReviewScheduler.due_item self now threshold r = Thrown (Lib InvalidTarget).
Proof.
  intros Ht Hl Hr Hv. unfold ReviewScheduler.due_item, scheduler_retention in *.
  case_decide; [done|].
  destruct (MasteryRecord.last_review r) as [lr|].
  - rewrite Hr. cbn [obind]. destruct (Rge_dec _ _); [lra|].
    by rewrite optimal_review_interval_invalid.
  - injection Hr as <-. cbn [obind]. destruct (Rge_dec _ _); [lra|].
    by rewrite optimal_review_interval_invalid.
Qed.

(** What a round raises: the [OverflowError] of [math.exp], or the
invalid-target error of [optimal_review_interval]. *)
Lemma due_item_thrown self now threshold r e :
  ReviewScheduler.due_item self now threshold r = Thrown e →
  MasteryRecord.level r ≠ MasteryLevel.UNKNOWN
  ∧ ((e = OverflowError ∧ overflows now r)
     ∨ (e = Lib InvalidTarget
        ∧ (¬ (0 < threshold < 1)
           ∨ ¬ (0 < Ebbinghaus.target_retention (ReviewScheduler.schedule self)
                < 1)))).
Proof.
  pose proof (scheduler_retention_thrown now r) as Hthrown.
  unfold ReviewScheduler.due_item, scheduler_retention in *.
  case_decide as Hl; [done|]. intros Hd. split; [done|]. revert Hd.
  destruct (MasteryRecord.last_review r) as [lr|].
  - destruct (Ebbinghaus.calculate_retention _ _) as [v|e'].
    2:{ cbn [obind]. intros [= <-]. left. by apply Hthrown. }
    cbn [obind]. destruct (Rge_dec _ _) as [|Hlt]; [done|].
    destruct (Ebbinghaus.optimal_review_interval threshold _) eqn:Ho.
    2:{ cbn [lift obind]. intros [= <-].
        apply optimal_review_interval_raise in Ho as [-> ?]. auto. }
    cbn [lift obind]. unfold Ebbinghaus.next_review_date.
    destruct (Ebbinghaus.optimal_review_interval
                (Ebbinghaus.target_retention _) _) eqn:Ho';
      cbn [bind lift obind]; [done|].
    intros [= <-].
    apply optimal_review_interval_raise in Ho' as [-> ?]. auto.
  - cbn [obind]. destruct (Rge_dec _ _) as [|Hlt]; [done|].
    destruct (Ebbinghaus.optimal_review_interval threshold _) eqn:Ho;
      cbn [lift obind]; [done|].
    intros [= <-].
    apply optimal_review_interval_raise in Ho as [-> ?]. auto.
Qed.

Lemma due_item_overflow self now threshold r :
  MasteryRecord.level r ≠ MasteryLevel.UNKNOWN →
  overflows now r →
  ReviewScheduler.due_item self now threshold r = Thrown OverflowError.
Proof.
  intros Hl Ho.
  assert (scheduler_retention now r = Thrown OverflowError) as Hr
    by by apply scheduler_retention_thrown.
  unfold ReviewScheduler.due_item, scheduler_retention in *.
  case_decide; [done|].
  destruct (MasteryRecord.last_review r) as [lr|]; [|done].
  by rewrite Hr.
Qed.

Lemma due_item_ok self now threshold record :
  0 < threshold < 1 →
  0 < Ebbinghaus.target_retention (ReviewScheduler.schedule self) < 1 →
  (MasteryRecord.level record ≠ MasteryLevel.UNKNOWN →
   ¬ overflows now record) →
  ∃ o, ReviewScheduler.due_item self now threshold record = Returned o.
Proof.
  intros Ht Hs Hno.
  destruct (ReviewScheduler.due_item self now threshold record) as [o|e]
    eqn:Hd; [eauto|].
  apply due_item_thrown in Hd as [Hl [[_ Ho]|[_ [?|?]]]]; try done.
  by destruct Hno.
Qed.

Lemma due_item_unreviewed self now threshold record :
  MasteryRecord.level record ≠ MasteryLevel.UNKNOWN →
  MasteryRecord.last_review record = None →
  0 <= MasteryRecord.stability record →
  0 < threshold < 1 →
  ReviewScheduler.due_item self now threshold record
  = Returned (Some (unreviewed_item record)).
Proof.
  intros Hl Hr Hs Ht. unfold ReviewScheduler.due_item.
  case_decide; [done|]. rewrite Hr. cbn [obind].
  destruct (Rge_dec 0.0 threshold); [lra|].
  rewrite optimal_review_interval_ok by done. cbn [lift obind].
  unfold unreviewed_item. do 3 f_equal.
  f_equal. rewrite py_max_Rmax.
  assert (ln threshold < 0).
  { rewrite <- ln_1. apply ln_increasing; lra. }
  apply Rmax_left. nra.
Qed.

(** *** The whole loop *)

Lemma due_items_spec self now threshold records items :
  (∀ k r, (k, r) ∈ records →
          ∃ o, ReviewScheduler.due_item self (now k) threshold r
               = Returned o) →
  ∃ items',
    ReviewScheduler.due_items self now threshold records items
    = Returned items'
    ∧ (∀ it, it ∈ items → it ∈ items')
    ∧ (∀ k r it, (k, r) ∈ records →
         ReviewScheduler.due_item self (now k) threshold r
         = Returned (Some it) →
         it ∈ items').
Proof.
  revert items. induction records as [|[k r] records IH]; intros items Hok.
  - exists items. split; [done|]. split; [done|].
    intros k r it Hin. by apply elem_of_nil in Hin.
  - cbn [ReviewScheduler.due_items].
    destruct (Hok k r) as [o Ho]; [left|]. rewrite Ho. cbn [obind].
    destruct (IH (match o with Some item => items ++ [item] | None => items end))
      as (items' & Heq & Hsub & Hall).
    { intros k' r' Hin. apply Hok. by right. }
    exists items'. split; [done|]. split.
    + intros it Hit. apply Hsub. destruct o; [|done].
      apply elem_of_app. by left.
    + intros k' r' it Hin Hd. apply elem_of_cons in Hin as [[= -> ->]|Hin].
      * rewrite Ho in Hd. injection Hd as ->. apply Hsub.
        apply elem_of_app. right. by left.
      * by eapply Hall.
Qed.

Lemma due_items_sound self now threshold records items items' :
  ReviewScheduler.due_items self now threshold records items
  = Returned items' →
  ∀ it, it ∈ items' →
    it ∈ items
    ∨ ∃ k r, (k, r) ∈ records
             ∧ ReviewScheduler.due_item self (now k) threshold r
               = Returned (Some it).
Proof.
  revert items. induction records as [|[k r] records IH]; intros items.
  - cbn. intros [= <-] it Hit. by left.
  - cbn [ReviewScheduler.due_items].
    destruct (ReviewScheduler.due_item self (now k) threshold r) as [o|]
      eqn:Ho; [|done].
    cbn [obind]. intros Heq it Hit.
    destruct (IH _ Heq it Hit) as [Hin|(k' & r' & Hin & Hd)].
    + destruct o as [it'|]; [|by left].
      apply elem_of_app in Hin as [Hin|Hin]; [by left|].
      apply list_elem_of_singleton in Hin as ->.
      right. exists k, r. split; [left|done].
    + right. exists k', r'. split; [by right|done].
Qed.

Lemma due_items_length self now threshold records items items' :
  ReviewScheduler.due_items self now threshold records items
  = Returned items' →
  (length items' ≤ length items + length records)%nat.
Proof.
  revert items. induction records as [|[k r] records IH]; intros items.
  - cbn. intros [= <-]. lia.
  - cbn [ReviewScheduler.due_items].
    destruct (ReviewScheduler.due_item _ _ _ _) as [o|]; [|done].
    cbn [obind]. intros Hout%IH.
    destruct o; rewrite ?length_app in Hout; simpl in *; lia.
Qed.

Lemma due_items_thrown self now threshold records items e :
  ReviewScheduler.due_items self now threshold records items = Thrown e →
  ∃ k r, (k, r) ∈ records
         ∧ ReviewScheduler.due_item self (now k) threshold r = Thrown e.
Proof.
  revert items. induction records as [|[k r] records IH]; intros items.
  - done.
  - cbn [ReviewScheduler.due_items].
    destruct (ReviewScheduler.due_item self (now k) threshold r) as [o|e']
      eqn:Ho.
    + cbn [obind]. intros (k' & r' & Hin & Hd)%IH.
      exists k', r'. split; [by right|done].
    + cbn [obind]. intros [= <-]. exists k, r. split; [left|done].
Qed.

Lemma due_items_none self now threshold records items :
  (∀ k r, (k, r) ∈ records →
          ReviewScheduler.due_item self (now k) threshold r
          = Returned None) →
  ReviewScheduler.due_items self now threshold records items
  = Returned items.
Proof.
  revert items. induction records as [|[k r] records IH]; intros items Hall.
  - done.
  - cbn [ReviewScheduler.due_items]. rewrite (Hall k r) by left.
    cbn [obind]. apply IH. intros k' r' Hin. apply Hall. by right.
Qed.

(** The loop raises [e] when one round raises it and no round raises
anything else. *)
Lemma due_items_raises self now threshold records items k r e :
  (k, r) ∈ records →
  ReviewScheduler.due_item self (now k) threshold r = Thrown e →
  (∀ k' r' e', (k', r') ∈ records →
     ReviewScheduler.due_item self (now k') threshold r' = Thrown e' →
     e' = e) →
  ReviewScheduler.due_items self now threshold records items = Thrown e.
Proof.
  revert items. induction records as [|[k0 r0] records IH];
    intros items Hin Hr Hsame.
  - by apply elem_of_nil in Hin.
  - cbn [ReviewScheduler.due_items].
    destruct (ReviewScheduler.due_item self (now k0) threshold r0) as [o|e']
      eqn:Ho.
    + cbn [obind]. apply IH.
      * apply elem_of_cons in Hin as [[= -> ->]|Hin]; [congruence|done].
      * done.
      * intros k' r' e' Hin'. apply Hsame. by right.
    + cbn [obind]. f_equal. eapply Hsame; [left|done].
Qed.

Lemma py_take_nil {A} (n : Z) : py_take n (@nil A) = [].
Proof. unfold py_take. case_decide; by rewrite take_nil. Qed.

Lemma length_py_take {A} (n : Z) (l : list A) :
  (0 ≤ n)%Z → (Z.of_nat (length (py_take n l)) ≤ n)%Z.
Proof.
  intros Hn. unfold py_take. rewrite decide_True by done.
  rewrite length_take. lia.
Qed.

Lemma py_take_prefix {A} (n : Z) (l : list A) :
  ∃ m, py_take n l = take m l.
Proof. unfold py_take. case_decide; eauto. Qed.

Context {DO : DictOrder}.

(** With a threshold of 0 or less no record is due. *)
Lemma get_due_reviews_low self now limit threshold :
  threshold <= 0 →
  no_overflow now (ReviewScheduler.mastery self) →
  ReviewScheduler.get_due_reviews self now limit threshold = Returned [].
Proof.
  intros Ht Hno. unfold ReviewScheduler.get_due_reviews.
  rewrite due_items_none; [cbn [obind py_sorted foldr]; by rewrite py_take_nil|].
  intros k r Hin%elem_of_dict_iter.
  destruct (decide (MasteryRecord.level r = MasteryLevel.UNKNOWN)) as [|Hl].
  { by apply due_item_unknown. }
  destruct (scheduler_retention_returns (now k) r) as [v Hv].
  { by apply (Hno k r). }
  apply (due_item_kept _ _ _ _ v); [done|].
  apply scheduler_retention_range in Hv. lra.
Qed.

(** With a threshold of 1 or more the call raises as soon as one learned
record has a retention below the threshold. *)
Lemma get_due_reviews_high self now limit threshold k r v :
  1 <= threshold →
  no_overflow now (ReviewScheduler.mastery self) →
  MasteryTracker.records (ReviewScheduler.mastery self) !! k = Some r →
  MasteryRecord.level r ≠ MasteryLevel.UNKNOWN →
  scheduler_retention (now k) r = Returned v →
  v < threshold →
  ReviewScheduler.get_due_reviews self now limit threshold
  = Thrown (Lib InvalidTarget).
Proof.
  intros Ht Hno Hk Hl Hv Hlt. unfold ReviewScheduler.get_due_reviews.
  rewrite (due_items_raises self now threshold _ [] k r (Lib InvalidTarget));
    [done|by apply elem_of_dict_iter|by eapply due_item_invalid|].
  intros k' r' e' Hin%elem_of_dict_iter Hd.
  apply due_item_thrown in Hd as [Hl' [[_ Ho]|[-> _]]]; [|done].
  by destruct (Hno k' r').
Qed.

(** C10, as amended. For a stored record whose level is not Unknown, whose
last review is absent and whose stability is not negative, with a scheduler
whose target retention is strictly between 0 and 1, and clock readings at
which [math.exp] overflows for no learned record (none has a last review
far ahead of the clock). With a threshold strictly between 0 and 1,
[get_due_reviews] returns the list [items] that its loop builds, sorted by
decreasing priority and cut to [limit]; [items] holds an item for the
record, with retention 0, days since review 0, the priority computed with 0
days overdue, and no optimal review date; that item is in the list returned
when [limit] is at least the length of [items]. With a threshold of 1 or
more the call raises the invalid-target error; with a threshold of 0 or
less it returns the empty list. *)
Theorem due_reviews_unreviewed (self : ReviewScheduler.t) (now : string → R)
    (limit : Z) (threshold : R) (k : string) (record : MasteryRecord.t) :
  MasteryTracker.records (ReviewScheduler.mastery self) !! k = Some record →
  MasteryRecord.level record ≠ MasteryLevel.UNKNOWN →
  MasteryRecord.last_review record = None →
  0 <= MasteryRecord.stability record →
  0 < Ebbinghaus.target_retention (ReviewScheduler.schedule self) < 1 →
  no_overflow now (ReviewScheduler.mastery self) →
  (0 < threshold < 1 →
   ∃ items due item,
     ReviewScheduler.due_items
       self now threshold
       (dict_iter (MasteryTracker.records (ReviewScheduler.mastery self))) []
     = Returned items
     ∧ ReviewScheduler.get_due_reviews self now limit threshold
       = Returned due
     ∧ due = py_take limit (py_sorted ReviewScheduler.by_priority items)
     ∧ item ∈ items
     ∧ ((Z.of_nat (length items) ≤ limit)%Z → item ∈ due)
     ∧ ReviewItem.topic_id item = MasteryRecord.topic_id record
     ∧ ReviewItem.retention item = 0
     ∧ ReviewItem.days_since_review item = 0
     ∧ ReviewItem.priority item
       = Ebbinghaus.get_review_priority
           0 (1 + IZR (MasteryLevel.value (MasteryRecord.level record)) * 0.2)
           0
     ∧ ReviewItem.optimal_review_date item = None
     ∧ ReviewItem.mastery_level item
       = MasteryLevel.name_lower (MasteryRecord.level record))
  ∧ (1 <= threshold →
     ReviewScheduler.get_due_reviews self now limit threshold
     = Thrown (Lib InvalidTarget))
  ∧ (threshold <= 0 →
     ReviewScheduler.get_due_reviews self now limit threshold = Returned []).
Proof.
  intros Hk Hl Hr Hs Hsched Hno. split; [|split].
  - intros Ht. unfold ReviewScheduler.get_due_reviews.
    destruct (due_items_spec self now threshold
                (dict_iter (MasteryTracker.records
                              (ReviewScheduler.mastery self))) [])
      as (items & Heq & _ & Hall).
    { intros k' r' Hin%elem_of_dict_iter. apply due_item_ok; [done..|].
      by apply (Hno k' r'). }
    rewrite Heq. cbn [obind].
    assert (unreviewed_item record ∈ items) as Hin.
    { apply (Hall k record); [by apply elem_of_dict_iter|].
      by apply due_item_unreviewed. }
    exists items, (py_take limit (py_sorted ReviewScheduler.by_priority items)),
      (unreviewed_item record).
    split; [done|]. split; [done|]. split; [done|]. split; [done|].
    split.
    { intros Hlim. rewrite py_take_all by (by rewrite py_sorted_length).
      by rewrite py_sorted_Permutation. }
    cbn. repeat split; try done; try lra.
    f_equal; lra.
  - intros Ht.
    apply (get_due_reviews_high self now limit threshold k record 0.0);
      try done; [|lra].
    unfold scheduler_retention. by rewrite Hr.
  - intros Ht. by apply get_due_reviews_low.
Qed.

End Scheduler.

(** ** More on the knowledge graph *)

Section GraphOutcomes.
Context {SO : SetOrder}.
Import KnowledgeGraph.
Implicit Types (g : KnowledgeGraph.t) (x y : string).

(** X1. Every graph built from the empty graph by [add_topic] and
[add_prerequisite] calls is a DAG: no topic is a transitive prerequisite of
itself, [dependents] is the inverse of [prerequisites], both ends of every
edge are registered topics, and every topic is stored under its own id. *)
Theorem built_graph_is_dag (g : KnowledgeGraph.t) :
  built g →
  (∀ x, ¬ tc (prereq_edge g) x x)
  ∧ (∀ x y, y ∈ prereqs_of g x ↔ x ∈ dependents_of g y)
  ∧ (∀ x y, y ∈ prereqs_of g x → x ∈ dom (topics g) ∧ y ∈ dom (topics g))
  ∧ (∀ k t, topics g !! k = Some t → Topic.id t = k).
Proof.
  intros [[Hids Hreg Hmir] Hac]%built_well_formed.
  split; [exact Hac|]. split; [exact Hmir|]. split; [exact Hreg|exact Hids].
Qed.

(** X2. The outcome of [add_prerequisite(topic_id, prereq_id)] on any
graph. It raises, leaving the graph as it was, exactly when the topic is not
registered, or else the prerequisite is not registered, or else [prereq_id]
is reachable from [topic_id] along dependents (tested in that order).
Otherwise it returns, the topics are unchanged, and exactly the edge is added
to [prerequisites] and its inverse to [dependents]. *)
Theorem add_prerequisite_outcome (g : KnowledgeGraph.t)
    (topic_id prereq_id : string) :
  match add_prerequisite topic_id prereq_id g with
  | (g', Raise e) =>
    g' = g
    ∧ ((e = TopicNotFound topic_id ∧ topic_id ∉ dom (topics g))
       ∨ (e = PrerequisiteNotFound prereq_id
          ∧ topic_id ∈ dom (topics g) ∧ prereq_id ∉ dom (topics g))
       ∨ (e = CycleDetected prereq_id topic_id
          ∧ topic_id ∈ dom (topics g) ∧ prereq_id ∈ dom (topics g)
          ∧ rtc (dep_edge g) topic_id prereq_id))
  | (g', Ok _) =>
    topic_id ∈ dom (topics g) ∧ prereq_id ∈ dom (topics g)
    ∧ ¬ rtc (dep_edge g) topic_id prereq_id
    ∧ topics g' = topics g
    ∧ (∀ x y, y ∈ prereqs_of g' x
              ↔ (x = topic_id ∧ y = prereq_id) ∨ y ∈ prereqs_of g x)
    ∧ (∀ x y, y ∈ dependents_of g' x
              ↔ (x = prereq_id ∧ y = topic_id) ∨ y ∈ dependents_of g x)
  end.
Proof.
  destruct (add_prerequisite topic_id prereq_id g) as [g' [[]|e]] eqn:E.
  - apply add_prerequisite_Ok in E as (Ht & Hp & Hno & Htop & Hpre & Hdep).
    split; [done|]. split; [done|]. split; [done|]. split; [done|]. split.
    + intros x y. unfold prereqs_of. rewrite Hpre. apply adj_add_lookup.
    + intros x y. unfold dependents_of. rewrite Hdep. apply adj_add_lookup.
  - revert E. unfold add_prerequisite.
    case_decide as Ht; [intros [= <- <-]; split; [done|]; by left|].
    case_decide as Hp; [intros [= <- <-]; split; [done|]; right; by left|].
    destruct (_would_create_cycle g topic_id prereq_id) eqn:Hc; [|done].
    intros [= <- <-]. split; [done|]. right. right.
    split; [done|]. split; [done|]. split; [done|].
    by apply would_create_cycle_spec.
Qed.

Lemma adj_add_present (d : gmap string (gset string)) k x :
  x ∈ default ∅ (d !! k) → adj_add d k x = d.
Proof.
  unfold adj_add. intros Hx.
  destruct (d !! k) as [s|] eqn:E; simpl in *; [|set_solver].
  apply insert_id. rewrite E. f_equal. set_solver.
Qed.

(** X3. In a well-formed acyclic graph, adding a prerequisite edge that
is already there succeeds and changes nothing. *)
Theorem add_prerequisite_again (g : KnowledgeGraph.t)
    (topic_id prereq_id : string) :
  well_formed g → acyclic g →
  prereq_id ∈ prereqs_of g topic_id →
  add_prerequisite topic_id prereq_id g = (g, Ok ()).
Proof.
  intros Hwf Hac Hedge.
  destruct (wf_registered g Hwf topic_id prereq_id Hedge) as [Ht Hp].
  unfold add_prerequisite.
  rewrite decide_False by (by intros ?).
  rewrite decide_False by (by intros ?).
  destruct (_would_create_cycle g topic_id prereq_id) eqn:Hc.
  - exfalso. apply would_create_cycle_spec in Hc.
    apply (Hac topic_id). eapply tc_rtc_r; [by apply tc_once|].
    clear Hedge Ht Hp. induction Hc as [|a b c Hab _ IH]; [done|].
    eapply rtc_r; [exact IH|]. by apply (wf_mirror g Hwf).
  - f_equal. rewrite !adj_add_present.
    + by destruct g.
    + by apply (wf_mirror g Hwf).
    + done.
Qed.

End GraphOutcomes.

(** ** Learning paths are complete *)

Section PathCompleteness.
Context {SO : SetOrder}.
Import KnowledgeGraph.
Implicit Types (g : KnowledgeGraph.t) (x y : string) (S : gset string).
Implicit Types (deg : gmap string Z) (queue ds ids : list string).

Lemma remaining_zero_intro g S emitted x :
  (∀ p, p ∈ prereqs_of g x → p ∈ S → p ∈ emitted) →
  remaining g S emitted x = 0.
Proof.
  unfold remaining. intros Hall.
  assert (∀ l : list string, (∀ p, p ∈ l → p ∈ prereqs_of g x) →
            filter (λ p, p ∈ S ∧ p ∉ emitted) l = []) as Hl.
  { induction l as [|a l IH]; intros Hin; [done|].
    rewrite filter_cons_False.
    - apply IH. intros p Hp. apply Hin. by right.
    - intros [HaS Ha]. apply Ha, Hall; [|done]. apply Hin. left. }
  rewrite Hl; [done|]. intros p Hp. by apply elem_of_elements.
Qed.

(** Every id of the subset whose prerequisites in the subset are all
emitted is itself emitted or queued: kept by the main loop of
[_topological_sort]. *)
Lemma topo_ready_step g S deg c queue ids :
  well_formed g →
  topo_inv g S deg (c :: queue) ids →
  (∀ x, x ∈ S → remaining g S ids x = 0 → x ∈ ids ++ c :: queue) →
  ∀ x, x ∈ S → remaining g S (ids ++ [c]) x = 0 →
       x ∈ (ids ++ [c])
           ++ (release deg queue (set_iter (dependents_of g c))).2.
Proof.
  intros Hwf [Hdeg Hnd Hsub Hzero Horder] Hready x HxS Hrem.
  assert (c ∈ S) as HcS by (apply Hsub, elem_of_app; right; left).
  assert (c ∉ ids) as Hcids.
  { apply NoDup_app in Hnd as (_ & Hdisj & _). intros Hc.
    apply (Hdisj c Hc). left. }
  rewrite release_queue by apply NoDup_set_iter.
  pose proof (remaining_emit g S ids c x HcS Hcids) as He.
  rewrite Hrem in He. destruct (decide (c ∈ prereqs_of g x)) as [Hc|Hc].
  - rewrite !elem_of_app. right. right. apply list_elem_of_filter. split.
    + rewrite Hdeg, decide_True by done. f_equal. lia.
    + apply elem_of_set_iter. by apply (wf_mirror g Hwf).
  - assert (x ∈ ids ++ c :: queue) as Hx by (apply Hready; [done|lia]).
    rewrite !elem_of_app, elem_of_cons in Hx. rewrite !elem_of_app.
    rewrite list_elem_of_singleton. tauto.
Qed.

Lemma topo_loop_complete fuel g S deg queue out r :
  well_formed g → S ⊆ dom (topics g) →
  topo_inv g S deg queue (Topic.id <$> out) →
  (∀ x, x ∈ S → remaining g S (Topic.id <$> out) x = 0 →
        x ∈ (Topic.id <$> out) ++ queue) →
  Forall (λ t, topics g !! Topic.id t = Some t) out →
  topo_loop fuel g deg queue out = Some r →
  ∃ out',
    r = Ok out'
    ∧ (∀ x, x ∈ S → remaining g S (Topic.id <$> out') x = 0 →
            x ∈ Topic.id <$> out')
    ∧ Forall (λ t, topics g !! Topic.id t = Some t) out'.
Proof.
  intros Hwf HS. revert deg queue out.
  induction fuel as [|fuel IH]; intros deg queue out Hinv Hready Hreg; [done|].
  destruct queue as [|c queue]; simpl.
  { intros [= <-]. exists out. split; [done|]. split; [|done].
    intros x HxS Hx. specialize (Hready x HxS Hx).
    by rewrite app_nil_r in Hready. }
  assert (c ∈ dom (topics g)) as [t Ht]%elem_of_dom.
  { apply HS, (ti_sub _ _ _ _ _ Hinv), elem_of_app. right. left. }
  rewrite Ht. pose proof (wf_ids g Hwf c t Ht) as Hid.
  apply IH.
  - rewrite fmap_app. simpl. rewrite Hid. by apply topo_inv_step.
  - rewrite fmap_app. simpl. rewrite Hid. by apply topo_ready_step.
  - apply Forall_app. split; [done|]. apply Forall_singleton. by rewrite Hid.
Qed.

(** What the main loop establishes without acyclicity: the call returns,
an id whose prerequisites in the subset are all listed is listed, and every
listed topic is the one registered under its id. *)
Lemma topological_sort_ready g S :
  well_formed g → S ⊆ dom (topics g) →
  ∃ out,
    _topological_sort g S = Ok out
    ∧ (∀ x, x ∈ S → remaining g S (Topic.id <$> out) x = 0 →
            x ∈ Topic.id <$> out)
    ∧ Forall (λ t, topics g !! Topic.id t = Some t) out.
Proof.
  intros Hwf HS. unfold _topological_sort. cbv zeta.
  set (deg := in_degree_of g S).
  set (queue := filter (λ tid, deg !! tid = Some 0%Z) (set_iter S)).
  destruct (topo_loop_fuel (topo_fuel deg queue) g deg queue [])
    as [r Hr]; [unfold topo_fuel, positives; lia|].
  rewrite Hr.
  destruct (topo_loop_complete (topo_fuel deg queue) g S deg queue [] r
              Hwf HS (topo_inv_init g S))
    as (out & -> & Hready & Hreg); [|done|done|].
  { intros x HxS Hx. simpl. apply list_elem_of_filter. split.
    - unfold deg. rewrite in_degree_of_lookup, decide_True by done.
      simpl in Hx. by rewrite Hx.
    - by apply elem_of_set_iter. }
  by exists out.
Qed.

(** Every transitive prerequisite is registered, so chains of prerequisites
are finite in an acyclic graph. *)
Lemma tc_registered g x y :
  well_formed g → tc (prereq_edge g) x y → y ∈ dom (topics g).
Proof.
  intros Hwf Hy. induction Hy as [a b Hab|a b c Hab _ IH]; [|done].
  by apply (wf_registered g Hwf a b).
Qed.

Lemma prereq_edge_sn g x :
  well_formed g → acyclic g → sn (prereq_edge g) x.
Proof.
  intros Hwf Hac. apply tc_finite_sn.
  - intros y. apply Hac.
  - exists (elements (dom (topics g))). intros y Hy.
    apply elem_of_elements. by eapply tc_registered.
Qed.

(** In an acyclic well-formed graph nothing of the subset is left out. *)
Lemma topological_sort_complete g S :
  well_formed g → acyclic g → S ⊆ dom (topics g) →
  ∃ out,
    _topological_sort g S = Ok out
    ∧ (∀ x, x ∈ S → x ∈ Topic.id <$> out)
    ∧ Forall (λ t, topics g !! Topic.id t = Some t) out.
Proof.
  intros Hwf Hac HS.
  destruct (topological_sort_ready g S Hwf HS) as (out & Heq & Hready & Hreg).
  exists out. split; [done|]. split; [|done].
  intros x. induction (prereq_edge_sn g x Hwf Hac) as [x _ IH]. intros HxS.
  apply Hready; [done|].
  apply remaining_zero_intro. intros p Hp HpS. by apply IH.
Qed.

(** The subset [get_learning_path] sorts. *)
Lemma learning_subset g target_id (completed : gset string) x :
  well_formed g →
  x ∈ (list_to_set (Topic.id <$> get_all_prerequisites g target_id)
       ∪ {[target_id]}) ∖ completed
  ↔ (x = target_id ∨ tc (prereq_edge g) target_id x) ∧ x ∉ completed.
Proof.
  intros Hwf.
  rewrite elem_of_difference, elem_of_union, elem_of_list_to_set,
    elem_of_singleton.
  rewrite ids_get_all_prerequisites, all_prereq_ids_spec by done. tauto.
Qed.

Lemma learning_subset_registered g target_id (completed : gset string) :
  well_formed g → target_id ∈ dom (topics g) →
  (list_to_set (Topic.id <$> get_all_prerequisites g target_id)
   ∪ {[target_id]}) ∖ completed ⊆ dom (topics g).
Proof.
  intros Hwf Ht x [[-> |Hx] _]%learning_subset; [done| |done].
  by eapply tc_registered.
Qed.

(** X4. In a well-formed acyclic graph, [get_learning_path] to a
registered target returns; its path lists, each once, exactly the target and
its transitive prerequisites that are not completed, and each listed topic is
the registered one. *)
Theorem get_learning_path_complete (g : KnowledgeGraph.t)
    (target_id : string) (completed_ids : option (gset string)) :
  well_formed g → acyclic g → target_id ∈ dom (topics g) →
  ∃ path,
    get_learning_path g target_id completed_ids = Ok path
    ∧ NoDup (Topic.id <$> path)
    ∧ (∀ x, x ∈ Topic.id <$> path
            ↔ (x = target_id ∨ tc (prereq_edge g) target_id x)
              ∧ x ∉ default ∅ completed_ids)
    ∧ (∀ t, t ∈ path → topics g !! Topic.id t = Some t).
Proof.
  intros Hwf Hac Ht. unfold get_learning_path.
  rewrite decide_False by (by intros ?). cbv zeta.
  pose proof (learning_subset_registered g target_id (default ∅ completed_ids)
                Hwf Ht) as HS.
  destruct (topological_sort_spec _ _ Hwf HS) as (path & Heq & Hnd & Hsub & _).
  destruct (topological_sort_complete _ _ Hwf Hac HS)
    as (path' & Heq' & Hall & Hreg).
  assert (path' = path) as -> by congruence.
  exists path. split; [done|]. split; [done|]. split.
  - intros x. rewrite <- learning_subset by done. split; [apply Hsub|apply Hall].
  - intros t Hin. by apply (proj1 (Forall_forall _ _) Hreg).
Qed.

End PathCompleteness.

(** ** Available topics *)

Section Available.
Context {SO : SetOrder} {DO : DictOrder}.
Import KnowledgeGraph.
Implicit Types (g : KnowledgeGraph.t) (x y : string).

#[local] Instance by_difficulty_trans : Transitive KnowledgeGraph.by_difficulty.
Proof. intros x y z. unfold KnowledgeGraph.by_difficulty. apply Rle_trans. Qed.

#[local] Instance by_difficulty_total : Total KnowledgeGraph.by_difficulty.
Proof.
  intros x y. unfold KnowledgeGraph.by_difficulty.
  destruct (Rle_or_lt (Topic.difficulty x) (Topic.difficulty y));
    [by left|right; by apply Rlt_le].
Qed.

(** The loop of [get_available_topics] keeps the topics whose id is not
completed and whose direct prerequisites are. *)
Lemma available_loop g (completed_ids : gset string)
    (items : list (string * Topic.t)) (acc : list Topic.t) :
  foldl (λ available item,
           if decide (item.1 ∈ completed_ids) then available
           else
             let prereqs := prereqs_of g item.1 in
             if decide (prereqs ⊆ completed_ids)
             then available ++ [item.2]
             else available)
        acc items
  = acc ++ (snd <$> filter (λ item, (item.1 ∉ completed_ids)
                                    ∧ (prereqs_of g item.1 ⊆ completed_ids))
                           items).
Proof.
  revert acc. induction items as [|item items IH]; intros acc; cbn [foldl].
  { by rewrite app_nil_r. }
  rewrite IH, filter_cons. cbv zeta.
  destruct (decide (item.1 ∈ completed_ids)) as [Hc|Hc].
  - by rewrite decide_False by tauto.
  - destruct (decide (prereqs_of g item.1 ⊆ completed_ids)) as [Hp|Hp].
    + rewrite decide_True by done. by rewrite <- app_assoc.
    + by rewrite decide_False by tauto.
Qed.

(** X5. [get_available_topics(completed_ids)] returns exactly the
registered topics that are not completed and whose direct prerequisites are
all completed, in order of increasing difficulty. *)
Theorem get_available_topics_spec (g : KnowledgeGraph.t)
    (completed_ids : gset string) :
  (∀ t, t ∈ KnowledgeGraph.get_available_topics g completed_ids
        ↔ ∃ k, topics g !! k = Some t ∧ (k ∉ completed_ids)
               ∧ (prereqs_of g k ⊆ completed_ids))
  ∧ StronglySorted
      (λ t1 t2, (Topic.difficulty t1 <= Topic.difficulty t2)%R)
      (KnowledgeGraph.get_available_topics g completed_ids).
Proof.
  unfold KnowledgeGraph.get_available_topics. cbv zeta. rewrite available_loop. simpl.
  split.
  - intros t. rewrite py_sorted_Permutation, list_elem_of_fmap. split.
    + intros ([k t'] & -> & [[Hc Hp] Hin%elem_of_dict_iter]%list_elem_of_filter).
      by exists k.
    + intros (k & Hk & Hc & Hp). exists (k, t). split; [done|].
      apply list_elem_of_filter. split; [done|]. by apply elem_of_dict_iter.
  - apply (StronglySorted_py_sorted KnowledgeGraph.by_difficulty).
Qed.

(** X6. In a well-formed graph the first topic of a learning path can be
started at once: it is among [get_available_topics] for the same completed
set. *)
Theorem learning_path_head_available (g : KnowledgeGraph.t)
    (target_id : string) (completed_ids : option (gset string))
    (t : Topic.t) (rest : list Topic.t) :
  well_formed g →
  get_learning_path g target_id completed_ids = Ok (t :: rest) →
  t ∈ KnowledgeGraph.get_available_topics g (default ∅ completed_ids).
Proof.
  intros Hwf. unfold get_learning_path.
  case_decide as Ht; [done|]. cbv zeta. intros Heq.
  assert (target_id ∈ dom (topics g)) as Ht'.
  { destruct (decide (target_id ∈ dom (topics g))); tauto. }
  pose proof (learning_subset_registered g target_id (default ∅ completed_ids)
                Hwf Ht') as HS.
  destruct (topological_sort_spec _ _ Hwf HS)
    as (path & Heq1 & _ & Hsub & Horder).
  destruct (topological_sort_ready _ _ Hwf HS) as (path' & Heq2 & _ & Hreg).
  assert (path = t :: rest) as -> by congruence.
  assert (path' = t :: rest) as -> by congruence.
  apply Forall_cons in Hreg as [Hreg _].
  apply get_available_topics_spec. exists (Topic.id t).
  assert (Topic.id t ∈ Topic.id <$> t :: rest) as Hin by left.
  apply Hsub, learning_subset in Hin as [Hin Hc]; [|done].
  split; [done|]. split; [done|].
  intros p Hp. destruct (decide (p ∈ default ∅ completed_ids)) as [|Hpc]; [done|].
  exfalso. destruct (Horder 0 (Topic.id t) p) as (j & Hj & _); [done|done| |lia].
  apply learning_subset; [done|]. split; [|done]. right.
  destruct Hin as [Hid|Hin]; [rewrite Hid in Hp; by apply tc_once|].
  by eapply tc_r.
Qed.

(** X9. In a well-formed graph [get_prerequisites] and [get_dependents]
mirror each other: P is listed as a prerequisite of T exactly when T is
listed as a dependent of P. *)
Theorem prerequisites_dependents_mirror (g : KnowledgeGraph.t)
    (topic_id prereq_id : string) :
  well_formed g →
  prereq_id ∈ Topic.id <$> get_prerequisites g topic_id
  ↔ topic_id ∈ Topic.id <$> get_dependents g prereq_id.
Proof.
  intros Hwf.
  assert (∀ (X : gset string) x,
            X ⊆ dom (topics g) →
            x ∈ Topic.id <$> omap (λ k, topics g !! k) (set_iter X) ↔ x ∈ X)
    as Hview.
  { intros X x HX. rewrite list_elem_of_fmap. split.
    - intros (t & -> & (k & Hk%elem_of_set_iter & Ht)%list_elem_of_omap).
      by rewrite (wf_ids g Hwf k t Ht).
    - intros Hx.
      assert (x ∈ dom (topics g)) as [t Ht]%elem_of_dom by (by apply HX).
      exists t. split; [by rewrite (wf_ids g Hwf x t Ht)|].
      apply list_elem_of_omap. exists x. by rewrite elem_of_set_iter. }
  unfold get_prerequisites, get_dependents. rewrite !Hview.
  - apply (wf_mirror g Hwf).
  - intros x Hx. apply (wf_mirror g Hwf) in Hx.
    by apply (wf_registered g Hwf x prereq_id).
  - intros x Hx. by apply (wf_registered g Hwf topic_id x).
Qed.

End Available.

(** ** FIRe weights and distance *)

Section FireDistance.
Context {SO : SetOrder} {DO : DictOrder}.
Import KnowledgeGraph.
Implicit Types (g : KnowledgeGraph.t) (x y : string).
Local Open Scope R_scope.

Lemma half_pow_bounds (k : nat) : 0 < 0.5 ^ k <= 1.
Proof. induction k as [|k IH]; simpl; lra. Qed.

Lemma fire_weight_bounds (k : nat) : 0 < fire_weight k <= 0.5.
Proof. unfold fire_weight. pose proof (half_pow_bounds k). lra. Qed.

Lemma fire_weight_deep (k : nat) : (0 < k)%nat → fire_weight k <= 0.25.
Proof.
  unfold fire_weight. destruct k as [|k]; [lia|]. intros _.
  pose proof (half_pow_bounds k). simpl. lra.
Qed.

Lemma fire_weight_pow (k : nat) : fire_weight k = (1 / 2) ^ S k.
Proof. unfold fire_weight. simpl. f_equal; [lra|]. f_equal. lra. Qed.

(** The ids at depth [k] below a set are the ends of the prerequisite paths
of length [k] that start in the set. *)
Lemma layer_nsteps g (L : gset string) (k : nat) x :
  x ∈ layer g L k ↔ ∃ q, q ∈ L ∧ nsteps (prereq_edge g) k q x.
Proof.
  revert L. induction k as [|k IH]; intros L; simpl.
  - split.
    + intros Hx. exists x. split; [done|constructor].
    + intros (q & Hq & Hn). by inversion Hn; subst.
  - rewrite IH. split.
    + intros (q' & (q & Hq' & Hq)%elem_of_set_bind & Hn).
      exists q. split; [done|]. by eapply nsteps_l.
    + intros (q & Hq & Hn). inversion Hn as [|? ? q' ? Hqq' Hn']; subst.
      exists q'. split; [|done]. apply elem_of_set_bind. by exists q.
Qed.

Lemma layer_prereqs_nsteps g T (k : nat) x :
  x ∈ layer g (prereqs_of g T) k ↔ nsteps (prereq_edge g) (S k) T x.
Proof.
  rewrite layer_nsteps. split.
  - intros (q & Hq & Hn). by eapply nsteps_l.
  - intros Hn. inversion Hn as [|? ? q ? Hq Hn']; subst. by exists q.
Qed.


(** X8. Implicit credit with the weights of [get_fire_ancestors] reaches
direct prerequisites only. With a base score of at most 1,
[apply_fire_credit] leaves the record of every topic that is no direct
prerequisite of T as it was (a weight of 0.25 or less stays below the 0.3
threshold), and with a base score below 0.6 it leaves every record as it was.
When the base score is at least 0.6, a direct prerequisite that was reviewed
before gets the stability min(10, 1.05 * stability) and the clock reading as
its last review. *)
Theorem fire_credit_direct_only (g : KnowledgeGraph.t) (T : string)
    (max_depth : Z) (now : string → R) (topic_id : string) (base_score : R)
    (tr : MasteryTracker.t) (k : string) :
  base_score <= 1 →
  let tr' :=
    MasteryTracker.apply_fire_credit
      now topic_id (dict_iter (get_fire_ancestors g T max_depth))
      base_score tr in
  (k ∉ prereqs_of g T → record_at tr' k = record_at tr k)
  ∧ (base_score < 0.6 → record_at tr' k = record_at tr k)
  ∧ (k ∈ prereqs_of g T → (0 < max_depth)%Z → base_score >= 0.6 →
     is_Some (MasteryRecord.last_review (record_at tr k)) →
     MasteryRecord.stability (record_at tr' k)
     = Rmin 10 (MasteryRecord.stability (record_at tr k) * 1.05)
     ∧ MasteryRecord.last_review (record_at tr' k) = Some (now k)).
Proof.
  intros Hbase tr'. subst tr'.
  pose proof (NoDup_fst_dict_iter (get_fire_ancestors g T max_depth)) as Hnd.
  destruct (get_fire_ancestors g T max_depth !! k) as [w|] eqn:Hk.
  - pose proof Hk as Hin. apply elem_of_dict_iter in Hin.
    rewrite (apply_fire_credit_present _ _ _ _ _ _ w Hnd Hin).
    apply get_fire_ancestors_first in Hk as (j & Hj & Hlayer & Hfirst & ->).
    pose proof (fire_weight_bounds j) as Hw.
    split; [|split].
    + intros Hnot. destruct j as [|j]; [done|].
      pose proof (fire_weight_deep (S j) ltac:(lia)) as Hdeep.
      unfold credit. destruct (Rge_dec _ _); [nra|done].
    + intros Hlow. unfold credit. destruct (Rge_dec _ _); [nra|done].
    + intros Hdirect Hd Hhigh [t Ht].
      assert (j = 0)%nat as ->.
      { destruct j as [|j]; [done|]. exfalso.
        apply (Hfirst 0%nat); [lia|done]. }
      unfold credit, fire_weight. simpl.
      destruct (Rge_dec _ _); [|lra]. rewrite Ht. simpl.
      rewrite py_min_Rmin. split; [|done]. f_equal; lra.
  - assert (k ∉ (dict_iter (get_fire_ancestors g T max_depth)).*1) as Hout.
    { intros ([k' w] & -> & Hin%elem_of_dict_iter)%list_elem_of_fmap.
      simpl in Hk. congruence. }
    rewrite apply_fire_credit_absent by done.
    split; [done|]. split; [done|].
    intros Hdirect Hd _ _. exfalso.
    assert (get_fire_ancestors g T max_depth !! k = Some (fire_weight 0)) as Hs.
    { apply get_fire_ancestors_first. exists 0%nat.
      split; [lia|]. split; [done|]. split; [lia|done]. }
    congruence.
Qed.

End FireDistance.

(** ** More on levels and on the forgetting curve *)

Section LevelDirection.
Local Open Scope R_scope.

(** X10. [from_score] always returns a level, and never Unknown. From
Unknown it returns Introduced whatever the score; a score of at least 0.3
never lowers the level; a score below 0.3 lowers a known level by one rank,
but not below Introduced. *)
Theorem from_score_direction (s : R) (L : MasteryLevel.t) :
  ∃ L',
    MasteryLevel.from_score s L = Ok L'
    ∧ L' ≠ MasteryLevel.UNKNOWN
    ∧ (L = MasteryLevel.UNKNOWN → L' = MasteryLevel.INTRODUCED)
    ∧ (s >= 0.3 → (MasteryLevel.value L ≤ MasteryLevel.value L')%Z)
    ∧ (s < 0.3 → L ≠ MasteryLevel.UNKNOWN →
       MasteryLevel.value L'
       = Z.max 1 (MasteryLevel.value L - 1)).
Proof.
  unfold MasteryLevel.from_score.
  destruct (Rge_dec s 0.95), (Rge_dec s 0.80), (Rge_dec s 0.60),
    (Rge_dec s 0.30), (Rlt_dec s 0.3); try lra;
  destruct L; simpl; eexists; (split; [reflexivity|]);
  (split; [done|]); (split; [done|]); (split; [intros; simpl; lia || lra|]);
  intros; simpl; try done; lra.
Qed.

(** X11. A promotion is by one rank, and the score reaches the threshold
of the new level: if [from_score(s, L)] with s >= 0 returns a level above L,
it is the next one and its [score_threshold] is at most s. *)
Theorem promotion_needs_threshold (s : R) (L L' : MasteryLevel.t) :
  0 <= s →
  MasteryLevel.from_score s L = Ok L' →
  (MasteryLevel.value L < MasteryLevel.value L')%Z →
  MasteryLevel.score_threshold L' <= s
  ∧ MasteryLevel.value L' = (MasteryLevel.value L + 1)%Z.
Proof.
  unfold MasteryLevel.from_score. intros Hs.
  destruct (Rge_dec s 0.95), (Rge_dec s 0.80), (Rge_dec s 0.60),
    (Rge_dec s 0.30), (Rlt_dec s 0.3); try lra;
  destruct L; simpl; intros [= <-]; simpl; intros; try lia;
  (split; [lra|lia]).
Qed.

End LevelDirection.

Section DecayInverse.
Local Open Scope R_scope.

(** X12. [optimal_review_interval] raises the invalid-target
[ValueError] whenever the target is not strictly between 0 and 1. Otherwise,
for a positive stability, it returns a positive number of days after which
[calculate_retention] returns exactly the target (floats as real numbers):
the target itself when it is within the range of floats, as every positive
float is, and 0 when it is below it. *)
Theorem optimal_interval_inverts_retention (target stability : R) :
  (¬ (0 < target < 1) →
   Ebbinghaus.optimal_review_interval target stability = Raise InvalidTarget)
  ∧ (0 < target < 1 → 0 < stability →
     ∃ t, Ebbinghaus.optimal_review_interval target stability = Ok t
          ∧ 0 < t
          ∧ Ebbinghaus.calculate_retention t stability
            = Returned (flush target)
          ∧ (DBL_TINY <= target →
             Ebbinghaus.calculate_retention t stability = Returned target)).
Proof.
  split.
  - intros Hno. unfold Ebbinghaus.optimal_review_interval.
    destruct (Rle_dec target 0); [done|].
    destruct (Rge_dec target 1); [done|lra].
  - intros Ht HS. rewrite optimal_review_interval_ok by done.
    eexists. split; [reflexivity|].
    assert (ln target < 0) as Hln.
    { rewrite <- ln_1. apply ln_increasing; lra. }
    assert (0 < - stability * ln target) as Hpos by nra.
    split; [done|].
    rewrite calculate_retention_elapsed by lra.
    replace (- (- stability * ln target) / stability) with (ln target)
      by (field; lra).
    rewrite exp_ln by lra. split; [done|].
    intros Htiny. unfold flush.
    destruct (Rlt_dec target DBL_TINY); [lra|done].
Qed.

Lemma get_review_priority_eq r imp d :
  Ebbinghaus.get_review_priority r imp d
  = (1 - r) ^ 2 * imp * (1 + Rmin 1 (d / 7)).
Proof.
  unfold Ebbinghaus.get_review_priority. cbv zeta.
  rewrite py_min_Rmin. by replace 1.0 with 1 by lra.
Qed.


(** X14. [update_stability] on a stability in [0.5, 30]: a score of at
least 0.5 never lowers it, a score below 0.5 never raises it, and a lower
retention at review never gives a lower result. *)
Theorem update_stability_direction (cs s ret ret' : R) :
  0.5 <= cs <= 30 →
  (s >= 0.5 → cs <= Ebbinghaus.update_stability cs s ret)
  ∧ (s < 0.5 → Ebbinghaus.update_stability cs s ret <= cs)
  ∧ (ret <= ret' →
     Ebbinghaus.update_stability cs s ret'
     <= Ebbinghaus.update_stability cs s ret).
Proof.
  intros Hcs. unfold Ebbinghaus.update_stability. cbv zeta.
  rewrite !py_max_Rmax, !py_min_Rmin.
  destruct (Rge_dec s 0.9), (Rge_dec s 0.7), (Rge_dec s 0.5),
    (Rge_dec s 0.3), (Rlt_dec ret 0.5), (Rlt_dec ret' 0.5); try lra;
  (split; [|split]); intros; try lra;
  unfold Rmax, Rmin; repeat destruct (Rle_dec _ _); nra.
Qed.

(** X15. With a target retention in (0, 1) and [min_interval <=
max_interval], [next_review_date] returns a date between [last_review +
min_interval] and [last_review + max_interval]. *)
Theorem next_review_date_window (self : Ebbinghaus.ReviewSchedule)
    (last_review stability : R) :
  0 < Ebbinghaus.target_retention self < 1 →
  Ebbinghaus.min_interval self <= Ebbinghaus.max_interval self →
  ∃ d, Ebbinghaus.next_review_date self last_review stability = Ok d
       ∧ last_review + Ebbinghaus.min_interval self <= d
       ∧ d <= last_review + Ebbinghaus.max_interval self.
Proof.
  intros Ht Hmm. unfold Ebbinghaus.next_review_date.
  rewrite optimal_review_interval_ok by done. cbn [bind].
  eexists. split; [reflexivity|].
  rewrite py_max_Rmax, py_min_Rmin.
  unfold Rmax, Rmin. repeat destruct (Rle_dec _ _); lra.
Qed.

End DecayInverse.

(** ** Bookkeeping of the tracker *)

Lemma sum_R_snoc l x : sum_R (l ++ [x]) = (sum_R l + x)%R.
Proof.
  unfold sum_R. induction l as [|y l IH]; simpl; [lra|]. rewrite IH. lra.
Qed.

Lemma sum_Z_snoc l x : sum_Z (l ++ [x]) = (sum_Z l + x)%Z.
Proof.
  unfold sum_Z. induction l as [|y l IH]; simpl; [lia|]. rewrite IH. lia.
Qed.

Lemma trim_snoc {A} (h all : list A) (x : A) :
  h = drop (length all - 50) all →
  (if decide (50 < length (h ++ [x])) then
     drop (length (h ++ [x]) - 50) (h ++ [x])
   else h ++ [x])
  = drop (length (all ++ [x]) - 50) (all ++ [x]).
Proof.
  intros ->. rewrite !length_app, length_drop. simpl.
  case_decide as Hlen.
  - rewrite drop_app_le by (rewrite length_drop; lia).
    rewrite drop_drop.
    rewrite drop_app_le by lia. do 2 f_equal. lia.
  - destruct (decide (length all < 50)) as [Hlt|Hge].
    + replace (length all - 50) with 0 by lia.
      replace (length all + 1 - 50) with 0 by lia. done.
    + lia.
Qed.

Section Bookkeeping.
Local Open Scope R_scope.

Lemma next_level_not_unknown L s : next_level L s ≠ MasteryLevel.UNKNOWN.
Proof.
  unfold next_level, MasteryLevel.from_score.
  repeat destruct (Rge_dec _ _); destruct (Rlt_dec s 0.3);
    destruct L; simpl; done.
Qed.

Lemma next_level_from_score L s :
  MasteryLevel.from_score s L = Ok (next_level L s).
Proof.
  unfold next_level. by destruct (from_score_total s L) as (L' & ->).
Qed.

Lemma tracked_fresh k : tracked k [] (MasteryRecord.fresh k).
Proof.
  split; simpl; try done.
  unfold sum_R. simpl. lra.
Qed.

Lemma tracked_credit k ps b w t r :
  tracked k ps r → tracked k ps (credit b w t r).
Proof.
  intros Hr. unfold credit.
  destruct (Rge_dec (b * w) 0.3); [|done].
  destruct (MasteryRecord.last_review r) as [lr|] eqn:Hlr; [|done].
  destruct Hr. split; simpl; try done.
  - intros ->. specialize (tk_fresh0 eq_refl). subst r. done.
  - intros Hne. split; [eauto|]. by apply tk_reviewed0.
Qed.

Lemma tracked_practice k ps now s pt ts r r' l :
  tracked k ps r →
  MasteryRecord.record_practice now s pt ts r = Ok (r', l) →
  tracked k (ps ++ [(s, ts)]) r' ∧ l = next_level (MasteryRecord.level r) s.
Proof.
  intros Hr. unfold MasteryRecord.record_practice.
  rewrite next_level_from_score. cbn [bind]. cbv zeta.
  intros [= <- <-]. split; [|done].
  destruct Hr. split; simpl.
  - done.
  - rewrite length_app. simpl. lia.
  - rewrite fmap_app. simpl. rewrite sum_Z_snoc. lia.
  - rewrite fmap_app, length_app. simpl. rewrite sum_R_snoc.
    rewrite tk_count0. rewrite <- tk_mean0.
    replace (Z.of_nat (length ps) + 1 - 1)%Z with (Z.of_nat (length ps))
      by lia.
    rewrite <- INR_IZR_INZ.
    replace (IZR (Z.of_nat (length ps) + 1)) with (INR (length ps) + 1).
    2:{ rewrite plus_IZR, <- INR_IZR_INZ. done. }
    replace (length ps + 1)%nat with (S (length ps)) by lia.
    rewrite S_INR. field.
    pose proof (pos_INR (length ps)). lra.
  - unfold MasteryRecord.trim_history.
    rewrite (fmap_app _ ps), <- (length_fmap fst (ps ++ [(s, ts)])).
    rewrite (fmap_app fst). simpl.
    rewrite <- (trim_snoc (PracticeEvent.score <$> MasteryRecord.history r)
                  (ps.*1) s).
    2:{ by rewrite length_fmap. }
    rewrite <- (length_fmap PracticeEvent.score
                  (MasteryRecord.history r ++ _)).
    rewrite (fmap_app PracticeEvent.score). simpl.
    case_decide; [by rewrite fmap_drop, fmap_app|by rewrite fmap_app].
  - rewrite fmap_app, foldl_app. simpl. by rewrite tk_level0.
  - intros Hnil. by apply app_nil in Hnil as [_ ?].
  - intros _. split; eauto.
Qed.

Lemma apply_fire_credit_tracked now t ws b tr k ps :
  tracked k ps (record_at tr k) →
  tracked k ps (record_at (MasteryTracker.apply_fire_credit now t ws b tr) k).
Proof.
  unfold MasteryTracker.apply_fire_credit. revert tr.
  induction ws as [|[p w] ws IH]; intros tr Hr; [done|].
  cbn [foldl]. apply IH.
  destruct (decide (k = p)) as [->|Hne].
  - rewrite fire_credit_step_same. by apply tracked_credit.
  - by rewrite fire_credit_step_other.
Qed.

Lemma step_tracked tr o k ps :
  tracked k ps (record_at tr k) →
  tracked k (ps ++ practices k [o]) (record_at (step tr o) k).
Proof.
  intros Hr. destruct o as [now k' s pt ts|now t ws b]; simpl.
  - destruct (tracker_record_practice_at now k' s pt ts tr k)
      as (r' & l & Hrp & _ & ->).
    unfold practices. simpl.
    destruct (decide (k' = k)) as [->|Hne].
    + rewrite decide_True by done. simpl.
      by apply (tracked_practice _ _ _ _ _ _ _ _ _ Hr) in Hrp as [? _].
    + rewrite decide_False by done. simpl. by rewrite app_nil_r.
  - unfold practices. simpl. rewrite app_nil_r.
    by apply apply_fire_credit_tracked.
Qed.

Lemma run_tracked ops k :
  tracked k (practices k ops) (record_at (run ops MasteryTracker.empty) k).
Proof.
  induction ops as [|o ops IH] using rev_ind.
  - apply tracked_fresh.
  - unfold run in *. rewrite foldl_app. simpl.
    unfold practices in *. rewrite omap_app. by apply step_tracked.
Qed.

(** X16. After any sequence of [record_practice] and [apply_fire_credit]
calls on an empty tracker, the record of a topic has: [practice_count] = the
number of its practices, [total_time_seconds] = the sum of their times,
[average_score] = the mean of their scores (average * count = sum), [history]
= their last 50 scores in order, and a level that the sequence of scores
determines. Implicit credit changes none of these. *)
Theorem practice_bookkeeping (ops : list op) (k : string) :
  let r := record_at (run ops MasteryTracker.empty) k in
  let ps := practices k ops in
  MasteryRecord.practice_count r = Z.of_nat (length ps)
  ∧ MasteryRecord.total_time_seconds r = sum_Z ps.*2
  ∧ MasteryRecord.average_score r * INR (length ps) = sum_R ps.*1
  ∧ PracticeEvent.score <$> MasteryRecord.history r
    = drop (length ps - 50) ps.*1
  ∧ MasteryRecord.level r = foldl next_level MasteryLevel.UNKNOWN ps.*1.
Proof.
  intros r ps. destruct (run_tracked ops k). done.
Qed.

(** X17. A topic that was never practised stays as created: after any
sequence of calls on an empty tracker its record is the fresh one (level
Unknown, stability 1.0, no last review), whatever credit it was offered.
Conversely a record at Unknown, or without a last review, was never
practised. Every stored record is stored under its own [topic_id]. *)
Theorem never_practised_stays_fresh (ops : list op) (k : string) :
  let tr := run ops MasteryTracker.empty in
  (practices k ops = [] ↔ record_at tr k = MasteryRecord.fresh k)
  ∧ (practices k ops = [] ↔
     MasteryRecord.level (record_at tr k) = MasteryLevel.UNKNOWN)
  ∧ (practices k ops = [] ↔ MasteryRecord.last_review (record_at tr k) = None)
  ∧ (∀ r, MasteryTracker.records tr !! k = Some r →
          MasteryRecord.topic_id r = k).
Proof.
  intros tr. destruct (run_tracked ops k) as [Hid _ _ _ _ Hlevel Hfresh Hrev].
  fold tr in Hid, Hlevel, Hfresh, Hrev.
  assert (practices k ops ≠ [] →
          MasteryRecord.level (record_at tr k) ≠ MasteryLevel.UNKNOWN) as Hl.
  { intros Hne. rewrite Hlevel.
    destruct (practices k ops) as [|p ps _] using rev_ind; [done|].
    rewrite fmap_app, foldl_app. simpl. apply next_level_not_unknown. }
  split; [|split; [|split]].
  - split; [done|]. intros Heq.
    destruct (decide (practices k ops = [])) as [|Hne]; [done|].
    apply Hl in Hne. by rewrite Heq in Hne.
  - split; [by intros ->%Hfresh|]. intros Heq.
    destruct (decide (practices k ops = [])) as [|Hne]; [done|].
    by apply Hl in Hne.
  - split; [by intros ->%Hfresh|]. intros Heq.
    destruct (decide (practices k ops = [])) as [|Hne]; [done|].
    apply Hrev in Hne as [[? Hs] _]. congruence.
  - intros r Hr. by rewrite <- (record_at_lookup _ _ _ Hr).
Qed.

Lemma foldl_next_level_high L l :
  Forall (λ s, s >= 0.95) l →
  MasteryLevel.value (foldl next_level L l)
  = Z.min 5 (MasteryLevel.value L + Z.of_nat (length l)).
Proof.
  revert L. induction l as [|s l IH]; intros L Hl.
  - simpl. destruct L; simpl; lia.
  - apply Forall_cons in Hl as [Hs Hl]. cbn [foldl]. rewrite IH by done.
    assert (MasteryLevel.value (next_level L s)
            = Z.min 5 (MasteryLevel.value L + 1)) as ->.
    { unfold next_level, MasteryLevel.from_score.
      destruct (Rge_dec s 0.95); [|lra].
      destruct (Rlt_dec s 0.3); [lra|]. destruct L; simpl; lia. }
    cbn [length]. destruct L; simpl; lia.
Qed.

Lemma foldl_next_level_low L l :
  Forall (λ s, s < 0.3) l → l ≠ [] →
  MasteryLevel.value (foldl next_level L l)
  = Z.max 1 (MasteryLevel.value L - Z.of_nat (length l)).
Proof.
  revert L. induction l as [|s l IH]; intros L Hl Hne; [done|].
  apply Forall_cons in Hl as [Hs Hl]. cbn [foldl].
  assert (MasteryLevel.value (next_level L s)
          = Z.max 1 (MasteryLevel.value L - 1)) as Hstep.
  { unfold next_level, MasteryLevel.from_score.
    destruct (Rge_dec s 0.95), (Rge_dec s 0.80), (Rge_dec s 0.60),
      (Rge_dec s 0.30), (Rlt_dec s 0.3); try lra.
    destruct L; simpl; lia. }
  destruct l as [|s' l].
  - simpl. rewrite Hstep. lia.
  - rewrite IH by done. rewrite Hstep. cbn [length]. lia.
Qed.

(** X18. Streaks. After n > 0 practices in a row with scores >= 0.95 the
level is min(5, L + n), and after n > 0 in a row with scores < 0.3 it is
max(1, L - n), L being the level before the streak: five top scores make any
topic Fluent, and four poor ones bring any topic down to Introduced. *)
Theorem level_after_streak (ops : list op) (k : string)
    (before streak : list R) :
  (practices k ops).*1 = before ++ streak →
  streak ≠ [] →
  let L := foldl next_level MasteryLevel.UNKNOWN before in
  let r := record_at (run ops MasteryTracker.empty) k in
  (Forall (λ s, s >= 0.95) streak →
   MasteryLevel.value (MasteryRecord.level r)
   = Z.min 5 (MasteryLevel.value L + Z.of_nat (length streak)))
  ∧ (Forall (λ s, s < 0.3) streak →
     MasteryLevel.value (MasteryRecord.level r)
     = Z.max 1 (MasteryLevel.value L - Z.of_nat (length streak))).
Proof.
  intros Hps Hne L r.
  destruct (run_tracked ops k) as [_ _ _ _ _ Hlevel _ _].
  fold r in Hlevel. rewrite Hlevel, Hps, foldl_app. fold L.
  split; intros Hs.
  - by apply foldl_next_level_high.
  - by apply foldl_next_level_low.
Qed.

End Bookkeeping.

(** ** More on the review scheduler *)

Lemma StronglySorted_take {A} (R : relation A) (n : nat) (l : list A) :
  StronglySorted R l → StronglySorted R (take n l).
Proof.
  intros Hl. revert n. induction Hl as [|x l Hl IH Hx]; intros [|n]; simpl;
    try constructor.
  - apply IH.
  - apply Forall_take. done.
Qed.

Section DueReviews.
Context {DO : DictOrder}.
Local Open Scope R_scope.

#[local] Instance by_priority_trans : Transitive ReviewScheduler.by_priority.
Proof.
  intros x y z. unfold ReviewScheduler.by_priority. intros; lra.
Qed.

#[local] Instance by_priority_total : Total ReviewScheduler.by_priority.
Proof.
  intros x y. unfold ReviewScheduler.by_priority.
  destruct (Rle_or_lt (ReviewItem.priority y) (ReviewItem.priority x));
    [by left|right; by apply Rlt_le].
Qed.

(** X19. With a threshold and a target retention in (0, 1), and clock
readings at which [math.exp] overflows for no learned record,
[get_due_reviews] returns. Its items are in order of decreasing priority,
and at most [limit] of them for [limit >= 0]. Each comes from a stored
record that is not Unknown and whose retention is below the threshold, and
has a priority >= 0. When the limit is at least the number of records,
every such record has its item. *)
Theorem get_due_reviews_sorted (self : ReviewScheduler.t) (now : string → R)
    (limit : Z) (threshold : R) :
  0 < threshold < 1 →
  0 < Ebbinghaus.target_retention (ReviewScheduler.schedule self) < 1 →
  no_overflow now (ReviewScheduler.mastery self) →
  ∃ due,
    ReviewScheduler.get_due_reviews self now limit threshold = Returned due
    ∧ StronglySorted
        (λ x y, ReviewItem.priority y <= ReviewItem.priority x) due
    ∧ ((0 ≤ limit)%Z → (Z.of_nat (length due) ≤ limit)%Z)
    ∧ (∀ it, it ∈ due →
         ∃ k r,
           MasteryTracker.records (ReviewScheduler.mastery self) !! k = Some r
           ∧ MasteryRecord.level r ≠ MasteryLevel.UNKNOWN
           ∧ ReviewItem.topic_id it = MasteryRecord.topic_id r
           ∧ scheduler_retention (now k) r
             = Returned (ReviewItem.retention it)
           ∧ ReviewItem.retention it < threshold
           ∧ 0 <= ReviewItem.priority it)
    ∧ ((Z.of_nat (size (MasteryTracker.records (ReviewScheduler.mastery self)))
        ≤ limit)%Z →
       ∀ k r v,
         MasteryTracker.records (ReviewScheduler.mastery self) !! k = Some r →
         MasteryRecord.level r ≠ MasteryLevel.UNKNOWN →
         scheduler_retention (now k) r = Returned v →
         v < threshold →
         ∃ it, it ∈ due
               ∧ ReviewItem.topic_id it = MasteryRecord.topic_id r
               ∧ ReviewItem.retention it = v).
Proof.
  intros Ht Hs Hno. unfold ReviewScheduler.get_due_reviews.
  set (records := dict_iter
                    (MasteryTracker.records (ReviewScheduler.mastery self))).
  destruct (due_items_spec self now threshold records [])
    as (items & Heq & _ & Hall).
  { intros k' r' Hin%elem_of_dict_iter. apply due_item_ok; [done..|].
    by apply (Hno k' r'). }
  rewrite Heq. cbn [obind]. eexists. split; [reflexivity|].
  pose proof (due_items_sound _ _ _ _ _ _ Heq) as Hsound.
  split; [|split; [|split]].
  - destruct (py_take_prefix limit
                (py_sorted ReviewScheduler.by_priority items)) as [m ->].
    apply StronglySorted_take.
    apply (StronglySorted_py_sorted ReviewScheduler.by_priority).
  - apply length_py_take.
  - intros it Hit.
    destruct (py_take_prefix limit
                (py_sorted ReviewScheduler.by_priority items)) as [m Hm].
    rewrite Hm in Hit. apply elem_of_take in Hit as (i & Hit & _).
    apply list_elem_of_lookup_2 in Hit.
    rewrite py_sorted_Permutation in Hit.
    destruct (Hsound it Hit) as [Hnil|(k & r & Hin & Hd)].
    { by apply elem_of_nil in Hnil. }
    apply elem_of_dict_iter in Hin.
    apply due_item_some in Hd as (? & ? & ? & ? & ? & ?).
    exists k, r. done.
  - intros Hlim k r v Hk Hl Hr Hv.
    destruct (due_item_due self (now k) threshold r v Ht Hs Hl Hr Hv)
      as [it Hit].
    exists it. split.
    + rewrite py_take_all.
      * rewrite py_sorted_Permutation. apply (Hall k r); [|done].
        by apply elem_of_dict_iter.
      * rewrite py_sorted_length.
        apply due_items_length in Heq. unfold records in Heq.
        rewrite length_dict_iter in Heq. simpl in Heq. lia.
    + apply due_item_some in Hit as (? & ? & Hit & ? & ? & ?).
      split; [done|]. congruence.
Qed.

(** X20. The other outcomes of [get_due_reviews]. When [math.exp]
overflows for no learned record, a threshold <= 0 gives the empty list, and
a threshold > 1 raises the invalid-target [ValueError] as soon as one
record is not Unknown. A tracker with only Unknown records gives the empty
list. Whenever the call raises, it raises either that error, the threshold
or the target retention being outside (0, 1), or the [OverflowError] of
[math.exp], which overflows for a learned record. With a threshold and a
target retention in (0, 1) the call raises the [OverflowError] as soon as
[math.exp] overflows for one learned record. *)
Theorem get_due_reviews_outcome (self : ReviewScheduler.t)
    (now : string → R) (limit : Z) (threshold : R) :
  (threshold <= 0 →
   no_overflow now (ReviewScheduler.mastery self) →
   ReviewScheduler.get_due_reviews self now limit threshold = Returned [])
  ∧ ((∀ k r,
        MasteryTracker.records (ReviewScheduler.mastery self) !! k = Some r →
        MasteryRecord.level r = MasteryLevel.UNKNOWN) →
     ReviewScheduler.get_due_reviews self now limit threshold = Returned [])
  ∧ (1 < threshold →
     no_overflow now (ReviewScheduler.mastery self) →
     (∃ k r,
        MasteryTracker.records (ReviewScheduler.mastery self) !! k = Some r
        ∧ MasteryRecord.level r ≠ MasteryLevel.UNKNOWN) →
     ReviewScheduler.get_due_reviews self now limit threshold
     = Thrown (Lib InvalidTarget))
  ∧ (∀ e,
       ReviewScheduler.get_due_reviews self now limit threshold = Thrown e →
       (e = Lib InvalidTarget
        ∧ (¬ (0 < threshold < 1)
           ∨ ¬ (0 < Ebbinghaus.target_retention
                      (ReviewScheduler.schedule self) < 1)))
       ∨ (e = OverflowError
          ∧ ∃ k r,
              MasteryTracker.records (ReviewScheduler.mastery self) !! k
              = Some r
              ∧ MasteryRecord.level r ≠ MasteryLevel.UNKNOWN
              ∧ overflows (now k) r))
  ∧ (0 < threshold < 1 →
     0 < Ebbinghaus.target_retention (ReviewScheduler.schedule self) < 1 →
     (∃ k r,
        MasteryTracker.records (ReviewScheduler.mastery self) !! k = Some r
        ∧ MasteryRecord.level r ≠ MasteryLevel.UNKNOWN
        ∧ overflows (now k) r) →
     ReviewScheduler.get_due_reviews self now limit threshold
     = Thrown OverflowError).
Proof.
  split; [apply get_due_reviews_low|]. split; [|split; [|split]].
  - intros Hall. unfold ReviewScheduler.get_due_reviews.
    rewrite due_items_none;
      [cbn [obind py_sorted foldr]; by rewrite py_take_nil|].
    intros k r Hin%elem_of_dict_iter. apply due_item_unknown. by eapply Hall.
  - intros Ht Hno (k & r & Hk & Hl).
    destruct (scheduler_retention_returns (now k) r) as [v Hv].
    { by apply (Hno k r). }
    apply (get_due_reviews_high self now limit threshold k r v);
      try done; [lra|].
    apply scheduler_retention_range in Hv. lra.
  - intros e. unfold ReviewScheduler.get_due_reviews.
    destruct (ReviewScheduler.due_items _ _ _ _ _) eqn:Hd; [done|].
    cbn [obind]. intros [= <-].
    apply due_items_thrown in Hd as (k & r & Hin%elem_of_dict_iter & Hd).
    apply due_item_thrown in Hd as [Hl [[-> Ho]|[-> Hout]]].
    + right. split; [done|]. by exists k, r.
    + by left.
  - intros Ht Hs (k & r & Hk & Hl & Ho).
    unfold ReviewScheduler.get_due_reviews.
    rewrite (due_items_raises self now threshold _ [] k r OverflowError);
      [done|by apply elem_of_dict_iter|by apply due_item_overflow|].
    intros k' r' e' _ Hd.
    apply due_item_thrown in Hd as [_ [[-> _]|[_ [?|?]]]]; done.
Qed.

End DueReviews.

(** ** The two retention formulas *)

Section Retention.
Local Open Scope R_scope.

Lemma get_retention_pos now r :
  0 < MasteryRecord.stability r →
  MasteryRecord.get_retention now r = scheduler_retention now r.
Proof.
  intros HS. unfold MasteryRecord.get_retention, scheduler_retention.
  destruct (MasteryRecord.last_review r) as [lr|]; [|done].
  unfold py_div. destruct (Req_dec_T _ _); [lra|]. cbn [obind].
  unfold Ebbinghaus.calculate_retention.
  destruct (Rle_dec _ _); [lra|done].
Qed.

(** X21. [MasteryRecord.get_retention] against the retention that
[get_due_reviews] computes. For a positive stability the two calls have the
same outcome: the same value, or both the [OverflowError] of [math.exp].
Both return 0 without a last review. With a last review and stability 0 the
former raises [ZeroDivisionError] while the latter returns 0. With a
negative stability and a last review not in the future the latter returns
0, while the former returns 1 or, when the exponential of
[-days_elapsed / stability] is above the largest float and that quotient is
not, raises the [OverflowError]. *)
Theorem get_retention_agreement (now : R) (r : MasteryRecord.t) :
  (0 < MasteryRecord.stability r →
   MasteryRecord.get_retention now r = scheduler_retention now r)
  ∧ (MasteryRecord.last_review r = None →
     MasteryRecord.get_retention now r = Returned 0
     ∧ scheduler_retention now r = Returned 0)
  ∧ (∀ lr, MasteryRecord.last_review r = Some lr →
       MasteryRecord.stability r = 0 →
       MasteryRecord.get_retention now r = Thrown ZeroDivisionError
       ∧ scheduler_retention now r = Returned 0)
  ∧ (∀ lr, MasteryRecord.last_review r = Some lr →
       MasteryRecord.stability r < 0 →
       lr <= now →
       scheduler_retention now r = Returned 0
       ∧ (exp (- (now - lr) / MasteryRecord.stability r) <= DBL_MAX
          ∨ DBL_MAX < - (now - lr) / MasteryRecord.stability r →
          MasteryRecord.get_retention now r = Returned 1)
       ∧ (- (now - lr) / MasteryRecord.stability r <= DBL_MAX
          < exp (- (now - lr) / MasteryRecord.stability r) →
          MasteryRecord.get_retention now r = Thrown OverflowError)).
Proof.
  split; [apply get_retention_pos|]. split; [|split].
  - intros Hlr. unfold MasteryRecord.get_retention, scheduler_retention.
    rewrite Hlr. split; f_equal; lra.
  - intros lr Hlr HS. unfold MasteryRecord.get_retention, scheduler_retention.
    rewrite Hlr. unfold py_div. destruct (Req_dec_T _ _); [|done].
    split; [done|]. apply calculate_retention_nonpos. lra.
  - intros lr Hlr HS Hnow.
    unfold MasteryRecord.get_retention, scheduler_retention.
    rewrite Hlr. split; [apply calculate_retention_nonpos; lra|].
    unfold py_div. destruct (Req_dec_T _ _); [lra|].
    cbn [obind]. set (x := - (now - lr) / MasteryRecord.stability r).
    assert (1 <= exp x) as He.
    { apply exp_ge_1. unfold x.
      destruct (Req_dec_T (now - lr) 0) as [->|Hne].
      - replace (- 0 / MasteryRecord.stability r) with 0 by (field; lra).
        lra.
      - left. apply Rdiv_neg_neg; lra. }
    assert (x < exp x).
    { pose proof (exp_ineq1 x). destruct (Req_dec_T x 0); lra. }
    pose proof DBL_TINY_lt_1.
    unfold py_exp.
    destruct (Rlt_dec DBL_MAX x).
    { cbn [obind]. rewrite clamp_inf. split; [done|]. intros ?. exfalso. lra. }
    destruct (Rlt_dec DBL_MAX (exp x)).
    { cbn [obind]. split; [|done]. intros [?|?]; exfalso; lra. }
    destruct (Rlt_dec (exp x) DBL_TINY); [lra|].
    cbn [obind]. rewrite clamp_num by lra. rewrite Rmin_left by lra.
    split; [done|]. intros ?. exfalso. lra.
Qed.

End Retention.

Section DueTopics.
Context {DO : DictOrder}.
Local Open Scope R_scope.

#[local] Instance by_key_trans : Transitive MasteryTracker.by_key.
Proof. intros x y z. unfold MasteryTracker.by_key. intros; lra. Qed.

#[local] Instance by_key_total : Total MasteryTracker.by_key.
Proof.
  intros x y. unfold MasteryTracker.by_key.
  destruct (Rle_or_lt x.1 y.1); [by left|right; by apply Rlt_le].
Qed.

(** [needs_review] for a positive stability: what it returns and what it
raises. *)
Lemma needs_review_pos now threshold r :
  0 < MasteryRecord.stability r →
  match MasteryRecord.needs_review now threshold r with
  | Returned b =>
    b = true ↔ MasteryRecord.level r ≠ MasteryLevel.UNKNOWN
               ∧ ∃ v, scheduler_retention now r = Returned v ∧ v < threshold
  | Thrown e =>
    e = OverflowError
    ∧ MasteryRecord.level r ≠ MasteryLevel.UNKNOWN ∧ overflows now r
  end.
Proof.
  intros HS. unfold MasteryRecord.needs_review.
  case_decide as Hl; [split; [done|tauto]|].
  rewrite get_retention_pos by done.
  destruct (scheduler_retention now r) as [v|e] eqn:Hv; cbn [obind].
  - destruct (Rlt_dec v threshold).
    + split; [eauto|done].
    + split; [done|]. intros [_ (v' & [= <-] & ?)]. done.
  - apply scheduler_retention_thrown in Hv as [-> Ho]. done.
Qed.

Lemma due_loop_spec now threshold records due :
  (∀ k r, (k, r) ∈ records → 0 < MasteryRecord.stability r) →
  (∀ k r, (k, r) ∈ records →
          MasteryRecord.level r ≠ MasteryLevel.UNKNOWN →
          ¬ overflows (now k) r) →
  ∃ due',
    MasteryTracker.due_loop now threshold records due = Returned (due ++ due')
    ∧ ∀ k r, (k, r) ∈ due' ↔
        (k, r) ∈ records
        ∧ MasteryRecord.level r ≠ MasteryLevel.UNKNOWN
        ∧ ∃ v, scheduler_retention (now k) r = Returned v ∧ v < threshold.
Proof.
  revert due. induction records as [|[k r] records IH]; intros due Hpos Hno.
  - exists []. cbn. rewrite app_nil_r. split; [done|].
    intros k r. split; [by intros ?%elem_of_nil|by intros [?%elem_of_nil _]].
  - cbn [MasteryTracker.due_loop].
    pose proof (needs_review_pos (now k) threshold r) as Hb.
    destruct (MasteryRecord.needs_review (now k) threshold r) as [b|e].
    2:{ destruct Hb as (_ & Hl & Ho); [eapply Hpos; left|].
        destruct (Hno k r); [left|done..]. }
    specialize (Hb (Hpos k r ltac:(left))). cbn [obind].
    destruct (IH (if b then due ++ [(k, r)] else due))
      as (due' & Heq & Hin).
    { intros ???. eapply Hpos. by right. }
    { intros ???. eapply Hno. by right. }
    rewrite Heq. destruct b.
    + exists ((k, r) :: due'). rewrite <- app_assoc. split; [done|].
      intros k' r'. rewrite !elem_of_cons, Hin. split.
      * intros [[= -> ->]|(? & ? & ?)]; [|by auto].
        split; [by left|]. by apply Hb.
      * intros ([[= -> ->]|?] & ? & ?); [by left|by right].
    + exists due'. split; [done|].
      intros k' r'. rewrite elem_of_cons, Hin. split.
      * intros (? & ? & ?). auto.
      * intros ([[= -> ->]|?] & Hl & Hv); [|done].
        assert (false = true) by (apply Hb; done). done.
Qed.

Lemma needs_review_overflow now threshold r :
  0 < MasteryRecord.stability r →
  MasteryRecord.level r ≠ MasteryLevel.UNKNOWN →
  overflows now r →
  MasteryRecord.needs_review now threshold r = Thrown OverflowError.
Proof.
  intros HS Hl Ho. unfold MasteryRecord.needs_review.
  case_decide; [done|]. rewrite get_retention_pos by done.
  assert (scheduler_retention now r = Thrown OverflowError) as ->
    by by apply scheduler_retention_thrown.
  done.
Qed.

Lemma due_loop_overflow now threshold records due k r :
  (∀ k r, (k, r) ∈ records → 0 < MasteryRecord.stability r) →
  (k, r) ∈ records →
  MasteryRecord.level r ≠ MasteryLevel.UNKNOWN →
  overflows (now k) r →
  MasteryTracker.due_loop now threshold records due = Thrown OverflowError.
Proof.
  revert due. induction records as [|[k0 r0] records IH];
    intros due Hpos Hin Hl Ho.
  - by apply elem_of_nil in Hin.
  - cbn [MasteryTracker.due_loop].
    apply elem_of_cons in Hin as [[= -> ->]|Hin].
    { rewrite needs_review_overflow; [done| |done..]. eapply Hpos. left. }
    pose proof (needs_review_pos (now k0) threshold r0
                  (Hpos k0 r0 ltac:(left))) as Hb.
    destruct (MasteryRecord.needs_review (now k0) threshold r0) as [b|e].
    + cbn [obind]. apply IH; [|done..].
      intros ???. eapply Hpos. by right.
    + cbn [obind]. by destruct Hb as [-> _].
Qed.

Lemma sort_keys_spec now due :
  (∀ k r, (k, r) ∈ due →
          0 < MasteryRecord.stability r ∧ ¬ overflows (now k) r) →
  ∃ keyed,
    MasteryTracker.sort_keys now due = Returned keyed
    ∧ ∀ key r, (key, r) ∈ keyed ↔
        ∃ k, (k, r) ∈ due ∧ scheduler_retention (now k) r = Returned key.
Proof.
  induction due as [|[k r] due IH]; intros Hok.
  - exists []. split; [done|]. intros key r.
    split; [by intros ?%elem_of_nil|by intros (? & ?%elem_of_nil & _)].
  - cbn [MasteryTracker.sort_keys].
    destruct (Hok k r) as [HS Hno]; [left|].
    rewrite get_retention_pos by done.
    destruct (scheduler_retention_returns (now k) r Hno) as [v Hv].
    rewrite Hv. cbn [obind].
    destruct IH as (keyed & -> & Hin).
    { intros ???. apply Hok. by right. }
    cbn [obind]. eexists. split; [done|].
    intros key r'. rewrite elem_of_cons, Hin. split.
    + intros [[= -> ->]|(k' & ? & ?)].
      * exists k. split; [left|done].
      * exists k'. split; [by right|done].
    + intros (k' & [[= -> ->]|?]%elem_of_cons & Hk').
      * left. congruence.
      * right. by exists k'.
Qed.

(** X22. When every stored stability is positive and [math.exp] overflows
for no learned record, neither at the clock readings of the loop nor at
those of the sort keys, [get_topics_due_for_review] returns, in order of
increasing sort key, exactly the stored records that are not Unknown and
whose retention (as [get_due_reviews] computes it) is below the threshold;
the sort key of a record is its retention when the keys are read. When
[math.exp] overflows for a learned record at its reading in the loop, the
call raises the [OverflowError]. *)
Theorem get_topics_due_for_review_spec (now now_sort : string → R)
    (threshold : R) (self : MasteryTracker.t) :
  (∀ k r, MasteryTracker.records self !! k = Some r →
          0 < MasteryRecord.stability r) →
  (no_overflow now self → no_overflow now_sort self →
   ∃ keyed,
     MasteryTracker.get_topics_due_for_review now now_sort threshold self
     = Returned keyed.*2
     ∧ StronglySorted (λ x y, x.1 <= y.1) keyed
     ∧ (∀ key r, (key, r) ∈ keyed ↔
          ∃ k v, MasteryTracker.records self !! k = Some r
                 ∧ MasteryRecord.level r ≠ MasteryLevel.UNKNOWN
                 ∧ scheduler_retention (now k) r = Returned v
                 ∧ v < threshold
                 ∧ scheduler_retention (now_sort k) r = Returned key))
  ∧ ((∃ k r, MasteryTracker.records self !! k = Some r
             ∧ MasteryRecord.level r ≠ MasteryLevel.UNKNOWN
             ∧ overflows (now k) r) →
     MasteryTracker.get_topics_due_for_review now now_sort threshold self
     = Thrown OverflowError).
Proof.
  intros Hpos. unfold MasteryTracker.get_topics_due_for_review. split.
  - intros Hno Hno'.
    destruct (due_loop_spec now threshold
                (dict_iter (MasteryTracker.records self)) [])
      as (due & -> & Hdue).
    { intros k r Hin%elem_of_dict_iter. by eapply Hpos. }
    { intros k r Hin%elem_of_dict_iter. by apply Hno. }
    cbn [obind app].
    destruct (sort_keys_spec now_sort due) as (keyed & -> & Hkeyed).
    { intros k r (Hin%elem_of_dict_iter & Hl & _)%Hdue.
      split; [by eapply Hpos|by apply Hno']. }
    cbn [obind]. eexists. split; [reflexivity|]. split.
    + apply (StronglySorted_py_sorted MasteryTracker.by_key).
    + intros key r. rewrite py_sorted_Permutation, Hkeyed. split.
      * intros (k & (Hin%elem_of_dict_iter & Hl & v & Hv & Hlt)%Hdue & Hk).
        exists k, v. done.
      * intros (k & v & Hk & Hl & Hv & Hlt & Hkey). exists k.
        split; [|done]. apply Hdue.
        split; [by apply elem_of_dict_iter|]. split; [done|]. by exists v.
  - intros (k & r & Hk & Hl & Ho).
    rewrite (due_loop_overflow now threshold _ [] k r); [done| |
      by apply elem_of_dict_iter|done..].
    intros k' r' Hin%elem_of_dict_iter. by eapply Hpos.
Qed.

(** X23. [days_until_retention_drops_to] is 0 when the current retention
is not above the target, and raises the [ValueError] of [math.log] for a
target <= 0 below the current retention. For 0 < target < current <= 1 and a
positive stability it returns a positive number of days d such that, t_c
being the time at which the forgetting curve is at the current retention,
the curve is at the target at t_c + d (floats as real numbers: at the
values themselves when the target is within the range of floats, as every
positive float is, and at 0 for what is below it). *)
Theorem days_until_retention_drops (current target stability : R) :
  (current <= target →
   Ebbinghaus.days_until_retention_drops_to current target stability = Returned 0)
  ∧ (target < current → target <= 0 →
     Ebbinghaus.days_until_retention_drops_to current target stability
     = Thrown MathDomainError)
  ∧ (0 < target < current → current <= 1 → 0 < stability →
     ∃ t_c d,
       Ebbinghaus.days_until_retention_drops_to current target stability
       = Returned d
       ∧ 0 < d
       ∧ 0 <= t_c
       ∧ Ebbinghaus.calculate_retention t_c stability
         = Returned (flush current)
       ∧ Ebbinghaus.calculate_retention (t_c + d) stability
         = Returned (flush target)
       ∧ (DBL_TINY <= target →
          Ebbinghaus.calculate_retention t_c stability = Returned current
          ∧ Ebbinghaus.calculate_retention (t_c + d) stability
            = Returned target)).
Proof.
  unfold Ebbinghaus.days_until_retention_drops_to.
  split; [|split].
  - intros Hle. destruct (Rle_dec _ _); [f_equal; lra|lra].
  - intros Hlt Ht. destruct (Rle_dec _ _); [lra|].
    unfold py_log.
    destruct (Rgt_dec current 0).
    + destruct (Rlt_dec 0 current); [|lra]. cbn [obind].
      destruct (Rlt_dec 0 target); [lra|done].
    + cbn [obind]. destruct (Rlt_dec 0 target); [lra|done].
  - intros Ht Hc HS. destruct (Rle_dec _ _); [lra|].
    unfold py_log.
    destruct (Rgt_dec current 0); [|lra].
    destruct (Rlt_dec 0 current); [|lra]. cbn [obind].
    destruct (Rlt_dec 0 target); [|lra]. cbn [obind].
    assert (ln target < ln current) as Hln by (apply ln_increasing; lra).
    assert (ln current <= 0) as Hlc.
    { rewrite <- ln_1. destruct (Req_dec_T current 1) as [->|Hne]; [lra|].
      left. apply ln_increasing; lra. }
    exists (- stability * ln current). eexists. split; [reflexivity|].
    rewrite py_max_Rmax.
    assert (0 < - stability * ln target - - stability * ln current) as Hd
      by nra.
    rewrite Rmax_right by lra.
    assert (0 <= - stability * ln current) as Htc by nra.
    split; [done|]. split; [done|].
    rewrite !calculate_retention_elapsed by lra.
    replace (- (- stability * ln current) / stability) with (ln current)
      by (field; lra).
    replace (- (- stability * ln current
                + (- stability * ln target - - stability * ln current))
             / stability) with (ln target) by (field; lra).
    rewrite !exp_ln by lra. split; [done|]. split; [done|].
    intros Htiny. unfold flush.
    destruct (Rlt_dec current DBL_TINY), (Rlt_dec target DBL_TINY);
      try lra; done.
Qed.

End DueTopics.

Section Agreement.
Local Open Scope R_scope.

(** The states the tracker reaches from the empty one keep a positive
stability, and a record is Unknown exactly when it has no last review. *)
Lemma run_consistent (ops : list op) (k : string) :
  Forall nonneg_weights ops →
  0 < MasteryRecord.stability (record_at (run ops MasteryTracker.empty) k)
  ∧ (MasteryRecord.level (record_at (run ops MasteryTracker.empty) k)
     = MasteryLevel.UNKNOWN
     ↔ MasteryRecord.last_review (record_at (run ops MasteryTracker.empty) k)
       = None).
Proof.
  intros Hops. set (r := record_at (run ops MasteryTracker.empty) k).
  assert (in_range r) as Hr.
  { apply run_in_range; [done|]. intros k'.
    unfold record_at, in_range. simpl. rewrite lookup_empty. simpl. lra. }
  unfold in_range in Hr. split; [lra|].
  destruct (run_tracked ops k) as [_ _ _ _ _ Hlevel Hfresh Hrev].
  fold r in Hlevel, Hfresh, Hrev.
  destruct (decide (practices k ops = [])) as [Hnil|Hne].
  - rewrite (Hfresh Hnil). done.
  - split.
    + intros Hl. exfalso. rewrite Hlevel in Hl.
      destruct (practices k ops) as [|p ps _] using rev_ind; [done|].
      rewrite fmap_app, foldl_app in Hl. simpl in Hl.
      by apply next_level_not_unknown in Hl.
    + intros Hl. apply Hrev in Hne as [[? Hs'] _]. congruence.
Qed.

(** X30. The three tests of being due for review, on any record with a
positive stability for which [math.exp] does not overflow, for a threshold
and a target retention in (0, 1). [MasteryRecord.needs_review] and the test
of [get_due_reviews] always agree: the record is not Unknown and its
retention is below the threshold. [ReviewSchedule.should_review_now] tells
instead whether the record has a last review and its retention is below the
threshold, so it agrees with the other two whenever the record is Unknown
exactly when it has no last review. That holds in every state the tracker
reaches from the empty one by [record_practice] and [apply_fire_credit]
with non-negative weights. It fails for a learned record without a last
review, which is due by the first two tests and not by the third. *)
Theorem due_tests_agree (now threshold : R) (self : ReviewScheduler.t)
    (r : MasteryRecord.t) :
  0 < threshold < 1 →
  0 < Ebbinghaus.target_retention (ReviewScheduler.schedule self) < 1 →
  0 < MasteryRecord.stability r →
  ¬ overflows now r →
  ∃ v b b' o,
    scheduler_retention now r = Returned v
    ∧ MasteryRecord.get_retention now r = Returned v
    ∧ MasteryRecord.needs_review now threshold r = Returned b
    ∧ ReviewScheduler.due_item self now threshold r = Returned o
    ∧ Ebbinghaus.should_review_now (ReviewScheduler.schedule self) now
        (MasteryRecord.last_review r) (MasteryRecord.stability r) threshold
      = Returned b'
    ∧ (b = true
       ↔ MasteryRecord.level r ≠ MasteryLevel.UNKNOWN ∧ v < threshold)
    ∧ (is_Some o ↔ b = true)
    ∧ (b' = true
       ↔ is_Some (MasteryRecord.last_review r) ∧ v < threshold)
    ∧ ((MasteryRecord.level r = MasteryLevel.UNKNOWN
        ↔ MasteryRecord.last_review r = None) → b' = b)
    ∧ (MasteryRecord.level r ≠ MasteryLevel.UNKNOWN →
       MasteryRecord.last_review r = None → b = true ∧ b' = false)
    ∧ (∀ ops k,
         Forall nonneg_weights ops →
         0 < MasteryRecord.stability
               (record_at (run ops MasteryTracker.empty) k)
         ∧ (MasteryRecord.level (record_at (run ops MasteryTracker.empty) k)
            = MasteryLevel.UNKNOWN
            ↔ MasteryRecord.last_review
                (record_at (run ops MasteryTracker.empty) k) = None)).
Proof.
  intros Ht Hs HS Hno.
  destruct (scheduler_retention_returns now r Hno) as [v Hv].
  assert (0 <= v <= 1) as Hrange by by eapply scheduler_retention_range.
  pose proof (needs_review_pos now threshold r HS) as Hb.
  destruct (MasteryRecord.needs_review now threshold r) as [b|e];
    [|by destruct Hb as (_ & _ & ?)].
  assert (b = true
          ↔ MasteryRecord.level r ≠ MasteryLevel.UNKNOWN ∧ v < threshold)
    as Hb'.
  { rewrite Hb. split.
    - intros [Hl (v' & Hv' & Hlt)]. split; [done|]. congruence.
    - intros [Hl Hlt]. split; [done|]. by exists v. }
  destruct (due_item_ok self now threshold r Ht Hs (λ _, Hno)) as [o Ho].
  assert (is_Some o ↔ b = true) as Hob.
  { rewrite Hb'. split.
    - intros [it ->]. apply due_item_some in Ho as (? & _ & Hit & ? & _).
      split; [done|]. congruence.
    - intros [Hl Hlt].
      destruct (due_item_due self now threshold r v Ht Hs Hl Hv Hlt)
        as [it Hit].
      rewrite Hit in Ho. injection Ho as <-. eauto. }
  assert (∃ b', Ebbinghaus.should_review_now
                  (ReviewScheduler.schedule self) now
                  (MasteryRecord.last_review r) (MasteryRecord.stability r)
                  threshold = Returned b'
                ∧ (b' = true
                   ↔ is_Some (MasteryRecord.last_review r) ∧ v < threshold))
    as (b' & Hb'eq & Hb'iff).
  { unfold Ebbinghaus.should_review_now, scheduler_retention in *.
    destruct (MasteryRecord.last_review r) as [lr|].
    - rewrite Hv. cbn [obind]. eexists. split; [done|].
      destruct (Rlt_dec v threshold); [by eauto|].
      split; [done|]. intros [_ ?]. done.
    - eexists. split; [done|]. split; [done|]. by intros [[? [=]] _]. }
  exists v, b, b', o.
  split; [done|]. split; [by rewrite get_retention_pos|].
  split; [done|]. split; [done|]. split; [done|]. split; [done|].
  split; [done|]. split; [done|]. split; [|split].
  - intros Hul. apply eq_true_iff_eq. rewrite Hb', Hb'iff.
    rewrite <- not_eq_None_Some. rewrite Hul. tauto.
  - intros Hl Hnone. split.
    + apply Hb'. split; [done|].
      unfold scheduler_retention in Hv. rewrite Hnone in Hv.
      injection Hv as <-. lra.
    + apply not_true_is_false. rewrite Hb'iff, Hnone.
      intros [[? [=]] _].
  - apply run_consistent.
Qed.

End Agreement.

(** ** [complete_review] *)

Section CompleteReview.
Local Open Scope R_scope.

Lemma apply_fire_credit_keeps now t ws b tr k :
  is_Some (MasteryTracker.records tr !! k) →
  is_Some (MasteryTracker.records
             (MasteryTracker.apply_fire_credit now t ws b tr) !! k).
Proof.
  unfold MasteryTracker.apply_fire_credit. revert tr.
  induction ws as [|[p w] ws IH]; intros tr Hk; [done|].
  cbn [foldl]. apply IH. unfold MasteryTracker.fire_credit_step.
  destruct (Rge_dec _ _); [|done].
  unfold MasteryTracker.get_record.
  destruct (MasteryTracker.records tr !! p) as [rec|] eqn:Hp.
  - destruct (MasteryRecord.last_review rec); [|done]. simpl.
    destruct (decide (k = p)) as [->|Hne].
    + by rewrite lookup_insert_eq.
    + by rewrite lookup_insert_ne.
  - simpl. destruct (decide (k = p)) as [->|Hne].
    + by rewrite lookup_insert_eq.
    + by rewrite lookup_insert_ne.
Qed.

Lemma record_practice_next_level now s pt ts r r' l :
  MasteryRecord.record_practice now s pt ts r = Ok (r', l) →
  l = next_level (MasteryRecord.level r) s ∧ MasteryRecord.level r' = l.
Proof.
  unfold MasteryRecord.record_practice.
  rewrite next_level_from_score. cbn [bind]. by intros [= <- <-].
Qed.


End CompleteReview.

(** ** Study sessions *)

Section Sessions.
Local Open Scope R_scope.
Import StudySession.

Lemma py_floor_spec x : IZR (py_floor x) <= x < IZR (py_floor x) + 1.
Proof.
  unfold py_floor. rewrite minus_IZR.
  destruct (archimed x) as [H1 H2]. lra.
Qed.

Lemma py_int_nonneg x : 0 <= x → IZR (py_int x) <= x < IZR (py_int x) + 1.
Proof.
  intros Hx. unfold py_int. destruct (Rle_dec 0 x); [|lra].
  apply py_floor_spec.
Qed.

(** X25. Session time: elapsed and remaining minutes are never negative;
[is_time_up] holds exactly when no time remains; before that, elapsed +
remaining = planned; and the remaining time never exceeds a non-negative
plan. *)
Theorem session_time_accounting (now : R) (s : StudySession.t) :
  0 <= get_elapsed_minutes now s
  ∧ 0 <= get_remaining_minutes now s
  ∧ (is_time_up now s = true ↔ get_remaining_minutes now s = 0)
  ∧ (is_time_up now s = false →
     get_elapsed_minutes now s + get_remaining_minutes now s
     = IZR (planned_minutes s))
  ∧ ((0 ≤ planned_minutes s)%Z →
     get_remaining_minutes now s <= IZR (planned_minutes s)).
Proof.
  assert (0 <= get_elapsed_minutes now s) as He.
  { unfold get_elapsed_minutes. cbv zeta. rewrite py_max_Rmax. apply Rmax_l. }
  unfold get_remaining_minutes, is_time_up.
  set (e := get_elapsed_minutes now s) in *.
  set (P := IZR (planned_minutes s)).
  rewrite py_max_Rmax.
  split; [done|]. split; [apply Rmax_l|].
  split; [|split].
  - destruct (Rge_dec e P) as [Hge|Hlt].
    + split; [|done]. intros _. apply Rmax_left. lra.
    + split; [done|]. intros Hm. exfalso.
      rewrite Rmax_right in Hm by lra. lra.
  - destruct (Rge_dec e P); [done|]. intros _.
    rewrite Rmax_right by lra. lra.
  - intros HP. apply IZR_le in HP. fold P in HP.
    apply Rmax_lub; lra.
Qed.

(** X26. Pausing an active session freezes its elapsed time. Resuming
adds the pause, truncated to whole seconds, to [total_paused_seconds], so the
elapsed time at the moment of resuming exceeds the frozen one by less than a
second. Ending a paused session instead counts the pause as active time: the
elapsed time is that of a session never paused. Pausing a paused session and
resuming an active one do nothing. *)
Theorem pause_resume_accounting (t1 t2 : R) (s : StudySession.t) :
  status s = SessionStatus.ACTIVE →
  ended_at s = None →
  paused_at s = None →
  t1 <= t2 →
  let p := pause t1 s in
  let r := resume t2 p in
  status p = SessionStatus.PAUSED
  ∧ (∀ now, get_elapsed_minutes now p = get_elapsed_minutes t1 s)
  ∧ status r = SessionStatus.ACTIVE
  ∧ paused_at r = None
  ∧ total_paused_seconds r
    = (total_paused_seconds s + py_int ((t2 - t1) * 86400))%Z
  ∧ get_elapsed_minutes t1 s <= get_elapsed_minutes t2 r
  ∧ get_elapsed_minutes t2 r < get_elapsed_minutes t1 s + 1 / 60
  ∧ (∀ now status',
       get_elapsed_minutes now (end_ t2 status' p) = get_elapsed_minutes t2 s)
  ∧ pause t2 p = p
  ∧ resume t2 s = s.
Proof.
  intros Hst He Hp Ht p r. subst p r.
  unfold pause, resume.
  rewrite !(decide_True (P := status s = SessionStatus.ACTIVE)) by done.
  rewrite (decide_False (P := status s = SessionStatus.PAUSED))
    by (by rewrite Hst).
  cbn.
  rewrite !(decide_True (P := SessionStatus.PAUSED = SessionStatus.PAUSED))
    by done.
  cbn.
  unfold get_elapsed_minutes. cbn. rewrite He, Hp. cbv zeta.
  split; [done|]. split; [done|]. split; [done|]. split; [done|].
  split; [done|].
  assert (0 <= (t2 - t1) * 86400) as Hx by nra.
  pose proof (py_int_nonneg _ Hx) as Hi.
  rewrite plus_IZR, !py_max_Rmax.
  split; [|split; [|split; [|split]]].
  - apply Rle_max_compat_l. lra.
  - unfold Rmax. repeat destruct (Rle_dec _ _); lra.
  - done.
  - done.
  - done.
Qed.

Lemma update_first_ids task_id f tasks :
  (∀ task, PracticeTask.task_id (f task) = PracticeTask.task_id task) →
  PracticeTask.task_id <$> (update_first task_id f tasks).1
  = PracticeTask.task_id <$> tasks.
Proof.
  intros Hf. induction tasks as [|task tasks IH]; [done|].
  cbn [update_first]. case_decide.
  - cbn. by rewrite Hf.
  - destruct (update_first task_id f tasks) as [tasks' found].
    cbn in *. by rewrite IH.
Qed.

Lemma update_first_found task_id f tasks :
  is_Some (update_first task_id f tasks).2
  ↔ task_id ∈ PracticeTask.task_id <$> tasks.
Proof.
  induction tasks as [|task tasks IH].
  - cbn. split; [by intros [? ?]|by intros ?%elem_of_nil].
  - cbn [update_first]. case_decide as Hid.
    + cbn. split; [intros _; rewrite Hid; left|eauto].
    + destruct (update_first task_id f tasks) as [tasks' found].
      cbn in *. rewrite IH. split; [by right|].
      intros [?|?]%elem_of_cons; [congruence|done].
Qed.

Lemma update_first_scored task_id f tasks :
  (∀ task, is_Some (PracticeTask.score task) →
           is_Some (PracticeTask.score (f task))) →
  (length (scored (update_first task_id f tasks).1)
   ≤ length (scored tasks)
     + match (update_first task_id f tasks).2 with
       | Some _ => 1
       | None => 0
       end)%nat
  ∧ ((∀ task, is_Some (PracticeTask.score (f task)) →
              is_Some (PracticeTask.score task)) →
     length (scored (update_first task_id f tasks).1)
     = length (scored tasks)).
Proof.
  intros Hf. unfold scored. induction tasks as [|task tasks IH]; [done|].
  cbn [update_first]. case_decide as Hid.
  - cbn [fst snd]. rewrite !filter_cons. split.
    + repeat case_decide; cbn [length]; lia.
    + intros Hf'. repeat case_decide; cbn [length]; try lia.
      * exfalso. auto.
      * exfalso. auto.
  - destruct (update_first task_id f tasks) as [tasks' found].
    cbn [fst snd] in *. rewrite !filter_cons.
    destruct IH as [IH1 IH2]. split.
    + case_decide; cbn [length]; lia.
    + intros Hf'. specialize (IH2 Hf'). case_decide; cbn [length]; lia.
Qed.

Lemma sum_R_app l1 l2 : sum_R (l1 ++ l2) = sum_R l1 + sum_R l2.
Proof.
  unfold sum_R. induction l1 as [|x l1 IH]; cbn; [lra|]. rewrite IH. lra.
Qed.

(** What one call does to the statistics of a session: [hit] holds the
score of a [complete_task] that finds its task. *)
Lemma session_step_stats s o :
  ∃ hit,
    (∀ ops, completions (PracticeTask.task_id <$> tasks s) (o :: ops)
            = hit ++ completions
                       (PracticeTask.task_id <$> tasks (session_step s o)) ops)
    ∧ tasks_completed (session_step s o)
      = (tasks_completed s + Z.of_nat (length hit))%Z
    ∧ total_score (session_step s o) = total_score s + sum_R hit
    ∧ (length (scored (tasks (session_step s o)))
       ≤ length (scored (tasks s)) + length hit)%nat.
Proof.
  assert (sum_R [] = 0) as Hnil by done.
  destruct o as [hex topic pt diff|now id|now id sc|id|now|now];
    cbn [session_step completions].
  - exists []. cbn. rewrite fmap_app. cbn.
    split; [done|]. split; [lia|]. split; [lra|].
    unfold scored. rewrite filter_app.
    rewrite filter_cons, decide_False by (cbn; by intros [? ?]).
    rewrite filter_nil, app_nil_r. lia.
  - exists []. unfold start_task.
    pose proof (update_first_ids id
      (λ task,
         {| PracticeTask.task_id := PracticeTask.task_id task;
            PracticeTask.topic_id := PracticeTask.topic_id task;
            PracticeTask.problem_type := PracticeTask.problem_type task;
            PracticeTask.difficulty := PracticeTask.difficulty task;
            PracticeTask.started_at := Some now;
            PracticeTask.completed_at := PracticeTask.completed_at task;
            PracticeTask.score := PracticeTask.score task;
            PracticeTask.skipped := PracticeTask.skipped task;
            PracticeTask.hint_used := PracticeTask.hint_used task |})
      (tasks s) (λ _, eq_refl)) as Hids.
    pose proof (update_first_scored id
      (λ task,
         {| PracticeTask.task_id := PracticeTask.task_id task;
            PracticeTask.topic_id := PracticeTask.topic_id task;
            PracticeTask.problem_type := PracticeTask.problem_type task;
            PracticeTask.difficulty := PracticeTask.difficulty task;
            PracticeTask.started_at := Some now;
            PracticeTask.completed_at := PracticeTask.completed_at task;
            PracticeTask.score := PracticeTask.score task;
            PracticeTask.skipped := PracticeTask.skipped task;
            PracticeTask.hint_used := PracticeTask.hint_used task |})
      (tasks s) (λ _ H, H)) as [_ Hsc].
    specialize (Hsc (λ _ H, H)).
    destruct (update_first _ _ _) as [tasks' found]. cbn in *.
    rewrite Hids, Hsc. split; [done|]. split; [lia|]. split; [lra|lia].
  - unfold complete_task.
    pose proof (update_first_ids id
      (λ task,
         {| PracticeTask.task_id := PracticeTask.task_id task;
            PracticeTask.topic_id := PracticeTask.topic_id task;
            PracticeTask.problem_type := PracticeTask.problem_type task;
            PracticeTask.difficulty := PracticeTask.difficulty task;
            PracticeTask.started_at := PracticeTask.started_at task;
            PracticeTask.completed_at := Some now;
            PracticeTask.score := Some sc;
            PracticeTask.skipped := PracticeTask.skipped task;
            PracticeTask.hint_used := PracticeTask.hint_used task |})
      (tasks s) (λ _, eq_refl)) as Hids.
    pose proof (update_first_found id
      (λ task,
         {| PracticeTask.task_id := PracticeTask.task_id task;
            PracticeTask.topic_id := PracticeTask.topic_id task;
            PracticeTask.problem_type := PracticeTask.problem_type task;
            PracticeTask.difficulty := PracticeTask.difficulty task;
            PracticeTask.started_at := PracticeTask.started_at task;
            PracticeTask.completed_at := Some now;
            PracticeTask.score := Some sc;
            PracticeTask.skipped := PracticeTask.skipped task;
            PracticeTask.hint_used := PracticeTask.hint_used task |})
      (tasks s)) as Hfound.
    pose proof (update_first_scored id
      (λ task,
         {| PracticeTask.task_id := PracticeTask.task_id task;
            PracticeTask.topic_id := PracticeTask.topic_id task;
            PracticeTask.problem_type := PracticeTask.problem_type task;
            PracticeTask.difficulty := PracticeTask.difficulty task;
            PracticeTask.started_at := PracticeTask.started_at task;
            PracticeTask.completed_at := Some now;
            PracticeTask.score := Some sc;
            PracticeTask.skipped := PracticeTask.skipped task;
            PracticeTask.hint_used := PracticeTask.hint_used task |})
      (tasks s) (λ _ _, mk_is_Some _ _ eq_refl)) as [Hsc _].
    destruct (update_first _ _ _) as [tasks' [task|]]; cbn in *.
    + exists [sc].
      destruct (decide (id ∈ PracticeTask.task_id <$> tasks s)) as [_|Hno].
      2:{ exfalso. apply Hno, Hfound. eauto. }
      rewrite Hids. cbn [length]. unfold sum_R. cbn [foldr].
      split; [done|]. split; [lia|]. split; [lra|lia].
    + exists [].
      destruct (decide (id ∈ PracticeTask.task_id <$> tasks s)) as [Hin|_].
      { apply Hfound in Hin. by destruct Hin. }
      cbn. split; [done|]. split; [lia|]. split; [lra|lia].
  - exists []. unfold skip_task.
    pose proof (update_first_ids id
      (λ task,
         {| PracticeTask.task_id := PracticeTask.task_id task;
            PracticeTask.topic_id := PracticeTask.topic_id task;
            PracticeTask.problem_type := PracticeTask.problem_type task;
            PracticeTask.difficulty := PracticeTask.difficulty task;
            PracticeTask.started_at := PracticeTask.started_at task;
            PracticeTask.completed_at := PracticeTask.completed_at task;
            PracticeTask.score := PracticeTask.score task;
            PracticeTask.skipped := true;
            PracticeTask.hint_used := PracticeTask.hint_used task |})
      (tasks s) (λ _, eq_refl)) as Hids.
    pose proof (update_first_scored id
      (λ task,
         {| PracticeTask.task_id := PracticeTask.task_id task;
            PracticeTask.topic_id := PracticeTask.topic_id task;
            PracticeTask.problem_type := PracticeTask.problem_type task;
            PracticeTask.difficulty := PracticeTask.difficulty task;
            PracticeTask.started_at := PracticeTask.started_at task;
            PracticeTask.completed_at := PracticeTask.completed_at task;
            PracticeTask.score := PracticeTask.score task;
            PracticeTask.skipped := true;
            PracticeTask.hint_used := PracticeTask.hint_used task |})
      (tasks s) (λ _ H, H)) as [_ Hsc].
    specialize (Hsc (λ _ H, H)).
    destruct (update_first _ _ _) as [tasks' [task|]]; cbn in *.
    + rewrite Hids, Hsc. split; [done|]. split; [lia|]. split; [lra|lia].
    + split; [done|]. split; [lia|]. split; [lra|lia].
  - exists []. unfold pause, scored. case_decide; cbn;
      (split; [done|]; split; [lia|]; split; [lra|lia]).
  - exists []. unfold resume, scored.
    case_decide; [destruct (paused_at s)|]; cbn;
      (split; [done|]; split; [lia|]; split; [lra|lia]).
Qed.

(** What a run of calls does to the statistics of a session. *)
Lemma session_run_stats ops s :
  let s' := session_run ops s in
  let done := completions (PracticeTask.task_id <$> tasks s) ops in
  tasks_completed s' = (tasks_completed s + Z.of_nat (length done))%Z
  ∧ total_score s' = total_score s + sum_R done
  ∧ (length (scored (tasks s')) ≤ length (scored (tasks s)) + length done)%nat.
Proof.
  revert s. induction ops as [|o ops IH]; intros s.
  { cbn. unfold sum_R. cbn. split; [lia|]. split; [lra|lia]. }
  cbn zeta. unfold session_run. cbn [foldl].
  specialize (IH (session_step s o)). cbn zeta in IH. unfold session_run in IH.
  destruct IH as (IH1 & IH2 & IH3).
  destruct (session_step_stats s o) as (hit & Hc & H1 & H2 & H3).
  rewrite Hc, IH1, IH2, H1, H2, length_app.
  rewrite sum_R_app.
  split; [lia|]. split; [lra|lia].
Qed.

(** X27. Session statistics after any sequence of calls on a new
session: [tasks_completed] is the number of [complete_task] calls that found
their task and [total_score] the sum of their scores, so [get_average_score]
is their mean. The number of tasks holding a score is at most
[tasks_completed]: completing a task twice counts twice. *)
Theorem session_statistics (now : R) (session_id domain : string)
    (planned_minutes : Z) (ops : list session_op) :
  let s := session_run ops (new now session_id domain planned_minutes) in
  let done := completions [] ops in
  tasks_completed s = Z.of_nat (length done)
  ∧ total_score s = sum_R done
  ∧ get_average_score s * INR (length done) = sum_R done
  ∧ (Z.of_nat (length (scored (tasks s))) ≤ tasks_completed s)%Z.
Proof.
  intros s done.
  destruct (session_run_stats ops (new now session_id domain planned_minutes))
    as (H1 & H2 & H3).
  cbn in H1, H2, H3. fold s done in H1, H2, H3.
  rewrite Z.add_0_l in H1.
  replace (0.0 + sum_R done) with (sum_R done) in H2 by lra.
  split; [done|]. split; [done|]. split; [|lia].
  unfold get_average_score. rewrite H1, H2.
  case_decide as Hz.
  - assert (length done = 0%nat) as Hlen by lia.
    destruct done; [|done]. unfold sum_R. cbn. lra.
  - rewrite <- INR_IZR_INZ. field.
    apply not_0_INR. lia.
Qed.

End Sessions.

(** ** Saving and loading *)

Section TrackerPersistence.
Context {DO : DictOrder}.
Local Open Scope R_scope.

Lemma event_round_trip (e : PracticeEvent.t) :
  PracticeEvent.from_dict (PracticeEvent.to_dict e) = Returned e.
Proof. by destruct e. Qed.

Lemma events_round_trip (h : list PracticeEvent.t) :
  map_outcome PracticeEvent.from_dict (PracticeEvent.to_dict <$> h) = Returned h.
Proof.
  induction h as [|e h IH]; [done|].
  cbn [fmap list_fmap map_outcome]. rewrite event_round_trip.
  cbn [obind]. fold (fmap PracticeEvent.to_dict h). rewrite IH. done.
Qed.

Lemma record_round_trip (r : MasteryRecord.t) :
  MasteryRecord.from_dict (MasteryRecord.to_dict r) = Returned r.
Proof.
  destruct r as [id lv lp pc tt av h st lr].
  unfold MasteryRecord.from_dict, MasteryRecord.to_dict. cbn [MasteryRecord.topic_id
    MasteryRecord.level MasteryRecord.last_practiced
    MasteryRecord.practice_count MasteryRecord.total_time_seconds
    MasteryRecord.average_score MasteryRecord.history
    MasteryRecord.stability MasteryRecord.last_review].
  simpl. rewrite of_value_value. simpl.
  rewrite events_round_trip. simpl.
  by destruct lp, lr.
Qed.

Lemma load_loop_spec (l : list (string * MasteryRecord.t))
    (self : MasteryTracker.t) :
  (∀ k r, (k, r) ∈ l → MasteryRecord.topic_id r = k) →
  MasteryTracker.load_loop self (MasteryRecord.to_dict <$> l.*2)
  = {| MasteryTracker.records :=
         foldl (λ m kr, <[kr.1 := kr.2]> m) (MasteryTracker.records self) l |}.
Proof.
  revert self. induction l as [|[k r] l IH]; intros self Hkey.
  - by destruct self.
  - cbn [fmap list_fmap MasteryTracker.load_loop snd foldl fst].
    rewrite record_round_trip.
    fold (fmap snd l). fold (fmap MasteryRecord.to_dict l.*2).
    rewrite IH by (intros ???; apply Hkey; by right).
    cbn [MasteryTracker.records]. by rewrite (Hkey k r) by left.
Qed.

Lemma foldl_insert_dict_iter {A} (m : gmap string A) :
  foldl (λ acc kv, <[kv.1 := kv.2]> acc) ∅ (dict_iter m) = m.
Proof.
  assert (∀ (l : list (string * A)) (acc : gmap string A),
            foldl (λ acc kv, <[kv.1 := kv.2]> acc) acc l
            = (list_to_map (reverse l) : gmap string A) ∪ acc) as Hgen.
  { induction l as [|[k v] l IH]; intros acc.
    - cbn. by rewrite (left_id_L ∅ (∪)).
    - cbn [foldl]. rewrite IH, reverse_cons.
      rewrite list_to_map_app. cbn. 
      rewrite <- (assoc_L (∪)). f_equal.
      rewrite insert_union_singleton_l. 
      by rewrite insert_empty. }
  rewrite Hgen, (right_id_L ∅ (∪)).
  apply map_eq. intros k. apply option_eq. intros v.
  rewrite <- elem_of_list_to_map.
  - rewrite elem_of_reverse. apply elem_of_dict_iter.
  - rewrite fmap_reverse, reverse_Permutation.
    apply NoDup_fst_dict_iter.
Qed.

Lemma load_save_keyed (self : MasteryTracker.t) :
  (∀ k r, MasteryTracker.records self !! k = Some r →
          MasteryRecord.topic_id r = k) →
  MasteryTracker._load (MasteryTracker.to_doc self) MasteryTracker.empty = self.
Proof.
  intros Hkey. unfold MasteryTracker._load, MasteryTracker.to_doc. cbn [get dict_get].
  rewrite decide_True by done.
  rewrite load_loop_spec.
  2:{ intros k r Hin%elem_of_dict_iter. by apply Hkey. }
  cbn [MasteryTracker.records MasteryTracker.empty].
  rewrite foldl_insert_dict_iter. by destruct self.
Qed.

(** X28. Saving and loading. Every tracker state reached from the empty
tracker by [record_practice] and [apply_fire_credit] calls is what [_load]
rebuilds from the document [save] writes, and [MasteryRecord.from_dict]
inverts [to_dict] on every record. *)
Theorem tracker_save_load (ops : list op) :
  let self := run ops MasteryTracker.empty in
  MasteryTracker._load (MasteryTracker.to_doc self) MasteryTracker.empty = self
  ∧ (∀ r, MasteryRecord.from_dict (MasteryRecord.to_dict r) = Returned r).
Proof.
  intros self. split.
  - apply load_save_keyed. intros k r Hr.
    rewrite <- (record_at_lookup _ _ _ Hr).
    by destruct (run_tracked ops k).
  - apply record_round_trip.
Qed.

End TrackerPersistence.

Section GraphPersistence.
Context {SO : SetOrder} {DO : DictOrder}.
Import KnowledgeGraph.
Implicit Types (g : KnowledgeGraph.t) (x y : string).

Lemma as_str_list_round_trip (l : list string) :
  as_str_list (VList (VStr <$> l)) = Returned l.
Proof.
  unfold as_str_list. induction l as [|s l IH]; [done|].
  cbn [fmap list_fmap map_outcome as_str obind].
  fold (fmap VStr l). by rewrite IH.
Qed.

Lemma topic_round_trip (t : Topic.t) :
  Topic.from_dict (Topic.to_dict t) = Returned t.
Proof.
  destruct t as [id name dom desc diff hours tags concepts skills ca ua].
  unfold Topic.from_dict, Topic.to_dict.
  pose proof (as_str_list_round_trip tags) as Ht.
  pose proof (as_str_list_round_trip concepts) as Hc.
  pose proof (as_str_list_round_trip skills) as Hs.
  unfold as_str_list in *. simpl. simpl in Ht, Hc, Hs.
  rewrite Ht, Hc, Hs. simpl.
  by destruct ca, ua.
Qed.

Lemma load_topics_round_trip (l : list (string * Topic.t)) g :
  KnowledgeGraph.load_topics g ((λ item, (item.1, Topic.to_dict item.2)) <$> l)
  = Returned (foldl (λ g item, add_topic item.2 g) g l).
Proof.
  revert g. induction l as [|[k t] l IH]; intros g; [done|].
  cbn [fmap list_fmap KnowledgeGraph.load_topics fst snd foldl].
  rewrite topic_round_trip. cbn [obind]. apply IH.
Qed.

Lemma add_topics_keyed (l : list (string * Topic.t)) g :
  (∀ k t, (k, t) ∈ l → Topic.id t = k) →
  foldl (λ g item, add_topic item.2 g) g l
  = {| topics := foldl (λ m kv, <[kv.1 := kv.2]> m) (topics g) l;
       prerequisites := prerequisites g;
       dependents := dependents g |}.
Proof.
  revert g. induction l as [|[k t] l IH]; intros g Hkey.
  - by destruct g.
  - cbn [foldl]. rewrite IH by (intros ???; apply Hkey; by right).
    cbn. by rewrite (Hkey k t) by left.
Qed.

Lemma load_prereqs_strings g tid (ps : list string) :
  KnowledgeGraph.load_prereqs g tid (VStr <$> ps)
  = Returned (foldl (λ g p, (add_prerequisite tid p g).1) g ps).
Proof.
  revert g. induction ps as [|p ps IH]; intros g; [done|].
  cbn [fmap list_fmap KnowledgeGraph.load_prereqs KnowledgeGraph.try_add obind foldl]. apply IH.
Qed.

(** The edges in the order in which [from_dict] replays them. *)
Lemma load_edges_round_trip (l : list (string * gset string)) g :
  KnowledgeGraph.load_edges
    g ((λ item, (item.1, VList (VStr <$> set_iter item.2))) <$> l)
  = Returned
      (foldl (λ g e, (add_prerequisite e.1 e.2 g).1) g
             (l ≫= λ item, (λ p, (item.1, p)) <$> set_iter item.2)).
Proof.
  revert g. induction l as [|[k s] l IH]; intros g; [done|].
  cbn [fmap list_fmap KnowledgeGraph.load_edges fst snd iter_of obind].
  rewrite load_prereqs_strings. cbn [obind]. rewrite IH.
  cbn [mbind list_bind fst snd]. rewrite foldl_app. f_equal. f_equal.
  generalize (set_iter s). clear. intros ps. revert g.
  induction ps as [|p ps IH]; intros g; [done|]. cbn. apply IH.
Qed.

Lemma rtc_mirror_rev g x y :
  well_formed g → rtc (dep_edge g) y x → rtc (prereq_edge g) x y.
Proof.
  intros Hwf. induction 1 as [|a b c Hab _ IH]; [done|].
  eapply rtc_r; [exact IH|]. by apply (wf_mirror g Hwf).
Qed.

Lemma compact_adj_add adj k x : compact adj → compact (adj_add adj k x).
Proof.
  intros Hc k' s. unfold adj_add.
  destruct (decide (k' = k)) as [->|Hne].
  - rewrite lookup_insert_eq. intros [= <-]. set_solver.
  - rewrite lookup_insert_ne by done. apply Hc.
Qed.

Lemma compact_eq (d1 d2 : gmap string (gset string)) :
  compact d1 → compact d2 →
  (∀ k x, x ∈ default ∅ (d1 !! k) ↔ x ∈ default ∅ (d2 !! k)) →
  d1 = d2.
Proof.
  intros H1 H2 Heq. apply map_eq. intros k. specialize (Heq k).
  destruct (d1 !! k) as [s1|] eqn:E1, (d2 !! k) as [s2|] eqn:E2;
    simpl in Heq.
  - f_equal. apply set_eq. exact Heq.
  - exfalso. apply (H1 k s1 E1). set_solver.
  - exfalso. apply (H2 k s2 E2). set_solver.
  - done.
Qed.

Lemma built_compact g :
  built g → compact (prerequisites g) ∧ compact (dependents g).
Proof.
  induction 1 as [|topic g _ IH|t p g _ [IH1 IH2]].
  - split; intros k s Hk; simpl in Hk; by rewrite lookup_empty in Hk.
  - done.
  - unfold add_prerequisite. repeat case_decide; try done.
    destruct (_would_create_cycle g t p); [done|]. simpl.
    split; by apply compact_adj_add.
Qed.

(** Replaying edges of an acyclic graph [g] on a graph [g0] with the
same topics and some of the edges of [g]: every one is accepted. *)
Lemma replay_edges g (edges : list (string * string)) g0 :
  well_formed g → acyclic g →
  (∀ e, e ∈ edges → prereq_edge g e.1 e.2) →
  well_formed g0 →
  topics g0 = topics g →
  (∀ x y, prereq_edge g0 x y → prereq_edge g x y) →
  compact (prerequisites g0) → compact (dependents g0) →
  let g' := foldl (λ g e, (add_prerequisite e.1 e.2 g).1) g0 edges in
  topics g' = topics g
  ∧ well_formed g'
  ∧ compact (prerequisites g') ∧ compact (dependents g')
  ∧ (∀ x y, prereq_edge g' x y ↔ prereq_edge g0 x y ∨ (x, y) ∈ edges).
Proof.
  intros Hwf Hac. revert g0.
  induction edges as [|[t p] edges IH]; intros g0 Hin Hwf0 Htop Hsub Hc1 Hc2.
  { cbn. split; [done|]. split; [done|]. split; [done|]. split; [done|].
    intros x y. split; [by left|]. intros [?|?%elem_of_nil]; done. }
  cbn zeta. cbn [foldl fst snd].
  assert (prereq_edge g t p) as Htp by (apply (Hin (t, p)); left).
  assert (acyclic g0) as Hac0.
  { intros x Hx. apply (Hac x).
    exact (tc_congruence (λ s : string, s) (prereq_edge g) x x Hsub Hx). }
  destruct (wf_registered g Hwf t p Htp) as [Ht Hp].
  assert (_would_create_cycle g0 t p = false) as Hno.
  { apply not_true_is_false. rewrite would_create_cycle_spec.
    intros Hr%(rtc_mirror_rev g0 p t Hwf0).
    apply (Hac t). eapply tc_rtc_r; [by apply tc_once|].
    eapply rtc_subrel; [|exact Hr]. exact Hsub. }
  assert (add_prerequisite t p g0
          = ({| topics := topics g0;
                prerequisites := adj_add (prerequisites g0) t p;
                dependents := adj_add (dependents g0) p t |}, Ok ())) as Hadd.
  { unfold add_prerequisite. rewrite Htop.
    rewrite decide_False by tauto. rewrite decide_False by tauto.
    by rewrite Hno. }
  destruct (add_prerequisite_preserves t p g0 Hwf0 Hac0) as [Hwf1 _].
  rewrite Hadd in Hwf1 |- *. cbn [fst] in Hwf1 |- *.
  set (g1 := {| topics := topics g0;
                prerequisites := adj_add (prerequisites g0) t p;
                dependents := adj_add (dependents g0) p t |}) in *.
  assert (∀ x y, prereq_edge g1 x y ↔ (x = t ∧ y = p) ∨ prereq_edge g0 x y)
    as Hpe.
  { intros x y. unfold prereq_edge, prereqs_of. subst g1. simpl.
    apply adj_add_lookup. }
  destruct (IH g1) as (H1 & H2 & H3 & H4 & H5).
  - intros e He. apply Hin. by right.
  - done.
  - done.
  - intros x y [[-> ->]|Hxy]%Hpe; [done|by apply Hsub].
  - by apply compact_adj_add.
  - by apply compact_adj_add.
  - split; [done|]. split; [done|]. split; [done|]. split; [done|].
    intros x y. rewrite H5, Hpe, elem_of_cons. naive_solver.
Qed.

Lemma graph_round_trip g :
  well_formed g → acyclic g →
  compact (prerequisites g) → compact (dependents g) →
  KnowledgeGraph.from_dict (KnowledgeGraph.to_dict g) = Returned g.
Proof.
  intros Hwf Hac Hc1 Hc2.
  unfold KnowledgeGraph.from_dict, KnowledgeGraph.to_dict. simpl.
  rewrite load_topics_round_trip. cbn [obind].
  rewrite load_edges_round_trip. f_equal.
  rewrite add_topics_keyed.
  2:{ intros k t Hin%elem_of_dict_iter. by apply (wf_ids g Hwf). }
  cbn [topics prerequisites dependents empty].
  rewrite foldl_insert_dict_iter.
  set (g0 := {| topics := topics g; prerequisites := ∅; dependents := ∅ |}).
  set (edges := dict_iter (prerequisites g)
                ≫= λ item, (λ p, (item.1, p)) <$> set_iter item.2).
  assert (∀ x y, (x, y) ∈ edges ↔ prereq_edge g x y) as Hedges.
  { intros x y. unfold edges, prereq_edge, prereqs_of.
    rewrite list_elem_of_bind. split.
    - intros ([k s] & Hin & Hks). simpl in Hin.
      apply list_elem_of_fmap in Hin as (p & [= -> ->] & Hp).
      apply elem_of_dict_iter in Hks. rewrite Hks. simpl.
      by apply elem_of_set_iter.
    - intros Hy. destruct (prerequisites g !! x) as [s|] eqn:E;
        [|by apply not_elem_of_empty in Hy].
      exists (x, s). split; [|by apply elem_of_dict_iter].
      simpl. apply list_elem_of_fmap. exists y. split; [done|].
      by apply elem_of_set_iter. }
  assert (∀ x y, ¬ prereq_edge g0 x y) as Hnone.
  { intros x y. unfold prereq_edge, prereqs_of, g0. simpl.
    rewrite lookup_empty. apply not_elem_of_empty. }
  destruct (replay_edges g edges g0 Hwf Hac) as (H1 & H2 & H3 & H4 & H5).
  - intros [x y] He. by apply Hedges.
  - split.
    + apply (wf_ids g Hwf).
    + intros x y Hxy. by apply Hnone in Hxy.
    + intros x y. split; [by intros ?%Hnone|].
      unfold dep_edge, dependents_of, g0. simpl. rewrite lookup_empty.
      by intros ?%not_elem_of_empty.
  - done.
  - intros x y Hxy. by apply Hnone in Hxy.
  - intros k s Hk. simpl in Hk. by rewrite lookup_empty in Hk.
  - intros k s Hk. simpl in Hk. by rewrite lookup_empty in Hk.
  - cbn zeta in *.
    set (g' := foldl (λ g e, (add_prerequisite e.1 e.2 g).1) g0 edges) in *.
    assert (∀ x y, prereq_edge g' x y ↔ prereq_edge g x y) as Hsame.
    { intros x y. rewrite H5, Hedges. split; [|by right].
      intros [?%Hnone|?]; done. }
    assert (prerequisites g' = prerequisites g) as Hp.
    { apply compact_eq; [done|done|]. intros k x. apply Hsame. }
    assert (dependents g' = dependents g) as Hd.
    { apply compact_eq; [done|done|]. intros k x.
      change (dep_edge g' k x ↔ dep_edge g k x).
      rewrite <- (wf_mirror g' H2), <- (wf_mirror g Hwf). apply Hsame. }
    destruct g' as [tp pr de], g as [tp0 pr0 de0]. simpl in *. congruence.
Qed.

(** X29. Every graph built by [add_topic] and [add_prerequisite] calls
survives a round trip: [from_dict(to_dict(g))] returns g itself, no edge
being rejected on replay; and [Topic.from_dict] inverts [to_dict]. *)
Theorem graph_save_load (g : KnowledgeGraph.t) :
  built g →
  KnowledgeGraph.from_dict (KnowledgeGraph.to_dict g) = Returned g
  ∧ (∀ k t, topics g !! k = Some t →
            Topic.from_dict (Topic.to_dict t) = Returned t).
Proof.
  intros Hb. split; [|intros; apply topic_round_trip].
  destruct (built_well_formed g Hb) as [Hwf Hac].
  destruct (built_compact g Hb) as [Hc1 Hc2].
  by apply graph_round_trip.
Qed.

End GraphPersistence.

(** * The statements at concrete inputs *)

Section Instances.
Import KnowledgeGraph.
Local Open Scope R_scope.

Lemma built_add_topics ids g :
  built (SO := elements_order) g → built (SO := elements_order) (add_topics ids g).
Proof.
  unfold add_topics. revert g. induction ids as [|i ids IH]; intros g Hg; [done|].
  simpl. apply IH. by constructor.
Qed.

Lemma built_add_edges edges g :
  built (SO := elements_order) g → built (SO := elements_order) (add_edges edges g).
Proof.
  unfold add_edges. revert g.
  induction edges as [|e edges IH]; intros g Hg; [done|].
  simpl. apply IH. by constructor.
Qed.

Lemma abc_chain_built : built (SO := elements_order) abc_chain.
Proof. apply built_add_edges, built_add_topics. constructor. Qed.

(** The scenario of the specification: the learning path to C in the chain
A <- B <- C is A, B, C; once A is completed it is B, C. *)
Example learning_path_abc :
  Topic.id <$> default [] (match get_learning_path (SO := elements_order)
                                   abc_chain "C" None with
                           | Ok path => Some path
                           | Raise _ => None
                           end) = ["A"; "B"; "C"]
  ∧ Topic.id <$> default [] (match get_learning_path (SO := elements_order)
                                     abc_chain "C" (Some {["A"]}) with
                             | Ok path => Some path
                             | Raise _ => None
                             end) = ["B"; "C"].
Proof. split; vm_compute; reflexivity. Qed.

(** The transitive prerequisites of C in that chain are B and A. *)
Example all_prerequisites_abc :
  Topic.id <$> get_all_prerequisites (SO := elements_order) abc_chain "C"
  ≡ₚ ["A"; "B"].
Proof.
  assert (Topic.id <$> get_all_prerequisites (SO := elements_order)
                                             abc_chain "C" = ["A"; "B"]
          ∨ Topic.id <$> get_all_prerequisites (SO := elements_order)
                                               abc_chain "C" = ["B"; "A"])
    as [-> | ->]; [vm_compute; auto|done|apply Permutation_swap].
Qed.

Lemma add_prerequisite_rejects_cycle_witness :
  ∃ g3,
    add_prerequisite (SO := elements_order) "A" "C" abc_chain
    = (g3, Raise (CycleDetected "C" "A"))
    ∧ prerequisites g3 = prerequisites abc_chain
    ∧ dependents g3 = dependents abc_chain
    ∧ g3 = abc_chain.
Proof.
  apply (add_prerequisite_rejects_cycle
           (SO := elements_order) abc_topics
           (add_edges [("B", "A")] abc_topics) abc_chain "A" "B" "C").
  - by vm_compute.
  - by vm_compute.
  - by vm_compute.
  - by vm_compute.
  - by vm_compute.
Defined.

Lemma get_all_prerequisites_closure_witness :
  (∀ x, x ∈ Topic.id <$> get_all_prerequisites (SO := elements_order)
                                                abc_chain "C"
        ↔ tc (prereq_edge abc_chain) "C" x)
  ∧ "C" ∉ Topic.id <$> get_all_prerequisites (SO := elements_order)
                                              abc_chain "C".
Proof.
  apply (get_all_prerequisites_closure (SO := elements_order) abc_chain "C").
  - apply (built_well_formed (SO := elements_order)), abc_chain_built.
  - apply (built_well_formed (SO := elements_order)), abc_chain_built.
Defined.

Lemma get_learning_path_topological_witness :
  ∃ path,
    get_learning_path (SO := elements_order) abc_chain "C" (Some {["A"]})
    = Ok path
    ∧ (∀ x, x ∈ Topic.id <$> path → x ∉ default ∅ (Some ({["A"]} : gset string)))
    ∧ (∀ i x p, (Topic.id <$> path) !! i = Some x →
                p ∈ prereqs_of abc_chain x → p ∈ Topic.id <$> path →
                ∃ j, j < i ∧ (Topic.id <$> path) !! j = Some p)%nat
    ∧ (∀ i x p, (Topic.id <$> path) !! i = Some x →
                p ∈ prereqs_of abc_chain x →
                p ∉ default ∅ (Some ({["A"]} : gset string)) →
                ∃ j, j < i ∧ (Topic.id <$> path) !! j = Some p)%nat
    ∧ NoDup (Topic.id <$> path).
Proof.
  apply (get_learning_path_topological
           (SO := elements_order) abc_chain "C" (Some {["A"]})).
  - apply (built_well_formed (SO := elements_order)), abc_chain_built.
  - by vm_compute.
Defined.

Lemma get_fire_ancestors_chain_witness :
  get_fire_ancestors (SO := elements_order) fire_chain "T" 4
  = <["P4" := 0.0625]>
      (<["P3" := 0.125]> (<["P2" := 0.25]> (<["P1" := 0.5]> ∅)))
  ∧ get_fire_ancestors (SO := elements_order) fire_chain "T" 4 !! "P5" = None.
Proof.
  destruct (get_fire_ancestors_chain (SO := elements_order) fire_chain
              "T" "P1" "P2" "P3" "P4" "P5") as (H1 & H2 & _).
  - apply (bool_decide_unpack _). by vm_compute.
  - by vm_compute.
  - by vm_compute.
  - by vm_compute.
  - by vm_compute.
  - by vm_compute.
  - by split.
Defined.

End Instances.

Section NumericInstances.
Local Open Scope R_scope.

Lemma DBL_MIN_small : DBL_MIN <= / 4.
Proof.
  unfold DBL_MIN. apply Rinv_le_contravar; [lra|].
  replace 4 with (2 ^ 2) by (simpl; lra).
  apply Rle_pow; [lra|]. apply Nat.leb_le. reflexivity.
Qed.


Lemma apply_fire_credit_frame_witness :
  let tr :=
    MasteryTracker.mk
      {[ "p" := MasteryRecord.mk "p" MasteryLevel.DEVELOPING (Some 0) 1 0 0.8
                                 [] 2 (Some 0) ]} in
  let r' := record_at (MasteryTracker.apply_fire_credit
                         (λ _, 7) "t" [("p", 0.5)] 1 tr) "p" in
  MasteryRecord.level r' = MasteryLevel.DEVELOPING
  ∧ MasteryRecord.stability r' = Rmin 10 (2 * (1 + 0.1 * 0.5))
  ∧ MasteryRecord.last_review r' = Some 7.
Proof.
  intros tr r'.
  assert (Hnd : NoDup [("p", 0.5)].*1).
  { apply (bool_decide_unpack _). by vm_compute. }
  destruct (apply_fire_credit_frame (λ _, 7) "t" [("p", 0.5)] 1 tr "p" Hnd)
    as ((Hl & _) & Hyes & _).
  split; [exact Hl|].
  apply Hyes; [left|lra|].
  unfold record_at, tr. simpl. rewrite lookup_singleton_eq. simpl. eauto.
Defined.

Lemma stability_bounds_witness :
  let ops := [Practice 0 "p" 1 "" 0; FireCredit (λ _, 1) "t" [("p", 0.5)] 1] in
  (∀ k r, MasteryTracker.records (run ops MasteryTracker.empty) !! k = Some r →
          0.5 <= MasteryRecord.stability r <= 10)
  ∧ (∀ cs s ret, 0.5 <= Ebbinghaus.update_stability cs s ret <= 30)
  ∧ (∃ cs s ret, Ebbinghaus.update_stability cs s ret > 10).
Proof.
  intros ops. apply (stability_bounds ops).
  repeat constructor; simpl; lra.
Defined.

Lemma unreviewed_no_overflow (now : string → R) :
  no_overflow now (ReviewScheduler.mastery unreviewed_scheduler).
Proof.
  intros k r Hk _. simpl in Hk.
  apply lookup_singleton_Some in Hk as [_ <-].
  by apply not_overflows_unreviewed.
Qed.

Lemma due_reviews_unreviewed_witness :
  ∃ items due item,
    ReviewScheduler.due_items
      unreviewed_scheduler (λ _, 0) 0.7
      (dict_iter (DO := map_order)
         (MasteryTracker.records (ReviewScheduler.mastery unreviewed_scheduler)))
      []
    = Returned items
    ∧ ReviewScheduler.get_due_reviews (DO := map_order)
        unreviewed_scheduler (λ _, 0) 10 0.7
      = Returned due
    ∧ item ∈ items
    ∧ ReviewItem.retention item = 0
    ∧ ReviewItem.days_since_review item = 0
    ∧ ReviewItem.optimal_review_date item = None.
Proof.
  destruct (due_reviews_unreviewed (DO := map_order)
              unreviewed_scheduler (λ _, 0) 10 0.7 "p" unreviewed_record)
    as (Hin & _).
  - apply lookup_singleton_eq.
  - done.
  - done.
  - simpl. lra.
  - simpl. lra.
  - apply unreviewed_no_overflow.
  - destruct Hin as (items & due & item & H1 & H2 & _ & H3 & _ & _ & H4
                     & H5 & _ & H6 & _); [lra|].
    by exists items, due, item.
Defined.

(** C10 as stated fails for a threshold of 1 (which is above 0): the call
raises the invalid-target error instead of listing the record. *)
Lemma due_reviews_threshold_one :
  0 < 1
  ∧ MasteryTracker.records (ReviewScheduler.mastery unreviewed_scheduler)
    !! "p" = Some unreviewed_record
  ∧ MasteryRecord.level unreviewed_record ≠ MasteryLevel.UNKNOWN
  ∧ MasteryRecord.last_review unreviewed_record = None
  ∧ ReviewScheduler.get_due_reviews (DO := map_order)
      unreviewed_scheduler (λ _, 0) 10 1
    = Thrown (Lib InvalidTarget).
Proof.
  split; [lra|]. split; [apply lookup_singleton_eq|].
  split; [done|]. split; [done|].
  apply (get_due_reviews_high (DO := map_order) unreviewed_scheduler (λ _, 0)
           10 1 "p" unreviewed_record 0.0).
  - lra.
  - apply unreviewed_no_overflow.
  - apply lookup_singleton_eq.
  - done.
  - done.
  - lra.
Qed.

End NumericInstances.

Section MoreInstances.
Import KnowledgeGraph.
Local Open Scope R_scope.

Lemma abc_chain_well_formed : well_formed abc_chain ∧ acyclic abc_chain.
Proof. apply (built_well_formed (SO := elements_order)), abc_chain_built. Qed.

Lemma built_graph_is_dag_witness :
  (∀ x, ¬ tc (prereq_edge abc_chain) x x)
  ∧ (∀ x y, y ∈ prereqs_of abc_chain x ↔ x ∈ dependents_of abc_chain y)
  ∧ (∀ x y, y ∈ prereqs_of abc_chain x →
            x ∈ dom (topics abc_chain) ∧ y ∈ dom (topics abc_chain))
  ∧ (∀ k t, topics abc_chain !! k = Some t → Topic.id t = k).
Proof.
  apply (built_graph_is_dag (SO := elements_order) abc_chain abc_chain_built).
Defined.

Lemma add_prerequisite_again_witness :
  add_prerequisite (SO := elements_order) "B" "A" abc_chain
  = (abc_chain, Ok ()).
Proof.
  apply (add_prerequisite_again (SO := elements_order) abc_chain "B" "A").
  - apply abc_chain_well_formed.
  - apply abc_chain_well_formed.
  - apply (bool_decide_unpack _). by vm_compute.
Defined.

Lemma get_learning_path_complete_witness :
  ∃ path,
    get_learning_path (SO := elements_order) abc_chain "C" (Some {["A"]})
    = Ok path
    ∧ NoDup (Topic.id <$> path)
    ∧ (∀ x, x ∈ Topic.id <$> path
            ↔ (x = "C" ∨ tc (prereq_edge abc_chain) "C" x)
              ∧ x ∉ default ∅ (Some ({["A"]} : gset string)))
    ∧ (∀ t, t ∈ path → topics abc_chain !! Topic.id t = Some t).
Proof.
  apply (get_learning_path_complete (SO := elements_order) abc_chain "C"
           (Some {["A"]})).
  - apply abc_chain_well_formed.
  - apply abc_chain_well_formed.
  - apply (bool_decide_unpack _). by vm_compute.
Defined.

Lemma learning_path_head_available_witness :
  ∃ t rest,
    get_learning_path (SO := elements_order) abc_chain "C" None
    = Ok (t :: rest)
    ∧ t ∈ KnowledgeGraph.get_available_topics (DO := map_order) abc_chain ∅.
Proof.
  pose proof learning_path_abc as [Hids _].
  destruct (get_learning_path (SO := elements_order) abc_chain "C" None)
    as [[|t rest]|e] eqn:E; try discriminate Hids.
  exists t, rest. split; [done|].
  apply (learning_path_head_available (SO := elements_order)
           (DO := map_order) abc_chain "C" None t rest);
    [apply abc_chain_well_formed|exact E].
Defined.

Lemma fire_credit_direct_only_witness :
  record_at (MasteryTracker.apply_fire_credit
               (λ _, 7) "T"
               (dict_iter (DO := map_order)
                  (get_fire_ancestors (SO := elements_order)
                                      fire_chain "T" 4))
               1 MasteryTracker.empty) "P2"
  = record_at MasteryTracker.empty "P2".
Proof.
  destruct (fire_credit_direct_only (SO := elements_order)
              (DO := map_order) fire_chain "T" 4
              (λ _, 7) "T" 1 MasteryTracker.empty "P2") as [H _]; [lra|].
  apply H. apply (bool_decide_unpack _). by vm_compute.
Defined.

Lemma prerequisites_dependents_mirror_witness :
  "A" ∈ Topic.id <$> get_prerequisites (SO := elements_order) abc_chain "B"
  ↔ "B" ∈ Topic.id <$> get_dependents (SO := elements_order) abc_chain "A".
Proof.
  apply (prerequisites_dependents_mirror (SO := elements_order)
           abc_chain "B" "A").
  apply abc_chain_well_formed.
Defined.

Lemma promotion_needs_threshold_witness :
  MasteryLevel.score_threshold MasteryLevel.INTRODUCED <= 0.5
  ∧ MasteryLevel.value MasteryLevel.INTRODUCED
    = (MasteryLevel.value MasteryLevel.UNKNOWN + 1)%Z.
Proof.
  apply (promotion_needs_threshold 0.5 MasteryLevel.UNKNOWN
           MasteryLevel.INTRODUCED).
  - lra.
  - apply from_score_unknown. lra.
  - simpl. lia.
Defined.

Lemma update_stability_direction_witness :
  1 <= Ebbinghaus.update_stability 1 0.95 0.3
  ∧ Ebbinghaus.update_stability 1 0.95 0.6
    <= Ebbinghaus.update_stability 1 0.95 0.3.
Proof.
  destruct (update_stability_direction 1 0.95 0.3 0.6) as (H1 & _ & H3);
    [lra|].
  split; [apply H1; lra|apply H3; lra].
Defined.

Lemma next_review_date_window_witness :
  ∃ d,
    Ebbinghaus.next_review_date (Ebbinghaus.mkSchedule 0.85 0.5 180) 0 1
    = Ok d
    ∧ 0 + 0.5 <= d ∧ d <= 0 + 180.
Proof.
  apply (next_review_date_window (Ebbinghaus.mkSchedule 0.85 0.5 180) 0 1).
  - simpl. lra.
  - simpl. lra.
Defined.

Lemma level_after_streak_witness :
  MasteryLevel.value
    (MasteryRecord.level
       (record_at (run [Practice 0 "p" 1 "" 0; Practice 1 "p" 0.96 "" 0]
                       MasteryTracker.empty) "p"))
  = Z.min 5 (MasteryLevel.value MasteryLevel.UNKNOWN + Z.of_nat 2).
Proof.
  destruct (level_after_streak
              [Practice 0 "p" 1 "" 0; Practice 1 "p" 0.96 "" 0] "p"
              [] [1; 0.96]) as [H _].
  - reflexivity.
  - done.
  - apply H. repeat constructor; lra.
Defined.

Lemma get_due_reviews_sorted_witness :
  ∃ due,
    ReviewScheduler.get_due_reviews (DO := map_order)
      unreviewed_scheduler (λ _, 0) 10 0.7
    = Returned due
    ∧ StronglySorted
        (λ x y, ReviewItem.priority y <= ReviewItem.priority x) due
    ∧ (Z.of_nat (length due) ≤ 10)%Z.
Proof.
  destruct (get_due_reviews_sorted (DO := map_order)
              unreviewed_scheduler (λ _, 0) 10 0.7)
    as (due & H1 & H2 & H3 & _).
  - lra.
  - simpl. lra.
  - apply unreviewed_no_overflow.
  - exists due. split; [done|]. split; [done|]. apply H3. lia.
Defined.

Lemma get_topics_due_for_review_spec_witness :
  ∃ keyed,
    MasteryTracker.get_topics_due_for_review (DO := map_order)
      (λ _, 0) (λ _, 0) 0.7 (ReviewScheduler.mastery unreviewed_scheduler)
    = Returned keyed.*2
    ∧ StronglySorted (λ x y, x.1 <= y.1) keyed.
Proof.
  destruct (get_topics_due_for_review_spec (DO := map_order)
              (λ _, 0) (λ _, 0) 0.7
              (ReviewScheduler.mastery unreviewed_scheduler))
    as [H _].
  - intros k r Hk. simpl in Hk.
    apply lookup_singleton_Some in Hk as [_ <-]. simpl. lra.
  - destruct H as (keyed & H1 & H2 & _);
      [apply unreviewed_no_overflow..|].
    by exists keyed.
Defined.

Lemma pause_resume_accounting_witness :
  let s := StudySession.new 0 "s" "math" 30 in
  let r := StudySession.resume 2 (StudySession.pause 1 s) in
  StudySession.status r = SessionStatus.ACTIVE
  ∧ StudySession.get_elapsed_minutes 1 s
    <= StudySession.get_elapsed_minutes 2 r
  ∧ StudySession.get_elapsed_minutes 2 r
    < StudySession.get_elapsed_minutes 1 s + 1 / 60.
Proof.
  intros s r.
  destruct (pause_resume_accounting 1 2 s) as (_ & _ & H1 & _ & _ & H2 & H3 & _).
  - reflexivity.
  - reflexivity.
  - reflexivity.
  - lra.
  - done.
Defined.

Lemma graph_save_load_witness :
  KnowledgeGraph.from_dict
    (SO := elements_order)
    (KnowledgeGraph.to_dict (SO := elements_order) (DO := map_order)
                            abc_chain)
  = Returned abc_chain.
Proof.
  apply (graph_save_load (SO := elements_order) (DO := map_order)
           abc_chain abc_chain_built).
Defined.

Lemma due_tests_agree_witness :
  ∃ b b' o,
    MasteryRecord.needs_review 3 0.7 unreviewed_record = Returned b
    ∧ ReviewScheduler.due_item unreviewed_scheduler 3 0.7 unreviewed_record
      = Returned o
    ∧ Ebbinghaus.should_review_now
        (ReviewScheduler.schedule unreviewed_scheduler) 3
        (MasteryRecord.last_review unreviewed_record)
        (MasteryRecord.stability unreviewed_record) 0.7
      = Returned b'
    ∧ is_Some o ∧ b = true ∧ b' = false.
Proof.
  destruct (due_tests_agree 3 0.7 unreviewed_scheduler unreviewed_record)
    as (v & b & b' & o & _ & _ & H1 & H2 & H3 & _ & H4 & _ & _ & H5 & _).
  - lra.
  - simpl. lra.
  - simpl. lra.
  - by apply not_overflows_unreviewed.
  - destruct H5 as [-> ->]; [done..|].
    exists true, false, o. split; [done|]. split; [done|]. split; [done|].
    split; [by apply H4|done].
Defined.

End MoreInstances.
